(** * FilterSystemd: the journal-backed filter of fail2ban

    A shallow embedding of [fail2ban/server/filtersystemd.py].  The methods
    of [FilterSystemd] become computations in a small state-and-exception
    monad over a record holding the attributes of the filter object and
    the part of the outside world the methods talk to (the journal reader,
    the fail manager, the jail, the flags other threads set). *)

From Stdlib Require Import ZArith QArith List String Ascii DecimalString Sorted Lia.
From stdpp Require Import gmap strings list.

Open Scope string_scope.
Open Scope list_scope.
Open Scope Z_scope.

(** ** Python values met in a journal entry *)

(** A [datetime.datetime], kept as what the code reads from it:
    [time.mktime(d.timetuple())] (whole seconds since the epoch) and
    [d.microsecond]. *)
Record datetime := mkDatetime { dt_seconds : Z; dt_microsecond : Z }.

(** The values the journal reader's converters put in an entry: text,
    integers, lists of text ([MESSAGE] logged in several parts),
    [datetime] objects, [timedelta] objects (as a count of microseconds)
    and the pair [(timedelta, bootid)] of [__MONOTONIC_TIMESTAMP]. *)
Inductive pyval :=
| PStr (s : string)
| PInt (n : Z)
| PList (l : list string)
| PDate (d : datetime)
| PDelta (us : Z)
| PMono (us : Z) (bootid : string).

(** A journal entry is a [dict] from field names to values. *)
Abbreviation logentry := (gmap string pyval).

(** Python truth value of an object ([if v:]); [None] is handled where
    [dict.get] is modelled. *)
Definition truthy (v : pyval) : bool :=
  match v with
  | PStr s => negb (String.eqb s "")
  | PInt n => negb (n =? 0)%Z
  | PList l => match l with [] => false | _ => true end
  | PDate _ => true
  | PDelta us => negb (us =? 0)%Z
  | PMono _ _ => true
  end.

(** ** Exceptions, results, the monad *)

Inductive exn :=
| ValueError (msg : string)
| OSError
| TypeError
| AttributeError
| IndexError
| OverflowError
| FailManagerEmpty.

(** [OutOfFuel] is not a Python outcome: it marks a loop of the model cut
    short by its iteration budget. *)
Inductive result (A : Type) :=
| Ok (a : A)
| Raise (e : exn)
| OutOfFuel.
Arguments Ok {A} a.
Arguments Raise {A} e.
Arguments OutOfFuel {A}.

Inductive jop := JMatch (tok : string) | JOr.

Inductive location :=
| LocHead
| LocSeek (t : Z)
| LocAt (i : nat).

(** Modelled from the spec: the journal store ([systemd.journal.Reader]),
    an external library of which the filter only calls [add_match],
    [add_disjunction], [flush_matches], [seek_realtime], [get_previous],
    [get_next] and [wait].  The store keeps the filter calls received since
    the last flush, oldest first; the records it can yield with their
    realtime stamp in microseconds, in journal order; and a read position.
    [j_incoming] lists the batches of records that successive [wait] calls
    find appended; [j_faults] says which of the coming reads fail with a
    low-level fault. *)
Record Journal := mkJournal {
  j_filters : list jop;
  j_flushes : nat;
  j_records : list (Z * logentry);
  j_loc : location;
  j_incoming : list (list (Z * logentry));
  j_faults : list bool
}.

Definition ticket := string.

(** How a read of the journal ended, as the loop sees it. *)
Inductive read_outcome := GotEntry | NoEntry | ReadFault.

(** What the main loop does to the world: the notice of a start without
    match, a read of the [active] flag and its value, [journal.wait], the
    idle [time.sleep], [get_next], [processLineAndAdd], [putFailTicket],
    [failManager.cleanup].  A trace lists them newest first. *)
Inductive event :=
| EvNotice
| EvActive (b : bool)
| EvWait
| EvSleep
| EvRead (o : read_outcome)
| EvProcess (line : string * string * string) (stamp : Q)
| EvBan (t : ticket)
| EvCleanup.

(** The filter object.  [journal], [matches], [modified] and [ticks] are
    the attributes [__journal], [__matches], [__modified] and [ticks];
    [active] and [idle] are the values other threads make the two flags
    show at the successive reads of them (a flag whose list is used up
    reads [False]); [findtime] and [now] are [getFindTime()] and the clock;
    [failManager] is the queue of tickets [toBan] hands out; [jail] the
    tickets given to [putFailTicket]; [trace] the events so far. *)
Record FilterSystemd := mkFilter {
  journal : Journal;
  matches : list (list string);
  modified : Z;
  ticks : Z;
  active : list bool;
  idle : list bool;
  findtime : Z;
  now : datetime;
  failManager : list ticket;
  jail : list ticket;
  trace : list event
}.

Definition set_journal (f : Journal -> Journal) (s : FilterSystemd) :=
  mkFilter (f (journal s)) (matches s) (modified s) (ticks s) (active s)
    (idle s) (findtime s) (now s) (failManager s) (jail s) (trace s).
Definition set_matches (m : list (list string)) (s : FilterSystemd) :=
  mkFilter (journal s) m (modified s) (ticks s) (active s)
    (idle s) (findtime s) (now s) (failManager s) (jail s) (trace s).
Definition set_modified (n : Z) (s : FilterSystemd) :=
  mkFilter (journal s) (matches s) n (ticks s) (active s)
    (idle s) (findtime s) (now s) (failManager s) (jail s) (trace s).
Definition set_ticks (n : Z) (s : FilterSystemd) :=
  mkFilter (journal s) (matches s) (modified s) n (active s)
    (idle s) (findtime s) (now s) (failManager s) (jail s) (trace s).
Definition set_active (l : list bool) (s : FilterSystemd) :=
  mkFilter (journal s) (matches s) (modified s) (ticks s) l
    (idle s) (findtime s) (now s) (failManager s) (jail s) (trace s).
Definition set_idle (l : list bool) (s : FilterSystemd) :=
  mkFilter (journal s) (matches s) (modified s) (ticks s) (active s)
    l (findtime s) (now s) (failManager s) (jail s) (trace s).
Definition set_failManager (q : list ticket) (s : FilterSystemd) :=
  mkFilter (journal s) (matches s) (modified s) (ticks s) (active s)
    (idle s) (findtime s) (now s) q (jail s) (trace s).
Definition set_jail (q : list ticket) (s : FilterSystemd) :=
  mkFilter (journal s) (matches s) (modified s) (ticks s) (active s)
    (idle s) (findtime s) (now s) (failManager s) q (trace s).
Definition emit (e : event) (s : FilterSystemd) :=
  mkFilter (journal s) (matches s) (modified s) (ticks s) (active s)
    (idle s) (findtime s) (now s) (failManager s) (jail s) (e :: trace s).

Definition M (A : Type) := FilterSystemd -> result A * FilterSystemd.

Definition ret {A} (a : A) : M A := fun s => (Ok a, s).
Definition raise {A} (e : exn) : M A := fun s => (Raise e, s).
Definition bind {A B} (m : M A) (k : A -> M B) : M B :=
  fun s =>
    match m s with
    | (Ok a, s') => k a s'
    | (Raise e, s') => (Raise e, s')
    | (OutOfFuel, s') => (OutOfFuel, s')
    end.
Definition gets {A} (f : FilterSystemd -> A) : M A := fun s => (Ok (f s), s).
Definition modify (f : FilterSystemd -> FilterSystemd) : M unit :=
  fun s => (Ok tt, f s).

(** [try: m except E as e: h(e)] for the exceptions [catches] selects. *)
Definition try_except {A} (m : M A) (catches : exn -> bool) (h : exn -> M A)
  : M A :=
  fun s =>
    match m s with
    | (Raise e, s') => if catches e then h e s' else (Raise e, s')
    | r => r
    end.

Declare Scope monad_scope.
Delimit Scope monad_scope with monad.
Notation "x <- c1 ;; c2" := (bind c1 (fun x => c2))
  (at level 100, c1 at next level, right associativity) : monad_scope.
Notation "c1 ;; c2" := (bind c1 (fun _ => c2))
  (at level 100, right associativity) : monad_scope.
Open Scope monad_scope.

(** [for x in xs: acc = body(acc, x)] *)
Fixpoint for_each {X A} (xs : list X) (body : A -> X -> M A) (acc : A) : M A :=
  match xs with
  | [] => ret acc
  | x :: rest => a <- body acc x ;; for_each rest body a
  end.

Inductive ctl := Next | Break.

(** [while cond: body], where the body says whether it ended in [break];
    [continue] is an early [Next]. *)
Fixpoint while (fuel : nat) (cond : M bool) (body : M ctl) : M unit :=
  match fuel with
  | O => fun s => (OutOfFuel, s)
  | S fuel' =>
      b <- cond ;;
      if b : bool then
        c <- body ;;
        match c with
        | Break => ret tt
        | Next => while fuel' cond body
        end
      else ret tt
  end.

(** [l[-1] = f(l[-1])]; the caller checks that [l] is not empty. *)
Fixpoint upd_last {A} (f : A -> A) (l : list A) : list A :=
  match l with
  | [] => []
  | [x] => [f x]
  | x :: rest => x :: upd_last f rest
  end.

(** [newMatches[-1].append(x)] *)
Definition append_to_last (x : string) (nm : list (list string))
  : M (list (list string)) :=
  match nm with
  | [] => raise IndexError
  | _ => ret (upd_last (fun g => g ++ [x]) nm)
  end.

(** ** Sample data *)

(** A store that accepts the tokens holding an equals sign. *)
Fixpoint has_equals (t : string) : bool :=
  match t with
  | EmptyString => false
  | String c rest => Ascii.eqb c "=" || has_equals rest
  end.

(** A rendering of dates by their seconds, enough to tell them apart. *)
Definition sample_isoformat (d : datetime) : string :=
  NilZero.string_of_int (Z.to_int (dt_seconds d)).

(** A detection engine that bans on every line of the form ["fail"]. *)
Definition sample_detect (line : string * string * string) (stamp : Q)
  : list ticket :=
  if String.eqb (snd line) "fail" then ["192.0.2.1"] else [].

Definition sshd_entry : logentry :=
  <["_HOSTNAME" := PStr "gate"]>
  (<["SYSLOG_IDENTIFIER" := PStr "sshd"]>
  (<["_PID" := PInt 4242]>
  (<["MESSAGE" := PStr "Failed password for root"]>
  (<["_SOURCE_REALTIME_TIMESTAMP" := PDate (mkDatetime 1700000000 250000)]>
  (<["__REALTIME_TIMESTAMP" := PDate (mkDatetime 1700000001 5)]> ∅))))).

Definition kernel_entry : logentry :=
  <["_HOSTNAME" := PStr "gate"]>
  (<["SYSLOG_IDENTIFIER" := PStr "kernel"]>
  (<["__MONOTONIC_TIMESTAMP" := PMono 1234567 "b0"]>
  (<["MESSAGE" := PList ["eth0:"; "link up"]]>
  (<["__REALTIME_TIMESTAMP" := PDate (mkDatetime 1700000002 0)]> ∅)))).

Definition kernel_entry_no_monotonic : logentry :=
  <["SYSLOG_IDENTIFIER" := PStr "kernel"]>
  (<["MESSAGE" := PStr "oops"]>
  (<["__REALTIME_TIMESTAMP" := PDate (mkDatetime 1700000003 0)]> ∅)).

(** The record of the second [i]: a line ["fail"] every fifty seconds. *)
Definition sample_record (i : nat) : Z * logentry :=
  (Z.of_nat i * 1000000,
   <["MESSAGE" := PStr (if (i mod 50 =? 0)%nat then "fail" else "ok")]>
   (<["__REALTIME_TIMESTAMP" := PDate (mkDatetime (Z.of_nat i) 0)]> ∅)).

(** A filter over a journal of 150 records, one a second, started at the
    second 640 with a [findtime] of 600, the flag set for 300 reads. *)
Definition busy_filter : FilterSystemd :=
  mkFilter (mkJournal [] 0 (map sample_record (seq 0 150)) LocHead [] [])
    [] 0 0 (repeat true 300) [] 600 (mkDatetime 640 0) [] [] [].

(** The same journal, the flag cleared after two reads of it. *)
Definition brief_filter : FilterSystemd :=
  mkFilter (mkJournal [] 0 (map sample_record (seq 0 150)) LocHead [] [])
    [] 0 0 [true; true] [] 600 (mkDatetime 640 0) [] [] [].

(** A stopped filter with two tickets waiting. *)
Definition stopped_filter : FilterSystemd :=
  mkFilter (mkJournal [] 0 [] LocHead [] []) [] 1 0 [] [] 600
    (mkDatetime 0 0) ["192.0.2.1"; "192.0.2.7"] [] [].

(** A filter holding the groups of ["_COMM=sshd + PRIORITY=3"]. *)
Definition two_group_filter : FilterSystemd :=
  mkFilter
    (mkJournal [JMatch "_COMM=sshd"; JOr; JMatch "PRIORITY=3"; JOr] 0 []
       LocHead [] [])
    [["_COMM=sshd"]; ["PRIORITY=3"]] 0 0 [] [] 0 (mkDatetime 0 0) [] [] [].

(** The local time rules of a platform on UTC. *)
Definition utc (t : Z) : Z := t.

(** A [fromtimestamp] on whole seconds that takes the timestamps of the
    years 1970 to 9999. *)
Definition sample_fromtimestamp (t : Q) : exn + datetime :=
  let whole := Qnum t / Z.pos (Qden t) in
  if (0 <=? whole) && (whole <=? 253402300799)
  then inr (mkDatetime whole 0)
  else inl (ValueError "year is out of range").

(** The local time rules of Berlin around the end of summer time in 2023:
    at the instant 1698541200 (03:00 summer time) the wall clock is set
    back to 02:00 and the UTC offset goes from two hours to one.  The
    readings from 02:00 to 03:00 come twice; [berlin_mktime] takes them as
    the later instant. *)
Definition berlin_localtime (t : Z) : Z :=
  t + (if t <? 1698541200 then 7200 else 3600).
Definition berlin_mktime (w : Z) : Z :=
  w - (if w <? 1698544800 then 7200 else 3600).

Definition old_record : Z * logentry :=
  (1698538000000000,
   <["MESSAGE" := PStr "old"]>
   (<["__REALTIME_TIMESTAMP" := PDate (mkDatetime 1698538000 0)]> ∅)).

Definition recent_record : Z * logentry :=
  (1698541000000000,
   <["MESSAGE" := PStr "recent"]>
   (<["__REALTIME_TIMESTAMP" := PDate (mkDatetime 1698541000 0)]> ∅)).

(** A filter started in Berlin five minutes after the end of summer time,
    with a [findtime] of 600: one record is 3500 s old, one 500 s. *)
Definition dst_filter : FilterSystemd :=
  mkFilter (mkJournal [] 0 [old_record; recent_record] LocHead [] [])
    [] 0 0 [true] [] 600 (mkDatetime 1698541500 0) [] [] [].

(** A filter whose [findtime] is beyond what the range of [datetime]
    takes. *)
Definition far_filter : FilterSystemd :=
  mkFilter (mkJournal [] 0 [] LocHead [] []) [] 0 0 [] [] 100000000000
    (mkDatetime 1700000000 0) [] [] [].

(** A filter holding a group with a token the store rejects. *)
Definition tainted_filter : FilterSystemd :=
  mkFilter (mkJournal [JMatch "_UID=0"; JOr] 0 [] LocHead [] [])
    [["_UID=0"]; ["bogus"]] 0 0 [] [] 0 (mkDatetime 0 0) [] [] [].

(** An entry without a realtime field. *)
Definition undated_entry : logentry :=
  <["_HOSTNAME" := PStr "gate"]> (<["MESSAGE" := PStr "no date"]> ∅).

(** An entry of the kernel with a pid and no monotonic field. *)
Definition kernel_pid_entry : logentry :=
  <["_HOSTNAME" := PStr "gate"]>
  (<["SYSLOG_IDENTIFIER" := PStr "kernel"]>
  (<["_PID" := PInt 1]>
  (<["MESSAGE" := PStr "audit: enabled"]>
  (<["__REALTIME_TIMESTAMP" := PDate (mkDatetime 1700000004 0)]> ∅)))).

(** A filter whose journal holds one entry that cannot be formatted, with
    a ticket waiting. *)
Definition faulty_filter : FilterSystemd :=
  mkFilter
    (mkJournal [] 0 [(1700000003000000, kernel_entry_no_monotonic)] LocHead
       [] [])
    [] 0 0 [true; true] [] 600 (mkDatetime 1700000100 0) ["192.0.2.9"] [] [].

(** An idle filter with a record about to arrive and a ticket waiting. *)
Definition idle_filter : FilterSystemd :=
  mkFilter (mkJournal [] 0 [] LocHead [[sample_record 0]] [])
    [] 3 7 [true] [true] 600 (mkDatetime 640 0) ["192.0.2.9"] [] [].
Section Filter.

(** Whether the store accepts a token: [add_match] raises [ValueError]
    on the others. *)
Variable valid : string -> bool.

(** ** The store's filter calls *)

Definition add_match (tok : string) : M unit :=
  if valid tok then
    modify (set_journal (fun j =>
      mkJournal (j_filters j ++ [JMatch tok]) (j_flushes j) (j_records j)
        (j_loc j) (j_incoming j) (j_faults j)))
  else raise (ValueError "Invalid match").

Definition add_disjunction : M unit :=
  modify (set_journal (fun j =>
    mkJournal (j_filters j ++ [JOr]) (j_flushes j) (j_records j)
      (j_loc j) (j_incoming j) (j_faults j))).

Definition flush_matches : M unit :=
  modify (set_journal (fun j =>
    mkJournal [] (S (j_flushes j)) (j_records j)
      (j_loc j) (j_incoming j) (j_faults j))).

(** ** Match set *)

Definition is_nonempty {A} (l : list A) : bool :=
  match l with [] => false | _ => true end.

(** Body of the inner loop of [_addJournalMatches]. *)
Definition add_element (nm : list (list string)) (match_element : string)
  : M (list (list string)) :=
  add_match match_element ;;
  append_to_last match_element nm.

(** Body of the outer loop of [_addJournalMatches]. *)
Definition add_group (nm : list (list string)) (mtch : list string)
  : M (list (list string)) :=
  nm1 <- for_each mtch add_element (nm ++ [[]]) ;;
  add_disjunction ;;
  ret nm1.

Definition _addJournalMatches (ms : list (list string)) : M unit :=
  cur <- gets matches ;;
  (if is_nonempty cur then add_disjunction else ret tt) ;;
  newMatches <- for_each ms add_group [] ;;
  modify (fun s => set_matches (matches s ++ newMatches) s).

Definition resetJournalMatches : M unit :=
  flush_matches ;;
  match_copy <- gets matches ;;
  modify (set_matches []) ;;
  _addJournalMatches match_copy.

Definition is_ValueError (e : exn) : bool :=
  match e with ValueError _ => true | _ => false end.

(** The split of [addJournalMatch]: a new group at each ["+"]. *)
Definition split_step (nm : list (list string)) (match_element : string)
  : M (list (list string)) :=
  if String.eqb match_element "+" then ret (nm ++ [[]])
  else append_to_last match_element nm.

Definition addJournalMatch (mtch : list string) : M unit :=
  newMatches <- for_each mtch split_step [[]] ;;
  try_except (_addJournalMatches newMatches) is_ValueError
    (fun e => resetJournalMatches ;; raise e).

(** [del self.__matches[self.__matches.index(match)]] *)
Fixpoint remove_first (m : list string) (l : list (list string)) :=
  match l with
  | [] => []
  | g :: rest => if decide (g = m) then rest else g :: remove_first m rest
  end.

Definition delJournalMatch (mtch : list string) : M unit :=
  cur <- gets matches ;;
  if decide (mtch ∈ cur) then
    modify (set_matches (remove_first mtch cur)) ;;
    resetJournalMatches
  else raise (ValueError "Match not found").

Definition getJournalMatch : M (list (list string)) := gets matches.

(** [status]: the list the parent class returns for the flavor, [ret],
    with the entry of the journal matches appended. *)
Definition status (ret : list (string * list string)) (s : FilterSystemd)
  : list (string * list string) :=
  ret ++ [("Journal matches",
           [String.concat " + " (map (String.concat " ") (matches s))])].

(** ** What the store's filter amounts to, and the replay *)

(** Modelled from the spec: the filter structure the store holds, read off
    the calls it received: the groups of tokens between disjunction
    boundaries, in order.  A boundary with no token since the previous one
    (or since the flush) closes nothing, as [sd_journal_add_disjunction]
    documents. *)
Fixpoint groups_of (cur : list string) (ops : list jop)
  : list (list string) :=
  match ops with
  | [] => match cur with [] => [] | _ => [cur] end
  | JMatch t :: rest => groups_of (cur ++ [t]) rest
  | JOr :: rest =>
      match cur with
      | [] => groups_of [] rest
      | _ => cur :: groups_of [] rest
      end
  end.

Definition filter_structure (j : Journal) : list (list string) :=
  groups_of [] (j_filters j).

(** A filter object as [__init__] leaves it, over a store with no record. *)
Definition empty_filter : FilterSystemd :=
  mkFilter (mkJournal [] 0 [] LocHead [] []) [] 0 0 [] [] 0
    (mkDatetime 0 0) [] [] [].

(** Replaying a sequence of groups from an empty store. *)
Definition replay (ms : list (list string)) : result unit * FilterSystemd :=
  _addJournalMatches ms empty_filter.

(** The store mirrors the in-memory sequence [matches s]: the replay of
    that sequence from empty succeeds and builds the same structure. *)
Definition in_sync (s : FilterSystemd) : Prop :=
  fst (replay (matches s)) = Ok tt /\
  filter_structure (journal s)
  = filter_structure (journal (snd (replay (matches s)))).

(** Every token of the in-memory sequence is one the store accepts. *)
Definition accepted (s : FilterSystemd) : bool :=
  forallb (forallb valid) (matches s).

(** A filter with no match and no filter call on its store. *)
Definition fresh (s : FilterSystemd) : Prop :=
  matches s = [] /\ j_filters (journal s) = [].

Inductive op := OpAdd (m : list string) | OpDel (m : list string).

Definition perform (o : op) : M unit :=
  match o with
  | OpAdd m => addJournalMatch m
  | OpDel m => delJournalMatch m
  end.

(** The state after the operations, when each of them succeeded. *)
Fixpoint perform_all (ops : list op) (s : FilterSystemd)
  : option FilterSystemd :=
  match ops with
  | [] => Some s
  | o :: rest =>
      match perform o s with
      | (Ok _, s') => perform_all rest s'
      | _ => None
      end
  end.

(** The filters reached from a fresh one by calls of [addJournalMatch] and
    [delJournalMatch], whether they succeed or raise. *)
Inductive reachable : FilterSystemd -> Prop :=
| reach_fresh s : fresh s -> reachable s
| reach_step s o : reachable s -> reachable (snd (perform o s)).

(** The split of a match specification as the spec words it: the tokens
    between the ["+"] sentinels, [cur] being the group under way. *)
Fixpoint split_plus (cur : list string) (l : list string)
  : list (list string) :=
  match l with
  | [] => [cur]
  | t :: rest =>
      if String.eqb t "+" then cur :: split_plus [] rest
      else split_plus (cur ++ [t]) rest
  end.

(** The calls registering a sequence of groups on an empty store. *)
Definition replay_ops (ms : list (list string)) : list jop :=
  concat (map (fun g => map JMatch g ++ [JOr]) ms).

(** The store with its filter calls replaced. *)
Definition set_filters (ops : list jop) (n : nat) (s : FilterSystemd) :=
  set_journal (fun j =>
    mkJournal ops n (j_records j) (j_loc j) (j_incoming j) (j_faults j)) s.

Definition push_filters (ops : list jop) (s : FilterSystemd) :=
  set_filters (j_filters (journal s) ++ ops) (j_flushes (journal s)) s.

(** Some token handed to [add_match] is rejected. *)
Definition rejects (mtch : list string) : bool :=
  existsb (fun t => negb (String.eqb t "+") && negb (valid t)) mtch.

(** The boundary [_addJournalMatches] puts first when the set is not empty. *)
Definition leading_or (s : FilterSystemd) : list jop :=
  if is_nonempty (matches s) then [JOr] else [].

(** The state [resetJournalMatches] leaves when the tokens in memory are
    accepted: the store flushed, then the groups registered again. *)
Definition rebuilt (s : FilterSystemd) : FilterSystemd :=
  set_filters (replay_ops (matches s)) (S (j_flushes (journal s))) s.

(** The calls the store received amount to the non-empty groups in memory,
    none left open: whatever calls follow are read from a closed boundary. *)
Definition mirrors (s : FilterSystemd) : Prop :=
  forall rest,
    groups_of [] (j_filters (journal s) ++ rest)
    = List.filter is_nonempty (matches s) ++ groups_of [] rest.

(** ** Formatting a journal entry *)

(** The text decoding [Filter.uni_decode(x, self.getLogEncoding())] applies
    to a raw text value. *)
Variable decode : string -> string.

(** [datetime.isoformat]. *)
Variable isoformat : datetime -> string.

(** Modelled from the spec: [uni_decode], whose code is in [filter.py]: the
    one configured decoding, applied to a textual field.  A value that is
    not text cannot become part of the line, which is a [TypeError]. *)
Definition uni_decode (v : pyval) : M string :=
  match v with
  | PStr s => ret (decode s)
  | _ => raise TypeError
  end.

(** [if v:] on the result of [dict.get]. *)
Definition is_true (v : option pyval) : bool :=
  match v with
  | Some x => truthy x
  | None => false
  end.

(** [v = e.get(k1)], then [if not v: v = e.get(k2)]. *)
Definition get_or (e : logentry) (k1 k2 : string) : option pyval :=
  if is_true (e !! k1) then e !! k1 else e !! k2.

Definition string_of_Z (n : Z) : string :=
  NilZero.string_of_int (Z.to_int n).

(** ["[%i]" % v] *)
Definition format_pid (v : pyval) : M string :=
  match v with
  | PInt n => ret ("[" +:+ string_of_Z n +:+ "]")
  | _ => raise TypeError
  end.

Definition digit (n : Z) : ascii :=
  ascii_of_nat (48 + Z.to_nat (n mod 10)).

(** The six decimals of a count of microseconds below one second. *)
Definition six_digits (f : Z) : string :=
  String (digit (f / 100000)) (String (digit (f / 10000))
  (String (digit (f / 1000)) (String (digit (f / 100))
  (String (digit (f / 10)) (String (digit f) ""))))).

(** Sign and whole seconds of a duration of [us] microseconds. *)
Definition whole_seconds (us : Z) : string :=
  (if us <? 0 then "-" else "") +:+ string_of_Z (Z.abs us / 1000000).

(** Its six decimals. *)
Definition micro_digits (us : Z) : string :=
  six_digits (Z.abs us mod 1000000).

(** ["%.6f" % x] for [x] the duration of [us] microseconds in seconds. *)
Definition fixed6 (us : Z) : string :=
  whole_seconds us +:+ "." +:+ micro_digits us.

Fixpoint spaces (n : nat) : string :=
  match n with
  | O => ""
  | S n' => String " " (spaces n')
  end.

(** Right-justified in a field of [w] characters. *)
Definition pad_left (w : nat) (s : string) : string :=
  spaces (w - String.length s) +:+ s.

(** ["[%12.6f]" % monotonic.total_seconds()] *)
Definition format_monotonic (us : Z) : string :=
  "[" +:+ pad_left 12 (fixed6 us) +:+ "]".

(** [v[0]] *)
Definition subscript0 (v : option pyval) : M pyval :=
  match v with
  | Some (PMono us _) => ret (PDelta us)
  | Some (PStr s) =>
      match s with
      | EmptyString => raise IndexError
      | String c _ => ret (PStr (String c ""))
      end
  | Some (PList l) =>
      match l with
      | [] => raise IndexError
      | x :: _ => ret (PStr x)
      end
  | _ => raise TypeError
  end.

(** [v.total_seconds()], in microseconds. *)
Definition total_seconds (v : pyval) : M Z :=
  match v with
  | PDelta us => ret us
  | _ => raise AttributeError
  end.

(** The host element, when there is one. *)
Definition host_element (e : logentry) : M (list string) :=
  match e !! "_HOSTNAME" with
  | Some v => if truthy v then h <- uni_decode v ;; ret [h] else ret []
  | None => ret []
  end.

(** The identifier element as rendered, when there is one: the identifier
    or the command name, the pid in brackets, the colon. *)
Definition rendered_identifier (e : logentry) : M (option string) :=
  match get_or e "SYSLOG_IDENTIFIER" "_COMM" with
  | Some v =>
      if truthy v then
        ident <- uni_decode v ;;
        ident <- match get_or e "SYSLOG_PID" "_PID" with
                 | Some p =>
                     if truthy p then
                       b <- format_pid p ;; ret (ident +:+ b)
                     else ret ident
                 | None => ret ident
                 end ;;
        ret (Some (ident +:+ ":"))
      else ret None
  | None => ret None
  end.

(** The bracketed monotonic stamp of a kernel line. *)
Definition kernel_stamp (e : logentry) : M string :=
  monotonic <- match e !! "_SOURCE_MONOTONIC_TIMESTAMP" with
               | Some v => ret v
               | None => subscript0 (e !! "__MONOTONIC_TIMESTAMP")
               end ;;
  us <- total_seconds monotonic ;;
  ret (format_monotonic us).

Definition message_element (e : logentry) : M string :=
  match e !! "MESSAGE" with
  | None => uni_decode (PStr "")
  | Some (PList l) => ret (String.concat " " (map decode l))
  | Some v => uni_decode v
  end.

Definition log_elements (e : logentry) : M (list string) :=
  host <- host_element e ;;
  ident <- rendered_identifier e ;;
  idpart <- match ident with
            | Some i =>
                if String.eqb i "kernel:" then
                  k <- kernel_stamp e ;; ret [i; k]
                else ret [i]
            | None => ret []
            end ;;
  msg <- message_element e ;;
  ret (host ++ idpart ++ [msg]).

(** [e.get('_SOURCE_REALTIME_TIMESTAMP', e.get('__REALTIME_TIMESTAMP'))] *)
Definition realtime_field (e : logentry) : option pyval :=
  match e !! "_SOURCE_REALTIME_TIMESTAMP" with
  | Some v => Some v
  | None => e !! "__REALTIME_TIMESTAMP"
  end.

(** [time.mktime(date.timetuple()) + date.microsecond/1.0E6], the floating
    point sum taken as the exact rational. *)
Definition epoch_stamp (d : datetime) : Q :=
  (inject_Z (dt_seconds d) + (dt_microsecond d # 1000000))%Q.

Definition formatJournalEntry (e : logentry)
  : M ((string * string * string) * Q) :=
  logelements <- log_elements e ;;
  let logline := String.concat " " logelements in
  match realtime_field e with
  | Some (PDate date) =>
      ret (("", isoformat date, logline), epoch_stamp date)
  | _ => raise AttributeError
  end.

(** A computation that leaves the filter object as it found it. *)
Definition pure {A} (m : M A) : Prop := forall s, snd (m s) = s.

Definition is_digit (c : ascii) : bool :=
  (48 <=? nat_of_ascii c)%nat && (nat_of_ascii c <=? 57)%nat.

Fixpoint all_chars (p : ascii -> bool) (s : string) : bool :=
  match s with
  | EmptyString => true
  | String c rest => p c && all_chars p rest
  end.

(** The text before the identifier element in the line. *)
Definition line_prefix (host : list string) : string :=
  match host with
  | [] => ""
  | _ => String.concat " " host +:+ " "
  end.

(** The realtime [datetime] of the entry is [d]: the field the source
    reported when the entry has it, the store's own otherwise. *)
Definition realtime_of (e : logentry) (d : datetime) : Prop :=
  e !! "_SOURCE_REALTIME_TIMESTAMP" = Some (PDate d)
  \/ (e !! "_SOURCE_REALTIME_TIMESTAMP" = None
      /\ e !! "__REALTIME_TIMESTAMP" = Some (PDate d)).

(** The monotonic time of the entry is [us] microseconds: the field the
    source reported when the entry has it, the [timedelta] of the store's
    own pair otherwise. *)
Definition monotonic_of (e : logentry) (us : Z) : Prop :=
  e !! "_SOURCE_MONOTONIC_TIMESTAMP" = Some (PDelta us)
  \/ (e !! "_SOURCE_MONOTONIC_TIMESTAMP" = None
      /\ exists bootid, e !! "__MONOTONIC_TIMESTAMP" = Some (PMono us bootid)).

(** The line of a kernel entry: what precedes the identifier, ["kernel:"],
    a space, the bracketed stamp of [us] microseconds (padding, whole
    seconds, the point, six decimals), a space, the message. *)
Definition kernel_line (host : list string) (pad : string) (us : Z)
    (msg : string) : string :=
  line_prefix host +:+ "kernel:" +:+ " "
  +:+ ("[" +:+ pad +:+ whole_seconds us +:+ "." +:+ micro_digits us +:+ "]")
  +:+ " " +:+ msg.

(** Six decimal digits after blank padding. *)
Definition six_decimals (pad : string) (us : Z) : Prop :=
  all_chars (Ascii.eqb " ") pad = true /\
  String.length (micro_digits us) = 6%nat /\
  all_chars is_digit (micro_digits us) = true.

(** ** The journal cursor *)

Definition stamp_usec (d : datetime) : Z :=
  dt_seconds d * 1000000 + dt_microsecond d.

(** The place of the first record at or after [t], the number of records
    when there is none. *)
Fixpoint first_at_or_after (t : Z) (rs : list (Z * logentry)) : nat :=
  match rs with
  | [] => O
  | r :: rest => if t <=? fst r then O else S (first_at_or_after t rest)
  end.

Definition set_loc (l : location) (j : Journal) : Journal :=
  mkJournal (j_filters j) (j_flushes j) (j_records j) l (j_incoming j)
    (j_faults j).

(** Whether the coming read faults; the fault, if any, is used up. *)
Definition take_fault (j : Journal) : bool * Journal :=
  match j_faults j with
  | [] => (false, j)
  | b :: rest =>
      (b, mkJournal (j_filters j) (j_flushes j) (j_records j) (j_loc j)
            (j_incoming j) rest)
  end.

(** Modelled from the spec: [seek_realtime] leaves the cursor at a point
    in time, from which a forward read yields the first record at or after
    it. *)
Definition seek_realtime (d : datetime) : M unit :=
  modify (set_journal (set_loc (LocSeek (stamp_usec d)))).

(** The place a forward read yields. *)
Definition next_index (j : Journal) : nat :=
  match j_loc j with
  | LocHead => O
  | LocSeek t => first_at_or_after t (j_records j)
  | LocAt i => S i
  end.

(** The place a backward read yields, if any. *)
Definition previous_index (j : Journal) : option nat :=
  match j_loc j with
  | LocHead => None
  | LocSeek t =>
      match first_at_or_after t (j_records j) with
      | O => None
      | S i => Some i
      end
  | LocAt i =>
      match i with
      | O => None
      | S i' => Some i'
      end
  end.

(** Modelled from the spec: [get_next] yields the record after the cursor
    and moves the cursor onto it, or yields the empty dict and leaves the
    cursor where it is; a low-level fault is an [OSError]. *)
Definition get_next : M logentry :=
  fun s =>
    let (fault, j) := take_fault (journal s) in
    if fault then (Raise OSError, set_journal (fun _ => j) s)
    else
      match j_records j !! next_index j with
      | Some r =>
          (Ok (snd r), set_journal (fun _ => set_loc (LocAt (next_index j)) j) s)
      | None => (Ok ∅, set_journal (fun _ => j) s)
      end.

(** Modelled from the spec: [get_previous] steps one record backward: from
    a point in time onto the last record before it, from a record onto the
    one before; with no record there the cursor stays. *)
Definition get_previous : M logentry :=
  fun s =>
    let (fault, j) := take_fault (journal s) in
    if fault then (Raise OSError, set_journal (fun _ => j) s)
    else
      match previous_index j with
      | Some i =>
          match j_records j !! i with
          | Some r => (Ok (snd r), set_journal (fun _ => set_loc (LocAt i) j) s)
          | None => (Ok ∅, set_journal (fun _ => j) s)
          end
      | None => (Ok ∅, set_journal (fun _ => j) s)
      end.

(** Modelled from the spec: [wait] returns when records arrived or the
    timeout elapsed; the records that arrived are then in the store. *)
Definition journal_wait : M unit :=
  modify (fun s =>
    emit EvWait (set_journal (fun j =>
      match j_incoming j with
      | [] => j
      | batch :: rest =>
          mkJournal (j_filters j) (j_flushes j) (j_records j ++ batch)
            (j_loc j) rest (j_faults j)
      end) s)).

(** ** Naive local time *)

(** The local time rules of the platform.  [localtime] gives the reading
    of the local wall clock at an instant, and [mktime] the instant the
    platform assigns to a reading; both count seconds, the instant from
    the epoch and the reading from 1970-01-01 00:00:00 on the wall clock.
    Where the UTC offset changes, some readings come twice and some never,
    and [mktime] settles them as the platform does. *)
Variable localtime : Z -> Z.
Variable mktime : Z -> Z.

(** [datetime.datetime.fromtimestamp], of the standard library: the naive
    local [datetime] of a timestamp (an [int] or a [float], rounded to a
    microsecond), or the exception it raises: a [ValueError] for a year
    outside 1..9999, an [OverflowError] or an [OSError] beyond what the
    platform's [localtime] takes. *)
Variable fromtimestamp : Q -> exn + datetime.

(** The readings of the wall clock a [datetime] can hold: from
    0001-01-01 00:00:00 to 9999-12-31 23:59:59. *)
Definition datetime_min : Z := -62135596800.
Definition datetime_max : Z := 253402300799.

(** [datetime.timedelta(seconds=k)], as its count of seconds: the days of
    a [timedelta] are at most 999999999 in magnitude. *)
Definition timedelta (k : Z) : M Z :=
  if Z.abs (k / 86400) <=? 999999999 then ret k else raise OverflowError.

(** [d - delta] on a naive [datetime]: the wall clock of [d] set back by
    [delta] seconds, an [OverflowError] when that is no [datetime]. *)
Definition minus_seconds (d : datetime) (delta : Z) : M datetime :=
  let wall := localtime (dt_seconds d) - delta in
  if (datetime_min <=? wall) && (wall <=? datetime_max)
  then ret (mkDatetime (mktime wall) (dt_microsecond d))
  else raise OverflowError.

(** The argument of [seekToTime]: a [datetime], or a timestamp. *)
Inductive time_arg := TDatetime (d : datetime) | TStamp (t : Q).

Definition seekToTime (date : time_arg) : M unit :=
  date <- match date with
          | TDatetime d => ret d
          | TStamp t =>
              match fromtimestamp t with
              | inl e => raise e
              | inr d => ret d
              end
          end ;;
  seek_realtime date.

(** ** The main loop *)

(** Modelled from the spec: the detection engine behind
    [processLineAndAdd], whose code is in [filter.py]: the tickets a line
    makes ready for the jail. *)
Variable detect : string * string * string -> Q -> list ticket.

Definition processLineAndAdd (r : (string * string * string) * Q) : M unit :=
  modify (fun s =>
    emit (EvProcess (fst r) (snd r))
      (set_failManager (failManager s ++ detect (fst r) (snd r)) s)).

(** Modelled from the spec: [failManager.toBan] hands out the next ticket
    or raises [FailManagerEmpty]. *)
Definition toBan : M ticket :=
  fun s =>
    match failManager s with
    | [] => (Raise FailManagerEmpty, s)
    | t :: rest => (Ok t, set_failManager rest s)
    end.

Definition putFailTicket (t : ticket) : M unit :=
  modify (fun s => emit (EvBan t) (set_jail (jail s ++ [t]) s)).

Definition cleanup : M unit := modify (emit EvCleanup).

(** A read of [self.active]. *)
Definition read_active : M bool :=
  fun s =>
    match active s with
    | [] => (Ok false, emit (EvActive false) s)
    | b :: rest => (Ok b, emit (EvActive b) (set_active rest s))
    end.

(** A read of [self.idle]. *)
Definition read_idle : M bool :=
  fun s =>
    match idle s with
    | [] => (Ok false, s)
    | b :: rest => (Ok b, set_idle rest s)
    end.

Definition sleep : M unit := modify (emit EvSleep).

Definition is_OSError (e : exn) : bool :=
  match e with OSError => true | _ => false end.

Definition is_FailManagerEmpty (e : exn) : bool :=
  match e with FailManagerEmpty => true | _ => false end.

(** [while self.active: body].  Each turn reads the flag once and the list
    of the values it will show is finite, which bounds the turns. *)
Definition while_active (body : M ctl) : M unit :=
  fun s => while (S (length (active s))) read_active body s.

(** How the read that left [r] in [logentry] ended. *)
Definition outcome_of (r : option logentry) : read_outcome :=
  match r with
  | None => ReadFault
  | Some e => if decide (e = ∅) then NoEntry else GotEntry
  end.

(** [logentry = None; try: logentry = get_next() except OSError: log] *)
Definition read_entry : M (option logentry) :=
  r <- try_except (e <- get_next ;; ret (Some e)) is_OSError
         (fun _ => ret None) ;;
  modify (emit (EvRead (outcome_of r))) ;;
  ret r.

(** One turn of the inner loop. *)
Definition drain_body : M ctl :=
  logentry <- read_entry ;;
  modify (fun s => set_ticks (ticks s + 1) s) ;;
  match logentry with
  | Some e =>
      if decide (e = ∅) then ret Break
      else
        r <- formatJournalEntry e ;;
        processLineAndAdd r ;;
        modify (fun s => set_modified (modified s + 1) s) ;;
        m <- gets modified ;;
        if 100 <=? m then ret Break else ret Next
  | None => ret Break
  end.

(** The drain of one wait cycle: [self.__modified = 0] and the inner loop. *)
Definition drain : M unit :=
  modify (set_modified 0) ;;
  while_active drain_body.

(** One turn of the ticket loop. *)
Definition ticket_turn : M ctl :=
  ticket <- toBan ;; putFailTicket ticket ;; ret Next.

(** The ticket loop: [while True] until [toBan] raises, then the cleanup.
    Each turn takes a ticket off the queue, which bounds the turns. *)
Definition forward_tickets : M unit :=
  try_except
    (fun s => while (S (length (failManager s))) (ret true) ticket_turn s)
    is_FailManagerEmpty
    (fun _ => cleanup).

(** One turn of the outer loop. *)
Definition wait_cycle : M ctl :=
  journal_wait ;;
  idle <- read_idle ;;
  if idle : bool then
    sleep ;; ret Next
  else
    drain ;;
    m <- gets modified ;;
    (if m =? 0 then ret tt else forward_tickets) ;;
    ret Next.

(** The start of [run]: the notice, the seek to
    [datetime.now() - timedelta(seconds=int(findtime))], the step back. *)
Definition startup : M unit :=
  ms <- getJournalMatch ;;
  (if is_nonempty ms then ret tt else modify (emit EvNotice)) ;;
  now <- gets now ;;
  findtime <- gets findtime ;;
  delta <- timedelta findtime ;;
  start_time <- minus_seconds now delta ;;
  seekToTime (TDatetime start_time) ;;
  try_except (get_previous ;; ret tt) is_OSError (fun _ => ret tt).

Definition run : M bool :=
  startup ;;
  while_active wait_cycle ;;
  ret true.

(** ** Reading traces *)

Definition is_wait (e : event) : bool :=
  match e with EvWait => true | _ => false end.
Definition is_sleep (e : event) : bool :=
  match e with EvSleep => true | _ => false end.
Definition is_read (e : event) : bool :=
  match e with EvRead _ => true | _ => false end.
Definition is_process (e : event) : bool :=
  match e with EvProcess _ _ => true | _ => false end.
Definition is_poll (e : event) : bool :=
  match e with EvActive _ => true | _ => false end.
Definition is_ban (e : event) : bool :=
  match e with EvBan _ => true | _ => false end.
Definition any_event (e : event) : bool := true.

(** Events that are neither a wait, a sleep, a read of the journal, a
    processed entry nor a read of the flag. *)
Definition is_quiet (e : event) : bool :=
  negb (is_wait e || is_sleep e || is_read e || is_process e || is_poll e).

Definition count (p : event -> bool) (tr : list event) : nat :=
  length (List.filter p tr).

(** The events a computation adds to the trace of [s]. *)
Definition added {A} (m : M A) (s : FilterSystemd) : list event :=
  take (length (trace (snd (m s))) - length (trace s)) (trace (snd (m s))).

(** The events since the [active] flag last read as set (all of them when
    it never did). *)
Fixpoint since_set (tr : list event) : list event :=
  match tr with
  | [] => []
  | EvActive true :: _ => []
  | e :: rest => e :: since_set rest
  end.

(** Every [journal.wait] and every [get_next] of the trace comes right
    after a read of the [active] flag that found it set. *)
Fixpoint polled (tr : list event) : bool :=
  match tr with
  | [] => true
  | e :: rest =>
      (if is_wait e || is_read e
       then match rest with
            | EvActive true :: _ => true
            | _ => false
            end
       else true) && polled rest
  end.

(** Since the flag last read as set: at most one wait, at most one idle
    sleep, at most [n] entries processed. *)
Definition latency (n : nat) (tr : list event) : Prop :=
  (count is_wait (since_set tr) <= 1)%nat /\
  (count is_sleep (since_set tr) <= 1)%nat /\
  (count is_process (since_set tr) <= n)%nat.

(** The newest event is a read of the [active] flag that found it set. *)
Definition just_set (s : FilterSystemd) : Prop :=
  exists rest, trace s = EvActive true :: rest.

(** The [active] flag is cleared: it reads [False] from now on. *)
Definition cleared (s : FilterSystemd) : Prop :=
  Forall (fun b => b = false) (active s).

(** The ticket loop reads the [active] flag at each of its turns: at least
    as many reads are added to the trace as tickets are handed over. *)
Definition ticket_loop_polls (s : FilterSystemd) : Prop :=
  (count is_ban (added forward_tickets s)
   <= count is_poll (added forward_tickets s))%nat.

(** Why a drain that ended normally stopped, read off the newest event:
    the flag read as cleared, the read yielded no entry (or faulted), or
    an entry was processed and the counter stood at 100. *)
Definition drain_stop (s : FilterSystemd) : Prop :=
  match trace s with
  | EvActive false :: _ => True
  | EvRead NoEntry :: _ => True
  | EvRead ReadFault :: _ => True
  | EvProcess _ _ :: _ => modified s = 100
  | _ => False
  end.

(** The newest event is a read that yielded no entry. *)
Definition no_entry_read (s : FilterSystemd) : Prop :=
  match trace s with
  | EvRead NoEntry :: _ => True
  | EvRead ReadFault :: _ => True
  | _ => False
  end.

(** A drain that ends normally has stopped with the counter at 100 or on
    a read that yielded no entry. *)
Definition stops_at_cap_or_no_entry (s : FilterSystemd) : Prop :=
  fst (drain s) = Ok tt ->
  modified (snd (drain s)) = 100 \/ no_entry_read (snd (drain s)).

(** Since [s0]: the entries processed are as many as the counter says. *)
Definition counted (s0 s : FilterSystemd) : Prop :=
  exists new,
    trace s = new ++ trace s0 /\
    Z.of_nat (count is_process new) = modified s.

(** ** States the proofs name *)

(** The state a read of the [active] flag leaves. *)
Definition polled_state (s : FilterSystemd) : FilterSystemd :=
  emit (EvActive (hd false (active s))) (set_active (tl (active s)) s).

(** The filter after the notice of [startup]. *)
Definition noticed (s : FilterSystemd) : FilterSystemd :=
  if is_nonempty (matches s) then s else emit EvNotice s.

(** The reading of the wall clock [findtime] seconds before that of
    [now]. *)
Definition start_wall (s : FilterSystemd) : Z :=
  localtime (dt_seconds (now s)) - findtime s.

(** The start time is a [datetime]: the [timedelta] and the subtraction
    both stay within range. *)
Definition start_time_defined (s : FilterSystemd) : bool :=
  (Z.abs (findtime s / 86400) <=? 999999999)
  && ((datetime_min <=? start_wall s) && (start_wall s <=? datetime_max)).

(** The start time of [startup], when it is a [datetime]. *)
Definition start_time (s : FilterSystemd) : datetime :=
  mkDatetime (mktime (start_wall s)) (dt_microsecond (now s)).

(** The filter after the notice and the seek of [startup]. *)
Definition seeked (s : FilterSystemd) : FilterSystemd :=
  set_journal (set_loc (LocSeek (stamp_usec (start_time s)))) (noticed s).

(** The place [startup] leaves the cursor when the step back went through:
    on the last record before the seek time, at the seek time when there
    is none. *)
Definition stepped_back (t : Z) (rs : list (Z * logentry)) : location :=
  match first_at_or_after t rs with
  | O => LocSeek t
  | S i => LocAt i
  end.

(** The filter once the tickets [q] at the head of the queue went to the
    jail. *)
Fixpoint forward_all (q : list ticket) (s : FilterSystemd) : FilterSystemd :=
  match q with
  | [] => s
  | t :: rest =>
      forward_all rest
        (emit (EvBan t)
           (set_jail (jail s ++ [t]) (set_failManager (tl (failManager s)) s)))
  end.

(** No fault at the coming two reads. *)
Definition no_fault_2 (s : FilterSystemd) : bool :=
  forallb negb (take 2 (j_faults (journal s))).

(** [r] is the first record of [rs] at or after [t]: those before it in
    the journal are older. *)
Definition first_from (t : Z) (rs : list (Z * logentry)) (r : Z * logentry)
  : Prop :=
  exists pre post,
    rs = pre ++ r :: post /\ Forall (fun x => fst x < t) pre /\ t <= fst r.

(** The startup seeks to [now - findtime] counted on the epoch: the first
    forward read after it, when it yields an entry, yields the first
    record at or after that instant. *)
Definition seeks_to_now_minus_findtime (s : FilterSystemd) : Prop :=
  forall s1 e,
    startup s = (Ok tt, s1) -> fst (get_next s1) = Ok e -> e <> ∅ ->
    exists r,
      first_from (stamp_usec (now s) - findtime s * 1000000)
        (j_records (journal s)) r /\
      e = snd r.

(** ** A small program logic *)

(** From a state satisfying [P], [m] ends normally in a state satisfying
    [Q], or abnormally (an exception, the fuel of the model used up) in a
    state satisfying [E]. *)
Definition hoare {A} (P : FilterSystemd -> Prop) (m : M A)
    (Q : A -> FilterSystemd -> Prop) (E : FilterSystemd -> Prop) : Prop :=
  forall s, P s ->
    match m s with
    | (Ok a, s') => Q a s'
    | (_, s') => E s'
    end.

(** Every run of [m] takes a state to one related to it by [R]. *)
Definition steps (R : FilterSystemd -> FilterSystemd -> Prop) {A} (m : M A)
  : Prop :=
  forall s, R s (snd (m s)).

(** The trace of [s'] is the trace of [s] with events satisfying [ok]
    added. *)
Definition emitted (ok : event -> bool) (s s' : FilterSystemd) : Prop :=
  exists new, trace s' = new ++ trace s /\ forallb ok new = true.

(** The events [m] adds to the trace all satisfy [ok]. *)
Definition emits_in {A} (ok : event -> bool) (m : M A) : Prop :=
  steps (emitted ok) m.

(** No value was put back in front of the [active] flag. *)
Definition active_le (s s' : FilterSystemd) : Prop :=
  (length (active s') <= length (active s))%nat.

(** [m] never uses up the fuel of the model. *)
Definition total {A} (m : M A) : Prop :=
  forall s, fst (m s) <> OutOfFuel.

(** The property [K] of traces survives an event satisfying [ok]. *)
Definition trace_stable (K : list event -> Prop) (ok : event -> bool) : Prop :=
  forall e tr, ok e = true -> K tr -> K (e :: tr).

(** ** Further notions on the match set *)

(** Neither a stored group nor a call the store received holds the ["+"]
    sentinel. *)
Definition sentinel_free (s : FilterSystemd) : Prop :=
  Forall (fun g => "+" ∉ g) (matches s) /\
  JMatch "+" ∉ j_filters (journal s).

(** Every group of the split of a specification has a token: no ["+"]
    first, last or next to another. *)
Definition well_grouped (mtch : list string) : bool :=
  forallb is_nonempty (split_plus [] mtch).


(** ** Further notions on the main loop *)

(** The match set and the calls the store received for it are the same in
    [s'] as in [s]. *)
Definition same_match_set (s s' : FilterSystemd) : Prop :=
  matches s' = matches s /\
  j_filters (journal s') = j_filters (journal s) /\
  j_flushes (journal s') = j_flushes (journal s).

(** The tickets the detection engine made ready at an event. *)
Definition tickets_of (e : event) : list ticket :=
  match e with
  | EvProcess line stamp => detect line stamp
  | _ => []
  end.

(** The tickets made ready over the events [new] (newest first), in the
    order they were made ready. *)
Definition detected (new : list event) : list ticket :=
  flat_map tickets_of (rev new).

(** From [s] to [s'] no ticket was lost, doubled or reordered: the jail
    kept its tickets and got [banned] after them, and [banned] followed by
    the queue of [s'] is the queue of [s] followed by the tickets made
    ready since. *)
Definition conserved (s s' : FilterSystemd) : Prop :=
  exists new banned,
    trace s' = new ++ trace s /\
    jail s' = jail s ++ banned /\
    banned ++ failManager s' = failManager s ++ detected new.

(** From [s] to [s'] the [ticks] counter went up by the reads of the
    journal. *)
Definition ticked (s s' : FilterSystemd) : Prop :=
  exists new,
    trace s' = new ++ trace s /\
    ticks s' = ticks s + Z.of_nat (count is_read new).

(** Every record of the journal is a non-empty entry. *)
Definition no_empty_record (s : FilterSystemd) : Prop :=
  Forall (fun r => snd r <> ∅) (j_records (journal s)).

(** From [s] to [s'] the jail got no ticket and the queue got those made
    ready since. *)
Definition queued (s s' : FilterSystemd) : Prop :=
  exists new,
    trace s' = new ++ trace s /\
    jail s' = jail s /\
    failManager s' = failManager s ++ detected new.

(** The newest event is a read of the [active] flag that found it
    cleared. *)
Definition just_cleared (s : FilterSystemd) : Prop :=
  exists rest, trace s = EvActive false :: rest.

(** ** The arguments of the journal reader *)

(** The value of a keyword argument: a text, a sequence (a list, a set or
    a tuple) of texts, or a number. *)
Inductive kwval :=
| KText (s : string)
| KSeq (l : list string)
| KInt (n : Z).

(** The value of an argument of the reader: the converters, a keyword
    value passed on as it came, or the list of files. *)
Inductive argval :=
| AConverters
| AGiven (v : kwval)
| AFiles (l : list string).

(** [glob.glob]: the files a pattern expands to. *)
Variable glob : string -> list string.

(** Modelled from the spec: [splitwords] of [helpers.py] turns the value
    of [journalfiles] into the patterns it lists; the spec says no more of
    it, so it is kept abstract, and it may raise. *)
Variable splitwords : kwval -> exn + list string.

(** [list(set(files))]: the files without the duplicates, in an order the
    code does not fix. *)
Variable list_of_set : list string -> list string.

(** [kwargs.pop(key)]: the value, if any, and the dict without the key. *)
Definition pop (key : string) (kwargs : gmap string kwval)
  : option kwval * gmap string kwval :=
  (kwargs !! key, delete key kwargs).

(** The patterns of a [journalfiles] value: the value itself when it is a
    list, a set or a tuple, its words otherwise. *)
Definition patterns_of (p : kwval) : exn + list string :=
  match p with
  | KSeq l => inr l
  | _ => splitwords p
  end.

(** [files = []; for p in p: files.extend(glob.glob(p))] *)
Definition expand (ps : list string) : list string :=
  fold_left (fun files p => files ++ glob p) ps [].

(** The result, or the exception that left the function, and the [kwargs]
    dict as the function leaves it. *)
Definition _getJournalArgs (kwargs : gmap string kwval)
  : (exn + gmap string argval) * gmap string kwval :=
  let args : gmap string argval := {["converters" := AConverters]} in
  let '(path, kwargs) := pop "journalpath" kwargs in
  let args := match path with
              | Some v => <["path" := AGiven v]> args
              | None => args
              end in
  let '(files, kwargs) := pop "journalfiles" kwargs in
  let flags (args : gmap string argval) :=
    let '(flags, kwargs) := pop "journalflags" kwargs in
    match flags with
    | Some v => (inr (<["flags" := AGiven v]> args), kwargs)
    | None => (inr args, kwargs)
    end in
  match files with
  | Some p =>
      let args := <["files" := AGiven p]> args in
      match patterns_of p with
      | inl e => (inl e, kwargs)
      | inr ps => flags (<["files" := AFiles (list_of_set (expand ps))]> args)
      end
  | None => flags args
  end.

(** The keyword arguments meant for the journal reader. *)
Definition journal_keys : list string :=
  ["journalpath"; "journalfiles"; "journalflags"].

(** The names of the reader's arguments. *)
Definition reader_keys : list string :=
  ["converters"; "path"; "files"; "flags"].
(** ** Lemmas on the monad *)

Lemma bind_ok {A B} (m : M A) (k : A -> M B) s a s' :
  m s = (Ok a, s') -> bind m k s = k a s'.
Proof. intros H. unfold bind. now rewrite H. Qed.

Lemma bind_raise {A B} (m : M A) (k : A -> M B) s e s' :
  m s = (Raise e, s') -> bind m k s = (Raise e, s').
Proof. intros H. unfold bind. now rewrite H. Qed.

Lemma upd_last_snoc {A} (f : A -> A) (l : list A) (x : A) :
  upd_last f (l ++ [x]) = l ++ [f x].
Proof.
  induction l as [|y l IH]; [reflexivity|].
  cbn [app upd_last]. rewrite IH.
  destruct (l ++ [x]) eqn:E; [|reflexivity].
  now destruct l.
Qed.

Lemma append_to_last_snoc x pre cur :
  append_to_last x (pre ++ [cur]) = ret (pre ++ [cur ++ [x]]).
Proof.
  unfold append_to_last. rewrite upd_last_snoc.
  destruct (pre ++ [cur]) eqn:E; [now destruct pre | reflexivity].
Qed.

(** ** Lemmas on the store's filter calls *)

Lemma push_filters_nil s : push_filters [] s = s.
Proof.
  destruct s as [[] ? ? ? ? ? ? ? ? ? ?].
  unfold push_filters, set_filters, set_journal; cbn.
  now rewrite app_nil_r.
Qed.

Lemma push_filters_app a b s :
  push_filters b (push_filters a s) = push_filters (a ++ b) s.
Proof.
  unfold push_filters, set_filters, set_journal; cbn.
  now rewrite app_assoc.
Qed.

Lemma add_disjunction_eq s :
  add_disjunction s = (Ok tt, push_filters [JOr] s).
Proof. reflexivity. Qed.

Lemma add_match_valid t s :
  valid t = true -> add_match t s = (Ok tt, push_filters [JMatch t] s).
Proof. intros H. unfold add_match. now rewrite H. Qed.

Lemma add_match_invalid t s :
  valid t = false -> add_match t s = (Raise (ValueError "Invalid match"), s).
Proof. intros H. unfold add_match. now rewrite H. Qed.

(** The inner loop on a group of accepted tokens. *)
Lemma add_elements_valid g : forall pre cur s,
  forallb valid g = true ->
  for_each g add_element (pre ++ [cur]) s
  = (Ok (pre ++ [cur ++ g]), push_filters (map JMatch g) s).
Proof.
  induction g as [|t g IH]; intros pre cur s Hv; cbn [for_each map].
  - now rewrite app_nil_r, push_filters_nil.
  - cbn in Hv. apply andb_prop in Hv as [Ht Hg].
    unfold add_element at 1.
    erewrite bind_ok; [|erewrite bind_ok;
      [rewrite append_to_last_snoc; reflexivity | now apply add_match_valid]].
    rewrite IH by assumption.
    now rewrite push_filters_app, <- app_assoc.
Qed.

(** The inner loop on a group with a rejected token: the error leaves the
    loop, the store having received the tokens before it. *)
Lemma add_elements_invalid g : forall pre cur s,
  forallb valid g = false ->
  exists ops, for_each g add_element (pre ++ [cur]) s
              = (Raise (ValueError "Invalid match"), push_filters ops s).
Proof.
  induction g as [|t g IH]; intros pre cur s Hv; [discriminate|].
  cbn [for_each]. cbn in Hv.
  destruct (valid t) eqn:Ht.
  - cbn in Hv. unfold add_element at 1.
    erewrite bind_ok; [|erewrite bind_ok;
      [rewrite append_to_last_snoc; reflexivity | now apply add_match_valid]].
    destruct (IH pre (cur ++ [t]) (push_filters [JMatch t] s) Hv) as [ops E].
    exists ([JMatch t] ++ ops). now rewrite E, push_filters_app.
  - exists []. rewrite push_filters_nil.
    apply bind_raise. unfold add_element.
    apply bind_raise. now apply add_match_invalid.
Qed.

Lemma add_group_valid nm g s :
  forallb valid g = true ->
  add_group nm g s = (Ok (nm ++ [g]), push_filters (map JMatch g ++ [JOr]) s).
Proof.
  intros Hv. unfold add_group.
  erewrite bind_ok; [|now apply add_elements_valid].
  cbn [app]. erewrite bind_ok; [|apply add_disjunction_eq].
  unfold ret. now rewrite push_filters_app.
Qed.

Lemma add_group_invalid nm g s :
  forallb valid g = false ->
  exists ops, add_group nm g s
              = (Raise (ValueError "Invalid match"), push_filters ops s).
Proof.
  intros Hv. destruct (add_elements_invalid g nm [] s Hv) as [ops E].
  exists ops. unfold add_group. now apply bind_raise.
Qed.

Lemma add_groups_valid ms : forall nm s,
  forallb (forallb valid) ms = true ->
  for_each ms add_group nm s
  = (Ok (nm ++ ms), push_filters (replay_ops ms) s).
Proof.
  induction ms as [|g ms IH]; intros nm s Hv; cbn [for_each].
  - now rewrite app_nil_r, push_filters_nil.
  - cbn in Hv. apply andb_prop in Hv as [Hg Hms].
    erewrite bind_ok; [|now apply add_group_valid].
    rewrite IH by assumption. rewrite push_filters_app, <- app_assoc.
    reflexivity.
Qed.

Lemma add_groups_invalid ms : forall nm s,
  forallb (forallb valid) ms = false ->
  exists ops, for_each ms add_group nm s
              = (Raise (ValueError "Invalid match"), push_filters ops s).
Proof.
  induction ms as [|g ms IH]; intros nm s Hv; [discriminate|].
  cbn [for_each]. cbn in Hv.
  destruct (forallb valid g) eqn:Hg.
  - cbn in Hv. erewrite bind_ok; [|now apply add_group_valid].
    destruct (IH (nm ++ [g]) (push_filters (map JMatch g ++ [JOr]) s) Hv)
      as [ops E].
    exists ((map JMatch g ++ [JOr]) ++ ops). now rewrite E, push_filters_app.
  - destruct (add_group_invalid nm g s Hg) as [ops E].
    exists ops. now apply bind_raise.
Qed.

Lemma _addJournalMatches_valid ms s :
  forallb (forallb valid) ms = true ->
  _addJournalMatches ms s
  = (Ok tt, set_matches (matches s ++ ms)
              (push_filters (leading_or s ++ replay_ops ms) s)).
Proof.
  intros Hv. unfold _addJournalMatches, leading_or.
  erewrite bind_ok; [|reflexivity].
  destruct (is_nonempty (matches s)).
  - erewrite bind_ok; [|apply add_disjunction_eq].
    erewrite bind_ok; [|now apply add_groups_valid].
    unfold modify. now rewrite push_filters_app.
  - erewrite bind_ok; [|reflexivity].
    erewrite bind_ok; [|now apply add_groups_valid].
    reflexivity.
Qed.

Lemma _addJournalMatches_invalid ms s :
  forallb (forallb valid) ms = false ->
  exists ops, _addJournalMatches ms s
              = (Raise (ValueError "Invalid match"), push_filters ops s).
Proof.
  intros Hv. unfold _addJournalMatches.
  erewrite bind_ok; [|reflexivity].
  destruct (is_nonempty (matches s)).
  - erewrite bind_ok; [|apply add_disjunction_eq].
    destruct (add_groups_invalid ms [] (push_filters [JOr] s) Hv) as [ops E].
    exists ([JOr] ++ ops). rewrite <- push_filters_app.
    now apply bind_raise.
  - erewrite bind_ok; [|reflexivity].
    destruct (add_groups_invalid ms [] s Hv) as [ops E].
    exists ops. now apply bind_raise.
Qed.

Lemma resetJournalMatches_accepted s :
  accepted s = true -> resetJournalMatches s = (Ok tt, rebuilt s).
Proof.
  intros Hv. unfold resetJournalMatches.
  erewrite bind_ok; [|reflexivity].
  erewrite bind_ok; [|reflexivity].
  erewrite bind_ok; [|reflexivity].
  rewrite _addJournalMatches_valid by exact Hv.
  destruct s as [[] ? ? ? ? ? ? ? ? ? ?]. reflexivity.
Qed.

(** ** The split at the sentinel *)

Lemma split_loop l : forall pre cur s,
  for_each l split_step (pre ++ [cur]) s = (Ok (pre ++ split_plus cur l), s).
Proof.
  induction l as [|t l IH]; intros pre cur s; cbn [for_each split_plus].
  - reflexivity.
  - unfold split_step at 1. destruct (String.eqb t "+").
    + erewrite bind_ok; [|reflexivity].
      rewrite IH. now rewrite <- app_assoc.
    + erewrite bind_ok; [|rewrite append_to_last_snoc; reflexivity].
      apply IH.
Qed.

Lemma split_plus_valid l : forall cur,
  forallb (forallb valid) (split_plus cur l)
  = forallb valid cur && negb (rejects l).
Proof.
  unfold rejects.
  induction l as [|t l IH]; intros cur; cbn [split_plus existsb].
  - cbn. now rewrite !andb_true_r.
  - destruct (String.eqb t "+") eqn:Et.
    + cbn [forallb negb andb orb]. rewrite IH. reflexivity.
    + rewrite IH, forallb_app. cbn [forallb negb andb orb].
      destruct (valid t); cbn.
      * now rewrite andb_true_r.
      * now rewrite !andb_false_r.
Qed.

(** ** The structure read off the calls *)

Lemma groups_of_tokens g : forall cur rest,
  groups_of cur (map JMatch g ++ rest) = groups_of (cur ++ g) rest.
Proof.
  induction g as [|t g IH]; intros cur rest; cbn.
  - now rewrite app_nil_r.
  - rewrite IH. now rewrite <- app_assoc.
Qed.

Lemma groups_of_replay ms : forall rest,
  groups_of [] (replay_ops ms ++ rest)
  = List.filter is_nonempty ms ++ groups_of [] rest.
Proof.
  unfold replay_ops.
  induction ms as [|g ms IH]; intros rest; [reflexivity|].
  cbn [map concat]. rewrite <- !app_assoc, groups_of_tokens.
  cbn [app groups_of List.filter].
  destruct g; cbn [is_nonempty app]; now rewrite IH.
Qed.

Lemma filter_structure_rebuilt s :
  filter_structure (journal (rebuilt s)) = List.filter is_nonempty (matches s).
Proof.
  unfold filter_structure; cbn.
  rewrite <- (app_nil_r (replay_ops _)), groups_of_replay. cbn.
  apply app_nil_r.
Qed.

Lemma mirrors_fresh s : fresh s -> mirrors s.
Proof. intros [Hm Hf] rest. now rewrite Hm, Hf. Qed.

Lemma mirrors_rebuilt s : mirrors (rebuilt s).
Proof. intros rest. cbn. apply groups_of_replay. Qed.

Lemma mirrors_appended s ms :
  mirrors s ->
  mirrors (set_matches (matches s ++ ms)
             (push_filters (leading_or s ++ replay_ops ms) s)).
Proof.
  intros H rest. cbn. rewrite <- !app_assoc, H.
  rewrite List.filter_app, <- app_assoc. f_equal.
  unfold leading_or. destruct (is_nonempty (matches s)); cbn;
    apply groups_of_replay.
Qed.

Lemma mirrors_in_sync s : mirrors s -> accepted s = true -> in_sync s.
Proof.
  intros Hm Ha. unfold in_sync, replay.
  rewrite _addJournalMatches_valid by exact Ha. split; [reflexivity|].
  unfold filter_structure.
  rewrite <- (app_nil_r (j_filters (journal s))), Hm.
  cbn. rewrite <- (app_nil_r (replay_ops _)), groups_of_replay.
  reflexivity.
Qed.

(** ** addJournalMatch, delJournalMatch *)

Lemma addJournalMatch_rejected s mtch :
  accepted s = true -> rejects mtch = true ->
  addJournalMatch mtch s = (Raise (ValueError "Invalid match"), rebuilt s).
Proof.
  intros Ha Hr. unfold addJournalMatch.
  erewrite bind_ok; [|apply (split_loop mtch [] [] s)].
  cbn [app]. unfold try_except.
  destruct (_addJournalMatches_invalid (split_plus [] mtch) s) as [ops E].
  { rewrite split_plus_valid, Hr. reflexivity. }
  rewrite E. cbn [is_ValueError].
  erewrite bind_ok; [|apply resetJournalMatches_accepted; exact Ha].
  reflexivity.
Qed.

Lemma addJournalMatch_accepted s mtch :
  rejects mtch = false ->
  addJournalMatch mtch s
  = (Ok tt, set_matches (matches s ++ split_plus [] mtch)
              (push_filters (leading_or s ++ replay_ops (split_plus [] mtch))
                 s)).
Proof.
  intros Hr. unfold addJournalMatch.
  erewrite bind_ok; [|apply (split_loop mtch [] [] s)].
  cbn [app]. unfold try_except.
  rewrite _addJournalMatches_valid; [reflexivity|].
  rewrite split_plus_valid, Hr. reflexivity.
Qed.

Lemma delJournalMatch_found s mtch :
  accepted s = true -> mtch ∈ matches s ->
  delJournalMatch mtch s
  = (Ok tt, rebuilt (set_matches (remove_first mtch (matches s)) s)).
Proof.
  intros Ha Hin. unfold delJournalMatch.
  erewrite bind_ok; [|reflexivity].
  destruct (decide (mtch ∈ matches s)) as [_|Hn]; [|contradiction].
  erewrite bind_ok; [|reflexivity].
  apply resetJournalMatches_accepted.
  unfold accepted in *. cbn.
  revert Ha. clear. induction (matches s) as [|g l IH]; cbn; [easy|].
  intros H. apply andb_prop in H as [Hg Hl].
  destruct (decide (g = mtch)); [exact Hl|].
  cbn. now rewrite Hg, IH.
Qed.

Lemma forallb_valid_app (a b : list (list string)) :
  forallb (forallb valid) (a ++ b)
  = forallb (forallb valid) a && forallb (forallb valid) b.
Proof. apply forallb_app. Qed.

(** Both properties of a synchronised filter survive an operation, whether
    it succeeds or raises. *)
Lemma perform_keeps_sync o s :
  mirrors s -> accepted s = true ->
  mirrors (snd (perform o s)) /\ accepted (snd (perform o s)) = true.
Proof.
  intros Hm Ha. destruct o as [m|m]; cbn [perform].
  - destruct (rejects m) eqn:Hr.
    + rewrite addJournalMatch_rejected by assumption. cbn [snd].
      split; [apply mirrors_rebuilt | exact Ha].
    + rewrite addJournalMatch_accepted by assumption. cbn [snd].
      split; [now apply mirrors_appended|].
      unfold accepted in *. cbn. rewrite forallb_valid_app, Ha.
      rewrite split_plus_valid, Hr. reflexivity.
  - destruct (decide (m ∈ matches s)) as [Hin|Hn].
    + rewrite delJournalMatch_found by assumption. cbn [snd].
      split; [apply mirrors_rebuilt|].
      unfold accepted in *. cbn.
      revert Ha. clear. induction (matches s) as [|g l IH]; cbn; [easy|].
      intros H. apply andb_prop in H as [Hg Hl].
      destruct (decide (g = m)); [exact Hl|].
      cbn. now rewrite Hg, IH.
    + unfold delJournalMatch. erewrite bind_ok; [|reflexivity].
      destruct (decide (m ∈ matches s)); [contradiction|].
      cbn. now split.
Qed.

Lemma perform_all_keeps_sync ops : forall s s',
  mirrors s -> accepted s = true -> perform_all ops s = Some s' ->
  mirrors s' /\ accepted s' = true.
Proof.
  induction ops as [|o ops IH]; intros s s' Hm Ha H; cbn in H.
  - injection H as <-. now split.
  - destruct (perform_keeps_sync o s Hm Ha) as [Hm' Ha'].
    destruct (perform o s) as [[[]| |] s1]; try discriminate.
    cbn in Hm', Ha'. exact (IH s1 s' Hm' Ha' H).
Qed.

(** C1.  After any sequence of successful [addJournalMatch] and
    [delJournalMatch] calls on a fresh filter, the filter structure the
    store holds, read off the calls it received, is the in-memory sequence
    of groups itself (those with a token, in order), with its last group
    closed by a boundary; it is the structure of the calls a replay makes
    on an empty store, one [add_match] for each token of each group in
    order and one [add_disjunction] after each group, every token being
    one the store accepts; and the replay by the code's own
    [_addJournalMatches] from an empty filter succeeds and builds that
    structure too. *)
Theorem store_mirrors_matches_after_operations ops s0 s :
  fresh s0 -> perform_all ops s0 = Some s ->
  filter_structure (journal s) = List.filter is_nonempty (matches s) /\
  filter_structure (journal s) = groups_of [] (replay_ops (matches s)) /\
  mirrors s /\
  accepted s = true /\
  in_sync s.
Proof.
  intros Hf H.
  destruct (perform_all_keeps_sync ops s0 s) as [Hm Ha];
    [now apply mirrors_fresh | | exact H |].
  { destruct Hf as [Hm _]. unfold accepted. now rewrite Hm. }
  assert (Hs : filter_structure (journal s)
               = List.filter is_nonempty (matches s)).
  { unfold filter_structure.
    rewrite <- (app_nil_r (j_filters (journal s))), Hm. cbn.
    apply app_nil_r. }
  split; [exact Hs|]. split.
  - rewrite Hs, <- (app_nil_r (replay_ops _)), groups_of_replay. cbn.
    now rewrite app_nil_r.
  - split; [exact Hm|]. split; [exact Ha|]. now apply mirrors_in_sync.
Qed.

Lemma reachable_sync s : reachable s -> mirrors s /\ accepted s = true.
Proof.
  induction 1 as [s Hf|s o _ [Hm Ha]].
  - split; [now apply mirrors_fresh|].
    destruct Hf as [Hm _]. unfold accepted. now rewrite Hm.
  - now apply perform_keeps_sync.
Qed.

(** C2.  On a filter reached from a fresh one by add and delete calls:
    when a token of the specification is rejected by [add_match],
    [addJournalMatch] raises the [ValueError], the in-memory sequence is
    unchanged, and the store is as [resetJournalMatches] builds it: flushed
    once, then holding exactly the calls registering the stored groups
    again, which is the filter structure it had before the add; when no
    token is rejected, the call succeeds and the groups of the split at
    ["+"] are appended to the in-memory sequence. *)
Theorem addJournalMatch_rejects_whole_spec_or_appends s mtch :
  reachable s ->
  (rejects mtch = true ->
   exists s',
     addJournalMatch mtch s = (Raise (ValueError "Invalid match"), s') /\
     matches s' = matches s /\
     s' = snd (resetJournalMatches s) /\
     j_filters (journal s') = replay_ops (matches s) /\
     j_flushes (journal s') = S (j_flushes (journal s)) /\
     filter_structure (journal s') = filter_structure (journal s)) /\
  (rejects mtch = false ->
   exists s',
     addJournalMatch mtch s = (Ok tt, s') /\
     matches s' = matches s ++ split_plus [] mtch).
Proof.
  intros Hreach. destruct (reachable_sync s Hreach) as [Hm Ha].
  split; intros Hr.
  - exists (rebuilt s). split; [now apply addJournalMatch_rejected|].
    split; [reflexivity|]. split.
    { now rewrite resetJournalMatches_accepted. }
    split; [reflexivity|]. split; [reflexivity|].
    rewrite filter_structure_rebuilt. unfold filter_structure.
    rewrite <- (app_nil_r (j_filters (journal s))), Hm. cbn.
    now rewrite app_nil_r.
  - eexists. split; [now apply addJournalMatch_accepted | reflexivity].
Qed.

(** C3.  When the specification equals no stored group, [delJournalMatch]
    raises [ValueError("Match not found")] and the filter, in memory and at
    the store, is left as it was. *)
Theorem delJournalMatch_unknown_group_raises s mtch :
  mtch ∉ matches s ->
  delJournalMatch mtch s = (Raise (ValueError "Match not found"), s).
Proof.
  intros Hn. unfold delJournalMatch.
  erewrite bind_ok; [|reflexivity].
  destruct (decide (mtch ∈ matches s)); [contradiction | reflexivity].
Qed.

Lemma string_app_assoc (a b c : string) : (a +:+ b) +:+ c = a +:+ b +:+ c.
Proof.
  induction a as [|x a IH]; [reflexivity|].
  change (String x ((a +:+ b) +:+ c) = String x (a +:+ b +:+ c)).
  now rewrite IH.
Qed.

Lemma not_plus (t : string) : t ≠ "+" -> String.eqb t "+" = false.
Proof. intros H. now apply String.eqb_neq. Qed.

(** C9.  On a fresh filter, adding the tokens A, B, ["+"], C (three accepted
    tokens other than the sentinel) succeeds and the status string is
    ["A B + C"]; deleting the group [[A; B]] then succeeds and leaves the
    status string ["C"], the in-memory sequence [[[C]]], and a store that
    was flushed once and then received exactly the calls for the group
    [[C]]. *)
Theorem add_delete_status_rendering A B C s0 ret :
  fresh s0 ->
  valid A = true -> valid B = true -> valid C = true ->
  A ≠ "+" -> B ≠ "+" -> C ≠ "+" ->
  exists s1 s2,
    addJournalMatch [A; B; "+"; C] s0 = (Ok tt, s1) /\
    status ret s1
    = ret ++ [("Journal matches", [A +:+ " " +:+ B +:+ " + " +:+ C])] /\
    delJournalMatch [A; B] s1 = (Ok tt, s2) /\
    status ret s2 = ret ++ [("Journal matches", [C])] /\
    matches s2 = [[C]] /\
    j_filters (journal s2) = [JMatch C; JOr] /\
    j_flushes (journal s2) = S (j_flushes (journal s0)).
Proof.
  intros [Hm Hf] HA HB HC NA NB NC.
  assert (Hsplit : split_plus [] [A; B; "+"; C] = [[A; B]; [C]]).
  { cbn. rewrite (not_plus A NA), (not_plus B NB), (not_plus C NC).
    reflexivity. }
  assert (Hr : rejects [A; B; "+"; C] = false).
  { unfold rejects. cbn. rewrite HA, HB, HC.
    rewrite (not_plus A NA), (not_plus B NB), (not_plus C NC). reflexivity. }
  eexists. eexists.
  split; [apply addJournalMatch_accepted; exact Hr|].
  rewrite Hsplit, Hm.
  split.
  { unfold status. cbn. now rewrite string_app_assoc. }
  split.
  { apply delJournalMatch_found.
    - unfold accepted. cbn. now rewrite HA, HB, HC.
    - cbn. apply list_elem_of_here. }
  cbn. destruct (decide ([A; B] = [A; B])) as [_|N]; [|contradiction].
  cbn. repeat split; reflexivity.
Qed.

(** ** formatJournalEntry *)

Lemma pure_ret {A} (a : A) : pure (ret a).
Proof. intros s. reflexivity. Qed.

Lemma pure_raise {A} (e : exn) : pure (@raise A e).
Proof. intros s. reflexivity. Qed.

Lemma pure_bind {A B} (m : M A) (k : A -> M B) :
  pure m -> (forall a, pure (k a)) -> pure (bind m k).
Proof.
  intros Hm Hk s. unfold bind.
  specialize (Hm s). destruct (m s) as [[a|e|] s1]; cbn in Hm; subst s1.
  - apply Hk.
  - reflexivity.
  - reflexivity.
Qed.

Ltac pure_step :=
  first
    [ apply pure_ret
    | apply pure_raise
    | apply pure_bind; [|intros ?]
    | match goal with
      | |- pure (match ?x with _ => _ end) => destruct x
      end ].

Lemma pure_uni_decode v : pure (uni_decode v).
Proof. unfold uni_decode. repeat pure_step. Qed.

Lemma pure_host_element e : pure (host_element e).
Proof. unfold host_element. repeat (apply pure_uni_decode || pure_step). Qed.

Lemma pure_rendered_identifier e : pure (rendered_identifier e).
Proof.
  unfold rendered_identifier, format_pid.
  repeat (apply pure_uni_decode || pure_step).
Qed.

Lemma pure_kernel_stamp e : pure (kernel_stamp e).
Proof. unfold kernel_stamp, subscript0, total_seconds. repeat pure_step. Qed.

Lemma pure_message_element e : pure (message_element e).
Proof. unfold message_element. repeat (apply pure_uni_decode || pure_step). Qed.

Lemma pure_log_elements e : pure (log_elements e).
Proof.
  unfold log_elements.
  repeat (apply pure_host_element || apply pure_kernel_stamp
          || apply pure_rendered_identifier || apply pure_message_element
          || pure_step).
Qed.

Lemma pure_formatJournalEntry e : pure (formatJournalEntry e).
Proof.
  unfold formatJournalEntry. repeat (apply pure_log_elements || pure_step).
Qed.

(** The host element is decoded text, or the value is not text. *)
Lemma host_element_cases e s :
  (exists h, host_element e s = (Ok h, s))
  \/ host_element e s = (Raise TypeError, s).
Proof.
  unfold host_element.
  destruct (e !! "_HOSTNAME") as [v|]; [|left; eexists; reflexivity].
  destruct (truthy v); [|left; eexists; reflexivity].
  destruct v; cbn; (left; eexists; reflexivity) || (right; reflexivity).
Qed.

Lemma realtime_field_precedence e d :
  realtime_field e = Some (PDate d) <-> realtime_of e d.
Proof.
  unfold realtime_field, realtime_of. split.
  - destruct (e !! "_SOURCE_REALTIME_TIMESTAMP") as [v|]; intros H.
    + left. exact H.
    + right. now split.
  - intros [H|[H1 H2]]; [now rewrite H | now rewrite H1].
Qed.

Lemma bind_inv_ok {A B} (m : M A) (k : A -> M B) s b s' :
  bind m k s = (Ok b, s') ->
  exists a s1, m s = (Ok a, s1) /\ k a s1 = (Ok b, s').
Proof.
  unfold bind. destruct (m s) as [[a|e|] s1]; intros H; try discriminate.
  now exists a, s1.
Qed.

Lemma pure_state {A} (m : M A) s r s' : pure m -> m s = (r, s') -> s' = s.
Proof. intros Hp E. specialize (Hp s). now rewrite E in Hp. Qed.

Lemma epoch_stamp_eq d :
  (epoch_stamp d == inject_Z (dt_seconds d)
                    + inject_Z (dt_microsecond d) / inject_Z 1000000)%Q.
Proof. unfold epoch_stamp. now rewrite Qmake_Qdiv. Qed.


(** C10.  For an entry whose rendered identifier is ["kernel:"] and which
    has neither [_SOURCE_MONOTONIC_TIMESTAMP] nor [__MONOTONIC_TIMESTAMP],
    [formatJournalEntry] raises ([TypeError], from subscripting the absent
    store field) and returns no entry. *)
Theorem formatJournalEntry_kernel_without_monotonic_raises e s :
  rendered_identifier e s = (Ok (Some "kernel:"), s) ->
  e !! "_SOURCE_MONOTONIC_TIMESTAMP" = None ->
  e !! "__MONOTONIC_TIMESTAMP" = None ->
  formatJournalEntry e s = (Raise TypeError, s).
Proof.
  intros Hid H1 H2. unfold formatJournalEntry.
  apply bind_raise. unfold log_elements.
  destruct (host_element_cases e s) as [[h Hh]|Hh].
  - erewrite bind_ok; [|exact Hh].
    erewrite bind_ok; [|exact Hid].
    apply bind_raise. cbn [String.eqb Ascii.eqb Bool.eqb].
    apply bind_raise. unfold kernel_stamp. apply bind_raise.
    rewrite H1, H2. reflexivity.
  - now apply bind_raise.
Qed.

Lemma digit_is_digit n : is_digit (digit n) = true.
Proof.
  unfold digit.
  assert (H : 0 <= n mod 10 < 10) by (apply Z.mod_pos_bound; lia).
  assert (E : exists k, (k < 10)%nat /\ Z.to_nat (n mod 10) = k).
  { exists (Z.to_nat (n mod 10)). split; [lia | reflexivity]. }
  destruct E as [k [Hk ->]].
  do 10 (destruct k as [|k]; [reflexivity|]). lia.
Qed.

Lemma six_digits_shape f :
  String.length (six_digits f) = 6%nat /\
  all_chars is_digit (six_digits f) = true.
Proof.
  split; [reflexivity|].
  unfold six_digits. cbn [all_chars]. now rewrite !digit_is_digit.
Qed.

Lemma all_chars_spaces n : all_chars (Ascii.eqb " ") (spaces n) = true.
Proof. induction n as [|n IH]; [reflexivity | exact IH]. Qed.

(** The bracketed stamp: padding, sign and whole seconds, the point, six
    decimals. *)
Lemma format_monotonic_shape us :
  exists pad,
    format_monotonic us
    = "[" +:+ pad +:+ whole_seconds us +:+ "." +:+ micro_digits us +:+ "]" /\
    six_decimals pad us.
Proof.
  exists (spaces (12 - String.length (fixed6 us))). split.
  - unfold format_monotonic, pad_left, fixed6.
    now rewrite !string_app_assoc.
  - split; [apply all_chars_spaces | apply six_digits_shape].
Qed.

Lemma kernel_stamp_inv e s k s' :
  kernel_stamp e s = (Ok k, s') ->
  exists us, monotonic_of e us /\ k = format_monotonic us.
Proof.
  unfold kernel_stamp, monotonic_of. intros H.
  apply bind_inv_ok in H as (v & s1 & Hv & H).
  apply bind_inv_ok in H as (us & s2 & Hus & H).
  injection H as <- _. exists us. split; [|reflexivity].
  destruct v; try discriminate. injection Hus as -> _.
  destruct (e !! "_SOURCE_MONOTONIC_TIMESTAMP") as [v|].
  - left. now injection Hv as ->.
  - right. split; [reflexivity|].
    destruct (e !! "__MONOTONIC_TIMESTAMP") as [[x|x|[|x l]|x|x|x b]|];
      try discriminate.
    + now destruct x.
    + injection Hv as -> _. now exists b.
Qed.

Lemma concat_cons_nonempty sep (x : string) (l : list string) :
  l <> [] -> String.concat sep (x :: l) = x +:+ sep +:+ String.concat sep l.
Proof. destruct l; [contradiction | reflexivity]. Qed.

Lemma line_of_elements host (rest : list string) :
  rest <> [] ->
  String.concat " " (host ++ rest)
  = line_prefix host +:+ String.concat " " rest.
Proof.
  intros Hr. unfold line_prefix.
  induction host as [|h host IH]; [reflexivity|].
  cbn [app]. rewrite concat_cons_nonempty by (destruct host; [exact Hr|easy]).
  destruct host as [|h' host].
  - cbn [app String.concat]. rewrite string_app_assoc. reflexivity.
  - rewrite IH. rewrite (concat_cons_nonempty " " h (h' :: host)) by easy.
    rewrite !string_app_assoc. reflexivity.
Qed.

(** C7.  For an entry whose rendered identifier is ["kernel:"]: when its
    host and message elements render and it has a realtime [datetime] and
    a monotonic time, it is formatted, and whenever it is formatted, the
    line has, right after ["kernel:"] and a space, the monotonic time in
    brackets with six decimals, that time being the
    [_SOURCE_MONOTONIC_TIMESTAMP] field when the entry has it and the
    [timedelta] of [__MONOTONIC_TIMESTAMP] otherwise. *)
Theorem formatJournalEntry_kernel_monotonic_stamp e s :
  rendered_identifier e s = (Ok (Some "kernel:"), s) ->
  (forall host msg d us,
     host_element e s = (Ok host, s) ->
     message_element e s = (Ok msg, s) ->
     realtime_of e d -> monotonic_of e us ->
     exists pad,
       formatJournalEntry e s
       = (Ok (("", isoformat d, kernel_line host pad us msg),
              epoch_stamp d), s) /\
       six_decimals pad us) /\
  (forall x iso line stamp s',
     formatJournalEntry e s = (Ok ((x, iso, line), stamp), s') ->
     exists host msg us pad,
       monotonic_of e us /\
       line = kernel_line host pad us msg /\
       six_decimals pad us).
Proof.
  intros Hid. split.
  - intros host msg d us Hh Hmsg Hd Hmono.
    assert (Hk : kernel_stamp e s = (Ok (format_monotonic us), s)).
    { unfold kernel_stamp.
      destruct Hmono as [H|[H1 [b H2]]].
      - rewrite H. reflexivity.
      - rewrite H1, H2. reflexivity. }
    destruct (format_monotonic_shape us) as (pad & E & Hp).
    exists pad. split; [|exact Hp].
    apply realtime_field_precedence in Hd.
    unfold formatJournalEntry.
    erewrite bind_ok.
    2:{ unfold log_elements.
        erewrite bind_ok; [|exact Hh].
        erewrite bind_ok; [|exact Hid].
        cbn [String.eqb Ascii.eqb Bool.eqb].
        erewrite bind_ok; [|erewrite bind_ok; [reflexivity | exact Hk]].
        erewrite bind_ok; [|exact Hmsg].
        reflexivity. }
    rewrite Hd. unfold kernel_line.
    rewrite line_of_elements by easy. rewrite E. reflexivity.
  - intros x iso line stamp s' H. unfold formatJournalEntry in H.
    apply bind_inv_ok in H as (elems & s1 & He & H).
    destruct (realtime_field e) as [[| | |d| |]|]; try discriminate.
    injection H as _ _ <- _ _.
    unfold log_elements in He.
    apply bind_inv_ok in He as (host & sa & Hh & He).
    apply (pure_state _ _ _ _ (pure_host_element e)) in Hh as Hsa.
    subst sa. rewrite (bind_ok _ _ _ _ _ Hid) in He.
    cbn [String.eqb Ascii.eqb Bool.eqb] in He.
    apply bind_inv_ok in He as (idpart & sb & Hk & He).
    apply bind_inv_ok in Hk as (k & sc & Hk & Hr).
    injection Hr as <- _.
    apply bind_inv_ok in He as (msg & sd & Hmsg & He).
    injection He as <- _.
    destruct (kernel_stamp_inv _ _ _ _ Hk) as (us & Hmono & ->).
    destruct (format_monotonic_shape us) as (pad & E & Hp).
    exists host, msg, us, pad. split; [exact Hmono|]. split; [|exact Hp].
    unfold kernel_line.
    rewrite line_of_elements by easy. rewrite E. reflexivity.
Qed.

(** ** Rules of the program logic *)

Lemma hoare_ret_from {A} (a : A) (P : FilterSystemd -> Prop) Q E :
  (forall s, P s -> Q a s) -> hoare P (ret a) Q E.
Proof. intros H s HP. now apply H. Qed.

Lemma hoare_gets_from {A} (f : FilterSystemd -> A) (P : FilterSystemd -> Prop)
    Q E :
  (forall s, P s -> Q (f s) s) -> hoare P (gets f) Q E.
Proof. intros H s HP. now apply H. Qed.

Lemma hoare_modify_from f (P : FilterSystemd -> Prop) Q E :
  (forall s, P s -> Q tt (f s)) -> hoare P (modify f) Q E.
Proof. intros H s HP. now apply H. Qed.

Lemma hoare_bind {A B} (m : M A) (k : A -> M B) P R Q E :
  hoare P m R E -> (forall a, hoare (R a) (k a) Q E) ->
  hoare P (bind m k) Q E.
Proof.
  intros Hm Hk s HP. unfold bind. specialize (Hm s HP).
  destruct (m s) as [[a|e|] s1]; [exact (Hk a s1 Hm) | exact Hm | exact Hm].
Qed.

Lemma hoare_conseq {A} (m : M A) (P P' : FilterSystemd -> Prop) Q Q' E E' :
  hoare P m Q E ->
  (forall s, P' s -> P s) -> (forall a s, Q a s -> Q' a s) ->
  (forall s, E s -> E' s) ->
  hoare P' m Q' E'.
Proof.
  intros H HP HQ HE s HP'. specialize (H s (HP s HP')).
  destruct (m s) as [[a|e|] s1]; auto.
Qed.

Lemma hoare_try_except {A} (m : M A) catches h P Q E1 E :
  hoare P m Q E1 -> (forall e, hoare E1 (h e) Q E) ->
  (forall s, E1 s -> E s) ->
  hoare P (try_except m catches h) Q E.
Proof.
  intros Hm Hh HE s HP. unfold try_except. specialize (Hm s HP).
  destruct (m s) as [[a|e|] s1]; [exact Hm | | now apply HE].
  destruct (catches e); [exact (Hh e s1 Hm) | now apply HE].
Qed.

(** The loop rule: [I] holds at the head of each turn, [C] once the
    condition was found true, [R] when the loop is left. *)
Lemma hoare_while cond body (I C R E : FilterSystemd -> Prop) :
  hoare I cond (fun b s => if b : bool then C s else R s) E ->
  hoare C body (fun c s => match c with Next => I s | Break => R s end) E ->
  (forall s, I s -> E s) ->
  forall fuel, hoare I (while fuel cond body) (fun _ s => R s) E.
Proof.
  intros Hc Hb HIE fuel.
  induction fuel as [|fuel IH]; intros s HI; cbn [while].
  - now apply HIE.
  - unfold bind at 1. specialize (Hc s HI).
    destruct (cond s) as [[[|]|e|] s1]; try exact Hc.
    unfold bind. specialize (Hb s1 Hc).
    destruct (body s1) as [[[|]|e|] s2]; try exact Hb.
    exact (IH s2 Hb).
Qed.

Lemma hoare_while_active body (I C R E : FilterSystemd -> Prop) :
  hoare I read_active (fun b s => if b : bool then C s else R s) E ->
  hoare C body (fun c s => match c with Next => I s | Break => R s end) E ->
  (forall s, I s -> E s) ->
  hoare I (while_active body) (fun _ s => R s) E.
Proof.
  intros Hc Hb HIE s HI. unfold while_active.
  exact (hoare_while read_active body I C R E Hc Hb HIE _ s HI).
Qed.

(** ** Relations every step of a computation keeps *)

Section Steps.

Variable R : FilterSystemd -> FilterSystemd -> Prop.
Hypothesis R_refl : forall s, R s s.
Hypothesis R_trans : forall s1 s2 s3, R s1 s2 -> R s2 s3 -> R s1 s3.

Lemma steps_ret {A} (a : A) : steps R (ret a).
Proof. intros s. apply R_refl. Qed.

Lemma steps_gets {A} (f : FilterSystemd -> A) : steps R (gets f).
Proof. intros s. apply R_refl. Qed.

Lemma steps_bind {A B} (m : M A) (k : A -> M B) :
  steps R m -> (forall a, steps R (k a)) -> steps R (bind m k).
Proof.
  intros Hm Hk s. unfold bind. specialize (Hm s).
  destruct (m s) as [[a|e|] s1]; cbn in Hm; try exact Hm.
  exact (R_trans _ _ _ Hm (Hk a s1)).
Qed.

Lemma steps_try_except {A} (m : M A) catches h :
  steps R m -> (forall e, steps R (h e)) -> steps R (try_except m catches h).
Proof.
  intros Hm Hh s. unfold try_except. specialize (Hm s).
  destruct (m s) as [[a|e|] s1]; cbn in Hm; try exact Hm.
  destruct (catches e); [|exact Hm].
  exact (R_trans _ _ _ Hm (Hh e s1)).
Qed.

Lemma steps_while cond body :
  steps R cond -> steps R body -> forall fuel, steps R (while fuel cond body).
Proof.
  intros Hc Hb fuel. induction fuel as [|fuel IH]; cbn [while].
  - intros s. apply R_refl.
  - apply steps_bind; [exact Hc|]. intros [|]; [|apply steps_ret].
    apply steps_bind; [exact Hb|]. intros [|]; [exact IH|apply steps_ret].
Qed.

End Steps.

(** ** The events a computation adds *)

Lemma emitted_refl ok s : emitted ok s s.
Proof. now exists []. Qed.

Lemma emitted_trans ok s1 s2 s3 :
  emitted ok s1 s2 -> emitted ok s2 s3 -> emitted ok s1 s3.
Proof.
  intros [n1 [E1 F1]] [n2 [E2 F2]]. exists (n2 ++ n1).
  rewrite E2, E1, app_assoc. split; [reflexivity|].
  rewrite forallb_app. now rewrite F1, F2.
Qed.

Lemma emits_in_same {A} ok (m : M A) :
  (forall s, trace (snd (m s)) = trace s) -> emits_in ok m.
Proof. intros H s. exists []. now rewrite H. Qed.

Lemma emits_in_weaken {A} (ok ok' : event -> bool) (m : M A) :
  (forall e, ok e = true -> ok' e = true) -> emits_in ok m -> emits_in ok' m.
Proof.
  intros H Hm s. destruct (Hm s) as [new [E F]]. exists new. split; [exact E|].
  rewrite forallb_forall in *. auto.
Qed.

(** A property of traces that survives the events of [m] survives [m]. *)
Lemma hoare_emits {A} ok (m : M A) (K : list event -> Prop) :
  emits_in ok m -> trace_stable K ok ->
  hoare (fun s => K (trace s)) m
    (fun _ s => K (trace s)) (fun s => K (trace s)).
Proof.
  intros Hm HK s HP. destruct (Hm s) as [new [E F]].
  assert (H : K (trace (snd (m s)))).
  { rewrite E. clear E. induction new as [|e new IH]; [exact HP|].
    cbn in F. apply andb_prop in F as [Fe Fn]. cbn. apply HK; auto. }
  destruct (m s) as [[a|e|] s1]; exact H.
Qed.

Lemma added_eq {A} (m : M A) s new :
  trace (snd (m s)) = new ++ trace s -> added m s = new.
Proof.
  intros E. unfold added. rewrite E, length_app.
  replace (length new + length (trace s) - length (trace s))%nat
    with (length new) by lia.
  now rewrite take_app_length.
Qed.

Lemma active_le_refl s : active_le s s.
Proof. unfold active_le. lia. Qed.

Lemma active_le_trans s1 s2 s3 :
  active_le s1 s2 -> active_le s2 s3 -> active_le s1 s3.
Proof. unfold active_le. lia. Qed.

(** ** Loops that do not use up their fuel *)

Lemma total_bind {A B} (m : M A) (k : A -> M B) :
  total m -> (forall a, total (k a)) -> total (bind m k).
Proof.
  intros Hm Hk s. unfold bind. specialize (Hm s).
  destruct (m s) as [[a|e|] s1]; cbn in *; [apply Hk | easy | easy].
Qed.

Lemma total_try_except {A} (m : M A) catches h :
  total m -> (forall e, total (h e)) -> total (try_except m catches h).
Proof.
  intros Hm Hh s. unfold try_except. specialize (Hm s).
  destruct (m s) as [[a|e|] s1]; cbn in *; [easy | | easy].
  destruct (catches e); [apply Hh | easy].
Qed.

(** A [while self.active] loop whose body is total and does not put
    values back in front of the flag ends within its fuel. *)
Lemma while_active_fuel body :
  total body -> steps active_le body ->
  forall fuel s, (length (active s) < fuel)%nat ->
    fst (while fuel read_active body s) <> OutOfFuel.
Proof.
  intros Ht Hs fuel. induction fuel as [|fuel IH]; intros s Hlt; [lia|].
  cbn [while]. unfold bind at 1. unfold read_active.
  destruct (active s) as [|b rest] eqn:Ea; [cbn; easy|].
  destruct b; [|cbn; easy].
  unfold bind. set (s1 := emit (EvActive true) (set_active rest s)).
  specialize (Ht s1). specialize (Hs s1). unfold active_le in Hs.
  destruct (body s1) as [[[|]|e|] s2]; cbn in *; try easy.
  apply IH. lia.
Qed.

Lemma total_while_active body :
  total body -> steps active_le body -> total (while_active body).
Proof.
  intros Ht Hs s. unfold while_active. apply while_active_fuel; auto.
Qed.
(** ** The startup seek *)

Lemma start_time_defined_eq s :
  start_time_defined s
  = (Z.abs (findtime s / 86400) <=? 999999999)
    && ((datetime_min <=? start_wall s) && (start_wall s <=? datetime_max)).
Proof. reflexivity. Qed.

Lemma startup_unfold s :
  start_time_defined s = true ->
  startup s
  = try_except (get_previous ;; ret tt) is_OSError (fun _ => ret tt)
      (seeked s).
Proof.
  rewrite start_time_defined_eq. intros H.
  apply andb_prop in H as [Hd Hw].
  unfold startup, getJournalMatch, seeked, noticed, start_time, start_wall
    in *.
  erewrite bind_ok; [|reflexivity].
  destruct (is_nonempty (matches s));
    (erewrite bind_ok; [|reflexivity]);
    (erewrite bind_ok; [|reflexivity]);
    (erewrite bind_ok; [|reflexivity]);
    cbn [now findtime emit];
    (erewrite bind_ok; [|unfold timedelta; rewrite Hd; reflexivity]);
    (erewrite bind_ok;
       [|unfold minus_seconds; cbn [now emit]; rewrite Hw; reflexivity]);
    reflexivity.
Qed.

(** A start time out of range: the [OverflowError] leaves [startup] after
    the notice, before any call to the store. *)
Lemma startup_overflow s :
  start_time_defined s = false ->
  startup s = (Raise OverflowError, noticed s).
Proof.
  rewrite start_time_defined_eq. intros H.
  unfold startup, getJournalMatch, noticed, start_wall in *.
  erewrite bind_ok; [|reflexivity].
  destruct (is_nonempty (matches s));
    (erewrite bind_ok; [|reflexivity]);
    (erewrite bind_ok; [|reflexivity]);
    (erewrite bind_ok; [|reflexivity]);
    cbn [now findtime emit];
    (destruct (Z.abs (findtime s / 86400) <=? 999999999) eqn:Hd;
     [|apply bind_raise; unfold timedelta; rewrite Hd; reflexivity]);
    (erewrite bind_ok; [|unfold timedelta; rewrite Hd; reflexivity]);
    cbn [andb] in H;
    apply bind_raise; unfold minus_seconds; cbn [now emit];
    rewrite H; reflexivity.
Qed.

Lemma first_at_or_after_spec t rs :
  (rs !! first_at_or_after t rs = None /\ Forall (fun x => fst x < t) rs)
  \/ (exists r, rs !! first_at_or_after t rs = Some r /\ first_from t rs r).
Proof.
  induction rs as [|x rs IH]; cbn [first_at_or_after].
  - left. split; [reflexivity | constructor].
  - destruct (t <=? fst x) eqn:E.
    + right. exists x. split; [reflexivity|].
      exists [], rs. repeat split; [constructor | lia].
    + destruct IH as [[Hn Hall]|[r [Hr (pre & post & E1 & Hpre & Hle)]]].
      * left. split; [exact Hn|]. constructor; [lia | exact Hall].
      * right. exists r. split; [exact Hr|].
        exists (x :: pre), post. repeat split.
        -- now rewrite E1.
        -- constructor; [lia | exact Hpre].
        -- exact Hle.
Qed.

Lemma first_at_or_after_le t rs :
  (first_at_or_after t rs <= length rs)%nat.
Proof.
  induction rs as [|x rs IH]; cbn [first_at_or_after length]; [lia|].
  destruct (t <=? fst x); lia.
Qed.

Lemma startup_never_raises s :
  start_time_defined s = true -> fst (startup s) = Ok tt.
Proof.
  intros Hd. rewrite startup_unfold by exact Hd.
  unfold try_except, bind, get_previous.
  destruct (take_fault (journal (seeked s))) as [[|] j]; [reflexivity|].
  destruct (previous_index j) as [i|]; [|reflexivity].
  destruct (j_records j !! i); reflexivity.
Qed.

Lemma startup_total s : fst (startup s) <> OutOfFuel.
Proof.
  destruct (start_time_defined s) eqn:Hd.
  - now rewrite startup_never_raises.
  - now rewrite startup_overflow.
Qed.

(** After the startup, when the step back did not fault, the cursor is on
    the last record before the seek time (at the seek time when there is
    none) and a forward read starts at the first record at or after it. *)
Lemma startup_position s :
  start_time_defined s = true ->
  hd false (j_faults (journal s)) = false ->
  exists s1,
    startup s = (Ok tt, s1) /\
    j_records (journal s1) = j_records (journal s) /\
    j_faults (journal s1) = tl (j_faults (journal s)) /\
    j_loc (journal s1)
    = stepped_back (stamp_usec (start_time s)) (j_records (journal s)) /\
    next_index (journal s1)
    = first_at_or_after (stamp_usec (start_time s)) (j_records (journal s)).
Proof.
  intros Hd Hf. rewrite startup_unfold by exact Hd.
  unfold try_except, bind, get_previous.
  assert (Hj : exists j,
    take_fault (journal (seeked s)) = (false, j) /\
    j_records j = j_records (journal s) /\
    j_faults j = tl (j_faults (journal s)) /\
    j_loc j = LocSeek (stamp_usec (start_time s))).
  { unfold take_fault, seeked, noticed.
    destruct s as [[f n rs l inc fl] ms md tk ac idl ft nw fm jl tr].
    cbn in *. destruct (is_nonempty ms); cbn;
      (destruct fl as [|b fl]; cbn in *;
       [eexists; repeat split | subst b; eexists; repeat split]). }
  destruct Hj as (j & -> & Hrec & Hfl & Hloc).
  unfold previous_index, stepped_back. rewrite Hloc, Hrec.
  set (t := stamp_usec (start_time s)) in *.
  pose proof (first_at_or_after_le t (j_records (journal s))) as Hle.
  destruct (first_at_or_after t (j_records (journal s))) as [|i] eqn:Ep.
  - eexists. split; [reflexivity|]. cbn.
    unfold next_index. rewrite Hloc, Hrec, Ep. now repeat split.
  - destruct (lookup_lt_is_Some_2 (j_records (journal s)) i) as [r Er];
      [lia|].
    rewrite Er. eexists. split; [reflexivity|]. cbn.
    unfold next_index. cbn. now repeat split.
Qed.

(** A fault at the step back is swallowed: the cursor stays at the seek
    time. *)
Lemma startup_fault s :
  start_time_defined s = true ->
  hd false (j_faults (journal s)) = true ->
  exists s1,
    startup s = (Ok tt, s1) /\
    j_loc (journal s1) = LocSeek (stamp_usec (start_time s)) /\
    j_faults (journal s1) = tl (j_faults (journal s)) /\
    j_records (journal s1) = j_records (journal s).
Proof.
  intros Hd Hf. rewrite startup_unfold by exact Hd.
  unfold try_except, bind, get_previous.
  assert (Hj : exists j,
    take_fault (journal (seeked s)) = (true, j) /\
    j_records j = j_records (journal s) /\
    j_faults j = tl (j_faults (journal s)) /\
    j_loc j = LocSeek (stamp_usec (start_time s))).
  { unfold take_fault, seeked, noticed.
    destruct s as [[f n rs l inc fl] ms md tk ac idl ft nw fm jl tr].
    cbn in *. destruct (is_nonempty ms); cbn;
      (destruct fl as [|b fl]; cbn in *;
       [discriminate | subst b; eexists; repeat split]). }
  destruct Hj as (j & -> & Hrec & Hfl & Hloc).
  eexists. split; [reflexivity|]. cbn. now repeat split.
Qed.

Lemma get_next_no_fault s :
  hd false (j_faults (journal s)) = false ->
  fst (get_next s)
  = Ok (match j_records (journal s) !! next_index (journal s) with
        | Some r => snd r
        | None => ∅
        end).
Proof.
  intros Hf. unfold get_next.
  assert (Hj : exists j,
    take_fault (journal s) = (false, j) /\
    j_records j = j_records (journal s) /\
    next_index j = next_index (journal s)).
  { unfold take_fault. destruct (journal s) as [f n rs l inc fl].
    cbn in *. destruct fl as [|b fl]; cbn in *;
      [eexists; repeat split | subst b; eexists; repeat split]. }
  destruct Hj as (j & -> & Hrec & Hidx).
  rewrite Hrec, Hidx.
  destruct (j_records (journal s) !! next_index (journal s)); reflexivity.
Qed.

Lemma sorted_after (l1 : list Z) x l2 :
  StronglySorted Z.le (l1 ++ x :: l2) -> Forall (Z.le x) l2.
Proof.
  induction l1 as [|y l1 IH]; cbn; intros H;
    apply StronglySorted_inv in H as [H1 H2]; [exact H2 | now apply IH].
Qed.


(** ** The ticket loop *)

Lemma ticket_turn_empty s :
  failManager s = [] -> ticket_turn s = (Raise FailManagerEmpty, s).
Proof. intros H. unfold ticket_turn, bind, toBan. now rewrite H. Qed.

Lemma ticket_turn_cons s t q :
  failManager s = t :: q ->
  ticket_turn s
  = (Ok Next, emit (EvBan t) (set_jail (jail s ++ [t]) (set_failManager q s))).
Proof. intros H. unfold ticket_turn, bind, toBan. now rewrite H. Qed.

Lemma ticket_loop_runs q : forall fuel s,
  failManager s = q -> (length q < fuel)%nat ->
  while fuel (ret true) ticket_turn s
  = (Raise FailManagerEmpty, forward_all q s).
Proof.
  induction q as [|t q IH]; intros fuel s Hq Hlt;
    (destruct fuel as [|fuel]; [cbn in Hlt; lia|]); cbn [while].
  - erewrite bind_ok; [|reflexivity].
    apply bind_raise. now apply ticket_turn_empty.
  - erewrite bind_ok; [|reflexivity]. cbv beta iota.
    erewrite bind_ok; [|apply (ticket_turn_cons s t q Hq)].
    cbn [forward_all]. rewrite Hq. cbn [tl].
    apply IH; [reflexivity | cbn in Hlt; lia].
Qed.

Lemma forward_tickets_eq s :
  forward_tickets s
  = (Ok tt, emit EvCleanup (forward_all (failManager s) s)).
Proof.
  unfold forward_tickets, try_except.
  rewrite (ticket_loop_runs (failManager s)); [reflexivity..|lia].
Qed.

Lemma forward_all_fields q : forall s,
  failManager s = q ->
  failManager (forward_all q s) = [] /\
  jail (forward_all q s) = jail s ++ q /\
  trace (forward_all q s) = rev (map EvBan q) ++ trace s /\
  active (forward_all q s) = active s /\
  modified (forward_all q s) = modified s /\
  journal (forward_all q s) = journal s.
Proof.
  induction q as [|t q IH]; intros s Hq; cbn [forward_all].
  - rewrite app_nil_r. now repeat split.
  - destruct (IH (emit (EvBan t)
                    (set_jail (jail s ++ [t])
                       (set_failManager (tl (failManager s)) s))))
      as (H1 & H2 & H3 & H4 & H5 & H6).
    { cbn. now rewrite Hq. }
    rewrite H1, H2, H3, H4, H5, H6. cbn.
    rewrite <- !app_assoc. now repeat split.
Qed.

(** ** One turn of the drain *)

Lemma total_ret {A} (a : A) : total (ret a).
Proof. intros s. easy. Qed.

Lemma total_raise {A} e : total (@raise A e).
Proof. intros s. easy. Qed.

Ltac total_step :=
  first
    [ apply total_ret
    | apply total_raise
    | apply total_bind; [|intros ?]
    | match goal with
      | |- total (match ?x with _ => _ end) => destruct x
      end ].

Lemma total_formatJournalEntry e : total (formatJournalEntry e).
Proof.
  unfold formatJournalEntry, log_elements, host_element, rendered_identifier,
    kernel_stamp, message_element, uni_decode, format_pid, subscript0,
    total_seconds.
  repeat total_step.
Qed.

Lemma get_next_eq s :
  exists r j,
    get_next s = (r, set_journal (fun _ => j) s) /\ r <> OutOfFuel /\
    (forall x, r = Raise x -> x = OSError).
Proof.
  unfold get_next. destruct (take_fault (journal s)) as [[|] j].
  - eexists. exists j. split; [reflexivity|]. split; [easy|].
    intros x H. now injection H as <-.
  - destruct (j_records j !! next_index j).
    + eexists. eexists. split; [reflexivity|]. split; easy.
    + eexists. eexists. split; [reflexivity|]. split; easy.
Qed.

Lemma guarded_get_next_eq s :
  exists r j,
    try_except (e <- get_next ;; ret (Some e)) is_OSError
      (fun _ => ret None) s
    = (Ok r, set_journal (fun _ => j) s).
Proof.
  unfold try_except, bind.
  destruct (get_next_eq s) as (r & j & E & Hr & Hx). rewrite E.
  destruct r as [e|x|]; [| |easy].
  - exists (Some e), j. reflexivity.
  - rewrite (Hx x eq_refl). exists None, j. reflexivity.
Qed.

Lemma read_entry_eq s :
  exists r j,
    read_entry s
    = (Ok r, emit (EvRead (outcome_of r)) (set_journal (fun _ => j) s)).
Proof.
  destruct (guarded_get_next_eq s) as (r & j & E).
  exists r, j. unfold read_entry.
  erewrite bind_ok; [|exact E]. reflexivity.
Qed.

(** The three ways a turn of the drain can go: nothing to process; an
    entry whose formatting raises; an entry processed and counted. *)
Lemma drain_body_cases s :
  exists r j,
    let s2 := set_ticks (ticks s + 1)
                (emit (EvRead (outcome_of r)) (set_journal (fun _ => j) s)) in
    (outcome_of r <> GotEntry /\ drain_body s = (Ok Break, s2))
    \/ (outcome_of r = GotEntry /\ exists x, drain_body s = (Raise x, s2))
    \/ (outcome_of r = GotEntry /\
        exists line stamp,
          drain_body s
          = (Ok (if 100 <=? modified s + 1 then Break else Next),
             set_modified (modified s + 1)
               (emit (EvProcess line stamp)
                  (set_failManager (failManager s ++ detect line stamp)
                     s2)))).
Proof.
  destruct (read_entry_eq s) as (r & j & E).
  exists r, j. cbv zeta. unfold drain_body.
  erewrite bind_ok; [|exact E].
  erewrite bind_ok; [|reflexivity].
  destruct r as [e|]; [|left; split; [easy | reflexivity]].
  unfold outcome_of.
  destruct (decide (e = ∅)); [left; split; [easy | reflexivity]|].
  right. cbn [ticks emit set_journal].
  set (s2 := set_ticks _ _).
  pose proof (pure_formatJournalEntry e s2) as Hp.
  pose proof (total_formatJournalEntry e s2) as Ht.
  destruct (formatJournalEntry e s2) as [[[line stamp]|x|] s3] eqn:Ef;
    cbn in Hp, Ht; subst s3; [| |easy].
  - right. split; [reflexivity|]. exists line, stamp.
    erewrite bind_ok; [|exact Ef].
    unfold bind, processLineAndAdd, modify, gets. subst s2. cbn.
    destruct (100 <=? modified s + 1); reflexivity.
  - left. split; [reflexivity|]. exists x. now apply bind_raise.
Qed.

Lemma count_cons p e tr :
  count p (e :: tr) = if p e then S (count p tr) else count p tr.
Proof. unfold count. cbn. now destruct (p e). Qed.

Lemma total_drain_body : total drain_body.
Proof.
  intros s. destruct (drain_body_cases s) as (r & j & H). cbv zeta in H.
  destruct H as [[_ ->]|[[_ [x ->]]|[_ (l & st & ->)]]]; easy.
Qed.

Lemma drain_body_active s : active (snd (drain_body s)) = active s.
Proof.
  destruct (drain_body_cases s) as (r & j & H). cbv zeta in H.
  destruct H as [[_ ->]|[[_ [x ->]]|[_ (l & st & ->)]]]; reflexivity.
Qed.

Lemma emits_drain_body :
  emits_in (fun e => is_read e || is_process e) drain_body.
Proof.
  intros s. destruct (drain_body_cases s) as (r & j & H). cbv zeta in H.
  destruct H as [[_ ->]|[[_ [x ->]]|[_ (l & st & ->)]]]; cbn.
  - now exists [EvRead (outcome_of r)].
  - now exists [EvRead (outcome_of r)].
  - now exists [EvProcess l st; EvRead (outcome_of r)].
Qed.

(** A turn of the drain started below the cap: it leaves the loop on a
    read without entry, or with the counter at 100, and goes on below the
    cap otherwise; the counter follows the entries processed. *)
Ltac counted_with l Etr :=
  exists l; split;
  [ cbn; now rewrite Etr
  | rewrite ?count_cons; cbn -[count Z.of_nat]; lia ].

Lemma drain_body_counts s0 :
  hoare (fun s => counted s0 s /\ 0 <= modified s < 100)
    drain_body
    (fun c s => match c with
                | Next => counted s0 s /\ 0 <= modified s < 100
                | Break => counted s0 s /\ 0 <= modified s <= 100
                           /\ drain_stop s
                end)
    (fun s => counted s0 s /\ 0 <= modified s <= 100).
Proof.
  intros s [(new & Etr & Hc) Hm].
  destruct (drain_body_cases s) as (r & j & H). cbv zeta in H.
  destruct H as [[Hr ->]|[[Hr [x ->]]|[Hr (l & st & ->)]]].
  - split; [|split; [cbn; lia|]].
    + counted_with (EvRead (outcome_of r) :: new) Etr.
    + unfold drain_stop. cbn. now destruct (outcome_of r).
  - split; [|cbn; lia].
    counted_with (EvRead (outcome_of r) :: new) Etr.
  - assert (Hcnt : counted s0
      (set_modified (modified s + 1)
         (emit (EvProcess l st)
            (set_failManager (failManager s ++ detect l st)
               (set_ticks (ticks s + 1)
                  (emit (EvRead (outcome_of r))
                     (set_journal (fun _ => j) s))))))).
    { counted_with (EvProcess l st :: EvRead (outcome_of r) :: new) Etr. }
    destruct (100 <=? modified s + 1) eqn:E100.
    + apply Z.leb_le in E100.
      split; [exact Hcnt|]. split; [cbn; lia|].
      unfold drain_stop. cbn. lia.
    + apply Z.leb_gt in E100. split; [exact Hcnt | cbn; lia].
Qed.

Lemma read_active_counts s0 :
  hoare (fun s => counted s0 s /\ 0 <= modified s < 100)
    read_active
    (fun b s => if b : bool
                then counted s0 s /\ 0 <= modified s < 100
                else counted s0 s /\ 0 <= modified s <= 100 /\ drain_stop s)
    (fun s => counted s0 s /\ 0 <= modified s <= 100).
Proof.
  intros s [(new & Etr & Hc) Hm]. unfold read_active.
  destruct (active s) as [|[|] rest].
  - split; [|split; [cbn; lia | exact I]].
    counted_with (EvActive false :: new) Etr.
  - split; [|cbn; lia].
    counted_with (EvActive true :: new) Etr.
  - split; [|split; [cbn; lia | exact I]].
    counted_with (EvActive false :: new) Etr.
Qed.

Lemma drain_counts s0 :
  match drain s0 with
  | (Ok _, s) => counted s0 s /\ 0 <= modified s <= 100 /\ drain_stop s
  | (_, s) => counted s0 s /\ 0 <= modified s <= 100
  end.
Proof.
  unfold drain, bind, modify.
  pose proof (hoare_while_active drain_body _ _ _ _
                (read_active_counts s0) (drain_body_counts s0)) as H.
  specialize (H (fun s Hs => conj (proj1 Hs)
                   (conj (proj1 (proj2 Hs)) (Z.lt_le_incl _ _ (proj2 (proj2 Hs)))))).
  specialize (H (set_modified 0 s0)).
  destruct (while_active drain_body (set_modified 0 s0)) as [[[]|e|] s];
    apply H; (split; [now exists [] | cbn; lia]).
Qed.

Lemma read_active_active_le : steps active_le read_active.
Proof.
  intros s. unfold read_active, active_le.
  destruct (active s) as [|b rest] eqn:E; cbn; rewrite ?E; cbn; lia.
Qed.

Lemma total_drain : total drain.
Proof.
  unfold drain. apply total_bind; [intros s; easy|]. intros _.
  apply total_while_active; [apply total_drain_body|].
  intros s. unfold active_le. rewrite drain_body_active. lia.
Qed.

Lemma read_active_eq s :
  read_active s = (Ok (hd false (active s)), polled_state s).
Proof.
  unfold read_active, polled_state.
  destruct s as [? ? ? ? [|b rest] ? ? ? ? ? ?]; reflexivity.
Qed.

Lemma emits_any_read_active : emits_in any_event read_active.
Proof. intros s. rewrite read_active_eq. now exists [EvActive (hd false (active s))]. Qed.

Lemma emits_any_drain_body : emits_in any_event drain_body.
Proof. eapply emits_in_weaken; [|apply emits_drain_body]. easy. Qed.

(** A drain starts with a read of the flag, and reads nothing from the
    journal when the flag is cleared. *)
Lemma drain_polls_first s :
  exists rest,
    trace (snd (drain s))
    = rest ++ EvActive (hd false (active s)) :: trace s /\
    (hd false (active s) = false ->
     drain s = (Ok tt, polled_state (set_modified 0 s))).
Proof.
  unfold drain. erewrite bind_ok; [|reflexivity].
  unfold while_active. cbn [while].
  erewrite bind_ok; [|apply read_active_eq].
  change (active (set_modified 0 s)) with (active s).
  destruct (hd false (active s)) eqn:Eb.
  - pose proof (steps_bind (emitted any_event) (emitted_trans any_event)
                  drain_body
                  (fun c => match c with
                            | Next => while (length (active s)) read_active
                                        drain_body
                            | Break => ret tt
                            end)) as H.
    destruct (H emits_any_drain_body) with (s := polled_state (set_modified 0 s))
      as [new [E _]].
    { intros [|]; [|apply steps_ret, emitted_refl].
      apply steps_while;
        [apply emitted_refl | apply emitted_trans
        | apply emits_any_read_active | apply emits_any_drain_body]. }
    exists new. split; [|discriminate].
    rewrite E. unfold polled_state. cbn. now rewrite Eb.
  - exists []. split; [|reflexivity].
    unfold polled_state. cbn. now rewrite Eb.
Qed.

(** C4 (amended).  The drain of a wait cycle never fails to end; the
    entries it processes are as many as the per-cycle counter says, and at
    most 100, whatever the journal still holds; when it ends normally it
    stopped with the counter at 100, on a read that yielded no entry, or
    on a read of the [active] flag that found it cleared; a turn ends the
    loop exactly when its read yielded no entry or the counter reached
    100; and the drain begins with a read of the [active] flag, reading
    nothing from the journal when the flag is cleared. *)
Theorem drain_stops_at_batch_cap s :
  fst (drain s) <> OutOfFuel /\
  (exists new,
     trace (snd (drain s)) = new ++ trace s /\
     Z.of_nat (count is_process new) = modified (snd (drain s)) /\
     (count is_process new <= 100)%nat) /\
  (fst (drain s) = Ok tt -> drain_stop (snd (drain s))) /\
  (forall s1 c s2,
     drain_body s1 = (Ok c, s2) ->
     (c = Break <-> no_entry_read s2 \/ 100 <= modified s2)) /\
  (exists rest,
     trace (snd (drain s))
     = rest ++ EvActive (hd false (active s)) :: trace s /\
     (hd false (active s) = false ->
      drain s = (Ok tt, polled_state (set_modified 0 s)))).
Proof.
  split; [apply total_drain|].
  pose proof (drain_counts s) as H.
  split; [|split; [|split; [|apply drain_polls_first]]].
  - destruct (drain s) as [[[]|e|] s'];
      [destruct H as [[new [E Hc]] [Hm _]] | destruct H as [[new [E Hc]] Hm]
      | destruct H as [[new [E Hc]] Hm]];
      exists new; cbn [snd]; (split; [exact E | split; [exact Hc | lia]]).
  - destruct (drain s) as [[[]|e|] s']; cbn; intros Hok;
      [apply H | discriminate | discriminate].
  - intros s1 c s2 Hb.
    destruct (drain_body_cases s1) as (r & j & Hcase). cbv zeta in Hcase.
    destruct Hcase as [[Hr E]|[[Hr [x E]]|[Hr (l & st & E)]]];
      rewrite E in Hb; [| discriminate |].
    + injection Hb as <- <-. split; [intros _|reflexivity].
      left. unfold no_entry_read. cbn. now destruct (outcome_of r).
    + injection Hb as <- <-. unfold no_entry_read. cbn.
      destruct (100 <=? modified s1 + 1) eqn:E100.
      * apply Z.leb_le in E100. split; [now right | reflexivity].
      * apply Z.leb_gt in E100. split; [discriminate|].
        intros [[]|Hge]; lia.
Qed.

(** ** Where the loop reads the [active] flag *)

Lemma polled_stable ok :
  (forall e, ok e = true -> is_wait e || is_read e = false) ->
  trace_stable (fun tr => polled tr = true) ok.
Proof.
  intros H e tr He Hp. cbn [polled]. now rewrite (H e He), Hp.
Qed.

Lemma latency_stable n ok :
  (forall e, ok e = true -> is_wait e || is_sleep e || is_process e = false) ->
  trace_stable (latency n) ok.
Proof.
  intros H e tr He (Hw & Hs & Hp). specialize (H e He). unfold latency.
  destruct e as [|[|]| | | | | |]; cbn [since_set]; try discriminate;
    rewrite ?count_cons; cbn; repeat split; lia.
Qed.

Lemma latency_weaken n m tr : (n <= m)%nat -> latency n tr -> latency m tr.
Proof. unfold latency. lia. Qed.

Lemma emits_quiet_startup : emits_in is_quiet startup.
Proof.
  intros s.
  assert (Hn : emitted is_quiet s (noticed s)).
  { unfold noticed. destruct (is_nonempty (matches s));
      [now exists [] | now exists [EvNotice]]. }
  destruct (start_time_defined s) eqn:Hd;
    [|now rewrite startup_overflow].
  rewrite startup_unfold by exact Hd.
  unfold try_except, bind, get_previous.
  assert (Hs : emitted is_quiet s (seeked s)) by exact Hn.
  destruct (take_fault (journal (seeked s))) as [[|] j]; [exact Hs|].
  destruct (previous_index j) as [i|]; [|exact Hs].
  destruct (j_records j !! i); exact Hs.
Qed.

Lemma emits_quiet_forward_tickets : emits_in is_quiet forward_tickets.
Proof.
  intros s. rewrite forward_tickets_eq. cbn [snd].
  destruct (forward_all_fields (failManager s) s eq_refl)
    as (_ & _ & Htr & _).
  exists (EvCleanup :: rev (map EvBan (failManager s))). cbn.
  rewrite Htr. split; [reflexivity|].
  apply forallb_forall. intros e He. apply in_rev in He.
  apply in_map_iff in He as [t [<- _]]. reflexivity.
Qed.

Lemma emits_quiet_read_idle : emits_in is_quiet read_idle.
Proof.
  apply emits_in_same. intros s. unfold read_idle.
  now destruct (idle s).
Qed.

Lemma quiet_not_wait_read e :
  is_quiet e = true -> is_wait e || is_read e = false.
Proof. now destruct e. Qed.

Lemma quiet_not_wait_process e :
  is_quiet e = true -> is_wait e || is_sleep e || is_process e = false.
Proof. now destruct e. Qed.

(** *** Every wait and every read follows a read of the flag *)

Lemma read_active_polled :
  hoare (fun s => polled (trace s) = true) read_active
    (fun b s => if b : bool
                then polled (trace s) = true /\ just_set s
                else polled (trace s) = true)
    (fun s => polled (trace s) = true).
Proof.
  intros s Hp. rewrite read_active_eq. unfold polled_state, just_set.
  destruct (hd false (active s)); cbn.
  - split; [now rewrite Hp | eexists; reflexivity].
  - now rewrite Hp.
Qed.

Lemma drain_body_polled :
  hoare (fun s => polled (trace s) = true /\ just_set s) drain_body
    (fun c s => match c with
                | Next => polled (trace s) = true
                | Break => polled (trace s) = true
                end)
    (fun s => polled (trace s) = true).
Proof.
  intros s [Hp [rest Hr]].
  destruct (drain_body_cases s) as (r & j & H). cbv zeta in H.
  destruct H as [[_ ->]|[[_ [x ->]]|[_ (l & st & ->)]]];
    try destruct (100 <=? modified s + 1); cbn; rewrite Hr in *;
    cbn in *; now rewrite Hp.
Qed.

Lemma drain_polled :
  hoare (fun s => polled (trace s) = true) drain
    (fun _ s => polled (trace s) = true)
    (fun s => polled (trace s) = true).
Proof.
  unfold drain. eapply hoare_bind.
  - apply hoare_modify_from with (Q := fun _ s => polled (trace s) = true).
    auto.
  - intros ?. apply hoare_while_active
      with (C := fun s => polled (trace s) = true /\ just_set s).
    + apply read_active_polled.
    + eapply hoare_conseq; [apply drain_body_polled | auto | | auto].
      intros [|] s H; exact H.
    + auto.
Qed.

Lemma wait_cycle_polled :
  hoare (fun s => polled (trace s) = true /\ just_set s) wait_cycle
    (fun _ s => polled (trace s) = true)
    (fun s => polled (trace s) = true).
Proof.
  unfold wait_cycle.
  apply hoare_bind with (R := fun _ s => polled (trace s) = true).
  { intros s [Hp [rest Hr]]. cbn. rewrite Hr in *. cbn in *.
    now rewrite Hp. }
  intros ?.
  apply hoare_bind with (R := fun _ s => polled (trace s) = true).
  { apply (hoare_emits is_quiet read_idle (fun tr => polled tr = true));
      [apply emits_quiet_read_idle | apply polled_stable, quiet_not_wait_read]. }
  intros [|].
  - apply hoare_bind with (R := fun _ s => polled (trace s) = true).
    + intros s Hp. cbn. now rewrite Hp.
    + intros ?. apply hoare_ret_from. auto.
  - apply hoare_bind with (R := fun _ s => polled (trace s) = true);
      [apply drain_polled|]. intros ?.
    apply hoare_bind
      with (R := fun m s => polled (trace s) = true);
      [apply hoare_gets_from; auto|].
    intros m.
    apply hoare_bind with (R := fun _ s => polled (trace s) = true);
      [|intros ?; apply hoare_ret_from; auto].
    destruct (m =? 0); [apply hoare_ret_from; auto|].
    apply (hoare_emits is_quiet forward_tickets (fun tr => polled tr = true));
      [apply emits_quiet_forward_tickets
      | apply polled_stable, quiet_not_wait_read].
Qed.

Lemma run_polled :
  hoare (fun s => polled (trace s) = true) run
    (fun _ s => polled (trace s) = true)
    (fun s => polled (trace s) = true).
Proof.
  unfold run.
  apply hoare_bind with (R := fun _ s => polled (trace s) = true).
  { apply (hoare_emits is_quiet startup (fun tr => polled tr = true));
      [apply emits_quiet_startup | apply polled_stable, quiet_not_wait_read]. }
  intros ?.
  apply hoare_bind with (R := fun _ s => polled (trace s) = true);
    [|intros ?; apply hoare_ret_from; auto].
  apply hoare_while_active
    with (C := fun s => polled (trace s) = true /\ just_set s).
  - apply read_active_polled.
  - eapply hoare_conseq; [apply wait_cycle_polled | auto | | auto].
    intros [|] s H; exact H.
  - auto.
Qed.

(** *** Once the flag is cleared *)

Lemma read_active_latency :
  hoare (fun s => latency 1 (trace s)) read_active
    (fun b s => if b : bool
                then since_set (trace s) = []
                else latency 1 (trace s))
    (fun s => latency 1 (trace s)).
Proof.
  intros s (Hw & Hs & Hp). rewrite read_active_eq.
  unfold polled_state, latency.
  destruct (hd false (active s)); cbn -[count]; [reflexivity|].
  rewrite !count_cons. cbn -[count]. lia.
Qed.

Lemma drain_body_latency :
  hoare (fun s => since_set (trace s) = []) drain_body
    (fun _ s => latency 1 (trace s))
    (fun s => latency 1 (trace s)).
Proof.
  intros s Hs.
  destruct (drain_body_cases s) as (r & j & H). cbv zeta in H.
  destruct H as [[_ ->]|[[_ [x ->]]|[_ (l & st & ->)]]];
    unfold latency; cbn -[count]; rewrite Hs; rewrite ?count_cons; cbn; lia.
Qed.

Lemma drain_latency :
  hoare (fun s => latency 1 (trace s)) drain
    (fun _ s => latency 1 (trace s))
    (fun s => latency 1 (trace s)).
Proof.
  unfold drain. eapply hoare_bind.
  - apply hoare_modify_from with (Q := fun _ s => latency 1 (trace s)).
    auto.
  - intros ?. apply hoare_while_active
      with (C := fun s => since_set (trace s) = []).
    + apply read_active_latency.
    + eapply hoare_conseq; [apply drain_body_latency | auto | | auto].
      intros [|] s H; exact H.
    + auto.
Qed.

Lemma wait_cycle_latency :
  hoare (fun s => since_set (trace s) = []) wait_cycle
    (fun _ s => latency 1 (trace s))
    (fun s => latency 1 (trace s)).
Proof.
  unfold wait_cycle.
  apply hoare_bind with (R := fun _ s => since_set (trace s) = [EvWait]).
  { intros s Hs. cbn. now rewrite Hs. }
  intros ?.
  apply hoare_bind with (R := fun _ s => since_set (trace s) = [EvWait]).
  { intros s Hs. unfold read_idle. now destruct (idle s). }
  assert (Hw : forall s, since_set (trace s) = [EvWait] -> latency 1 (trace s)).
  { intros s Hs. unfold latency. rewrite Hs. cbn. lia. }
  intros [|].
  - apply hoare_bind with (R := fun _ s => latency 1 (trace s)).
    + intros s Hs. unfold latency. cbn. rewrite Hs. cbn. lia.
    + intros ?. apply hoare_ret_from. auto.
  - apply hoare_bind with (R := fun _ s => latency 1 (trace s)).
    { eapply hoare_conseq; [apply drain_latency | exact Hw | auto | auto]. }
    intros ?.
    apply hoare_bind with (R := fun m s => latency 1 (trace s));
      [apply hoare_gets_from; auto|].
    intros m.
    apply hoare_bind with (R := fun _ s => latency 1 (trace s));
      [|intros ?; apply hoare_ret_from; auto].
    destruct (m =? 0); [apply hoare_ret_from; auto|].
    apply (hoare_emits is_quiet forward_tickets (latency 1));
      [apply emits_quiet_forward_tickets
      | apply latency_stable, quiet_not_wait_process].
Qed.

Lemma run_latency :
  hoare (fun s => latency 1 (trace s)) run
    (fun _ s => latency 1 (trace s))
    (fun s => latency 1 (trace s)).
Proof.
  unfold run.
  apply hoare_bind with (R := fun _ s => latency 1 (trace s)).
  { apply (hoare_emits is_quiet startup (latency 1));
      [apply emits_quiet_startup
      | apply latency_stable, quiet_not_wait_process]. }
  intros ?.
  apply hoare_bind with (R := fun _ s => latency 1 (trace s));
    [|intros ?; apply hoare_ret_from; auto].
  apply hoare_while_active with (C := fun s => since_set (trace s) = []).
  - apply read_active_latency.
  - eapply hoare_conseq; [apply wait_cycle_latency | auto | | auto].
    intros [|] s H; exact H.
  - auto.
Qed.

(** *** The loop ends *)

Lemma total_forward_tickets : total forward_tickets.
Proof. intros s. now rewrite forward_tickets_eq. Qed.

Lemma forward_tickets_active_le : steps active_le forward_tickets.
Proof.
  intros s. rewrite forward_tickets_eq. unfold active_le. cbn.
  destruct (forward_all_fields (failManager s) s eq_refl)
    as (_ & _ & _ & -> & _). lia.
Qed.

Lemma drain_active_le : steps active_le drain.
Proof.
  unfold drain. apply steps_bind; [apply active_le_trans | |].
  - intros s. unfold active_le. cbn. lia.
  - intros ? s. unfold while_active.
    apply steps_while;
      [apply active_le_refl | apply active_le_trans
      | apply read_active_active_le |].
    intros s'. unfold active_le. rewrite drain_body_active. lia.
Qed.

Lemma total_wait_cycle : total wait_cycle.
Proof.
  unfold wait_cycle.
  apply total_bind; [intros s; easy|]. intros ?.
  apply total_bind; [intros s; unfold read_idle; now destruct (idle s)|].
  intros [|].
  - apply total_bind; [intros s; easy|]. intros ?. apply total_ret.
  - apply total_bind; [apply total_drain|]. intros ?.
    apply total_bind; [intros s; easy|]. intros m.
    apply total_bind; [|intros ?; apply total_ret].
    destruct (m =? 0); [apply total_ret | apply total_forward_tickets].
Qed.

Lemma wait_cycle_active_le : steps active_le wait_cycle.
Proof.
  unfold wait_cycle.
  apply steps_bind; [apply active_le_trans | |].
  { intros s. unfold active_le. cbn. lia. }
  intros ?. apply steps_bind; [apply active_le_trans | |].
  { intros s. unfold read_idle, active_le. destruct (idle s); cbn; lia. }
  intros [|].
  - apply steps_bind; [apply active_le_trans | |].
    + intros s. unfold active_le. cbn. lia.
    + intros ?. apply steps_ret, active_le_refl.
  - apply steps_bind; [apply active_le_trans | apply drain_active_le |].
    intros ?. apply steps_bind; [apply active_le_trans | |].
    + apply steps_gets, active_le_refl.
    + intros m. apply steps_bind; [apply active_le_trans | |].
      * destruct (m =? 0);
          [apply steps_ret, active_le_refl | apply forward_tickets_active_le].
      * intros ?. apply steps_ret, active_le_refl.
Qed.

Lemma total_run : total run.
Proof.
  unfold run. apply total_bind.
  - intros s. apply startup_total.
  - intros ?. apply total_bind; [|intros ?; apply total_ret].
    apply total_while_active;
      [apply total_wait_cycle | apply wait_cycle_active_le].
Qed.

Lemma count_none p l :
  (forall x, In x l -> p x = false) -> count p l = O.
Proof.
  unfold count. induction l as [|x l IH]; intros H; [reflexivity|].
  cbn. rewrite (H x (or_introl eq_refl)). apply IH.
  intros y Hy. apply H. now right.
Qed.

(** The ticket loop hands every ticket of the queue to the jail and does
    not read the [active] flag. *)
Lemma forward_tickets_no_poll s :
  exists s',
    forward_tickets s = (Ok tt, s') /\
    jail s' = jail s ++ failManager s /\
    failManager s' = [] /\
    active s' = active s /\
    added forward_tickets s = EvCleanup :: rev (map EvBan (failManager s)) /\
    count is_poll (added forward_tickets s) = O.
Proof.
  destruct (forward_all_fields (failManager s) s eq_refl)
    as (H1 & H2 & H3 & H4 & _).
  assert (Ha : added forward_tickets s
               = EvCleanup :: rev (map EvBan (failManager s))).
  { apply added_eq. rewrite forward_tickets_eq. cbn. now rewrite H3. }
  eexists. split; [apply forward_tickets_eq|]. cbn.
  repeat split; try assumption.
  rewrite Ha. apply count_none. intros x [<-|Hx]; [reflexivity|].
  apply in_rev, in_map_iff in Hx as [t [<- _]]. reflexivity.
Qed.

(** C5 (amended).  In a run started with an empty trace: the run ends;
    every [journal.wait] and every [get_next] comes right after a read of
    the [active] flag that found it set, the flag being read at the top
    of each wait cycle and of each turn of the drain; after the last
    read that found the flag set there is at most one wait (with, when
    the filter is idle, the one idle sleep that follows it) and at most
    one batch of up to 100 processed entries (indeed at most one entry).
    The ticket loop does not read the flag: it hands every ticket of the
    queue to the jail, whatever the flag. *)
Theorem run_polls_active_twice_per_cycle s :
  trace s = [] ->
  fst (run s) <> OutOfFuel /\
  polled (trace (snd (run s))) = true /\
  latency 100 (trace (snd (run s))) /\
  latency 1 (trace (snd (run s))) /\
  (forall s1, exists s2,
     forward_tickets s1 = (Ok tt, s2) /\
     jail s2 = jail s1 ++ failManager s1 /\
     active s2 = active s1 /\
     count is_poll (added forward_tickets s1) = O).
Proof.
  intros Htr.
  assert (Hl : latency 1 (trace (snd (run s)))).
  { pose proof (run_latency s) as H.
    destruct (run s) as [[a|e|] s']; apply H; rewrite Htr;
      unfold latency; cbn; lia. }
  split; [apply total_run|]. split.
  { pose proof (run_polled s) as H.
    destruct (run s) as [[a|e|] s']; apply H; now rewrite Htr. }
  split; [apply (latency_weaken 1); [lia | exact Hl]|].
  split; [exact Hl|].
  intros s1. destruct (forward_tickets_no_poll s1)
    as (s2 & E & Hj & _ & Ha & _ & Hc).
  exists s2. now repeat split.
Qed.

(** * Further properties *)

(** ** Match set *)

Lemma elem_of_replay_ops t ms :
  JMatch t ∈ replay_ops ms <-> exists g, g ∈ ms /\ t ∈ g.
Proof.
  unfold replay_ops. induction ms as [|g ms IH]; cbn.
  - split; [intros H; now apply not_elem_of_nil in H|].
    intros (g & H & _). now apply not_elem_of_nil in H.
  - rewrite !elem_of_app, IH. split.
    + intros [[H|H]|(g' & H1 & H2)].
      * exists g. split; [apply list_elem_of_here|].
        apply list_elem_of_fmap in H as (x & E & Hx). now injection E as ->.
      * apply list_elem_of_singleton in H. discriminate.
      * exists g'. split; [now apply list_elem_of_further | exact H2].
    + intros (g' & H1 & H2). apply elem_of_cons in H1 as [->|H1].
      * left. left. apply list_elem_of_fmap. now exists t.
      * right. now exists g'.
Qed.

Lemma split_plus_sentinel_free l : forall cur,
  "+" ∉ cur -> Forall (fun g => "+" ∉ g) (split_plus cur l).
Proof.
  induction l as [|t l IH]; intros cur Hc; cbn [split_plus].
  - now constructor.
  - destruct (String.eqb t "+") eqn:Et.
    + constructor; [exact Hc|]. apply IH. apply not_elem_of_nil.
    + apply IH. intros H. apply elem_of_app in H as [H|H]; [now apply Hc|].
      apply list_elem_of_singleton in H. subst t. now rewrite String.eqb_refl in Et.
Qed.

Lemma Forall_remove_first (P : list string -> Prop) m l :
  Forall P l -> Forall P (remove_first m l).
Proof.
  induction 1 as [|g l Hg Hl IH]; cbn; [constructor|].
  destruct (decide (g = m)); [exact Hl | now constructor].
Qed.

Lemma replay_sentinel_free ms :
  Forall (fun g => "+" ∉ g) ms -> JMatch "+" ∉ replay_ops ms.
Proof.
  intros Hall H. apply elem_of_replay_ops in H as (g & Hg & Hp).
  rewrite Forall_forall in Hall. exact (Hall g Hg Hp).
Qed.

Lemma reachable_sentinel_free s : reachable s -> sentinel_free s.
Proof.
  induction 1 as [s [Hm Hf]|s o Hreach [IHm IHf]].
  - unfold sentinel_free. rewrite Hm, Hf.
    split; [constructor | apply not_elem_of_nil].
  - destruct (reachable_sync s Hreach) as [Hmir Ha].
    destruct o as [m|m]; cbn [perform].
    + destruct (rejects m) eqn:Hr.
      * rewrite addJournalMatch_rejected by assumption. cbn [snd].
        split; [exact IHm | now apply replay_sentinel_free].
      * rewrite addJournalMatch_accepted by assumption. cbn [snd].
        assert (Hs : Forall (fun g => "+" ∉ g) (split_plus [] m))
          by apply split_plus_sentinel_free, not_elem_of_nil.
        split; cbn.
        -- now apply Forall_app.
        -- rewrite !elem_of_app. intros [H|[H|H]].
           ++ now apply IHf.
           ++ unfold leading_or in H. destruct (is_nonempty (matches s)).
              ** apply list_elem_of_singleton in H. discriminate.
              ** now apply not_elem_of_nil in H.
           ++ now apply (replay_sentinel_free _ Hs).
    + destruct (decide (m ∈ matches s)) as [Hin|Hn].
      * rewrite delJournalMatch_found by assumption. cbn [snd].
        assert (Hs : Forall (fun g => "+" ∉ g) (remove_first m (matches s)))
          by now apply Forall_remove_first.
        split; [exact Hs | now apply replay_sentinel_free].
      * unfold delJournalMatch. erewrite bind_ok; [|reflexivity].
        destruct (decide (m ∈ matches s)); [contradiction|].
        cbn. now split.
Qed.

(** X1.  On a filter reached from a fresh one by add and delete calls, the
    ["+"] sentinel is never stored: no group in memory holds it and the
    store never received it as a match. *)
Theorem sentinel_never_stored s :
  reachable s ->
  (forall g, g ∈ matches s -> "+" ∉ g) /\
  JMatch "+" ∉ j_filters (journal s).
Proof.
  intros H. destruct (reachable_sentinel_free s H) as [Hm Hf].
  split; [|exact Hf]. now apply Forall_forall.
Qed.

(** X2.  On such a filter, deleting with a specification that holds the
    ["+"] sentinel always raises "Match not found" and changes nothing:
    what was added as several groups is deleted group by group. *)
Theorem delJournalMatch_with_sentinel_raises s mtch :
  reachable s -> "+" ∈ mtch ->
  delJournalMatch mtch s = (Raise (ValueError "Match not found"), s).
Proof.
  intros Hreach Hp. destruct (reachable_sentinel_free s Hreach) as [Hm _].
  unfold delJournalMatch. erewrite bind_ok; [|reflexivity].
  destruct (decide (mtch ∈ matches s)) as [Hin|]; [|reflexivity].
  rewrite Forall_forall in Hm. destruct (Hm mtch Hin Hp).
Qed.

Lemma split_plus_single l : forall cur,
  "+" ∉ l -> split_plus cur l = [cur ++ l].
Proof.
  induction l as [|t l IH]; intros cur Hl; cbn [split_plus].
  - now rewrite app_nil_r.
  - destruct (String.eqb t "+") eqn:Et.
    + apply String.eqb_eq in Et. subst t. destruct Hl. apply list_elem_of_here.
    + rewrite IH, <- app_assoc; [reflexivity|].
      intros H. apply Hl. now apply list_elem_of_further.
Qed.

Lemma remove_first_split m l :
  m ∈ l ->
  exists pre post,
    l = pre ++ m :: post /\ (m ∉ pre) /\ remove_first m l = pre ++ post.
Proof.
  induction l as [|g l IH]; intros Hin; [now apply not_elem_of_nil in Hin|].
  cbn. destruct (decide (g = m)) as [->|Hne].
  - exists [], l. repeat split. apply not_elem_of_nil.
  - apply elem_of_cons in Hin as [->|Hin]; [contradiction|].
    destruct (IH Hin) as (pre & post & E & Hpre & Hr).
    exists (g :: pre), post. rewrite E at 1. rewrite Hr. repeat split.
    intros H. apply elem_of_cons in H as [H|H]; [now subst | now apply Hpre].
Qed.

Lemma remove_first_appended m l :
  m ∉ l -> remove_first m (l ++ [m]) = l.
Proof.
  induction l as [|g l IH]; intros Hn; cbn.
  - destruct (decide (m = m)); [reflexivity | contradiction].
  - apply not_elem_of_cons in Hn as [Hne Hn].
    destruct (decide (g = m)); [now subst|]. now rewrite IH.
Qed.

Lemma mirrors_structure s :
  mirrors s ->
  filter_structure (journal s) = List.filter is_nonempty (matches s).
Proof.
  intros Hm. unfold filter_structure.
  rewrite <- (app_nil_r (j_filters (journal s))), Hm. cbn.
  apply app_nil_r.
Qed.

(** X3.  On such a filter, adding a group it does not hold yet (accepted
    tokens, no sentinel) and deleting it again both succeed and give back
    the in-memory sequence and the filter structure of the store. *)
Theorem add_then_delete_restores s mtch :
  reachable s -> rejects mtch = false -> "+" ∉ mtch -> mtch ∉ matches s ->
  exists s1 s2,
    addJournalMatch mtch s = (Ok tt, s1) /\
    delJournalMatch mtch s1 = (Ok tt, s2) /\
    matches s2 = matches s /\
    filter_structure (journal s2) = filter_structure (journal s).
Proof.
  intros Hreach Hr Hp Hn.
  destruct (reachable_sync s Hreach) as [Hmir Ha].
  pose proof (perform_keeps_sync (OpAdd mtch) s Hmir Ha) as [_ Ha1].
  cbn [perform] in Ha1.
  rewrite (addJournalMatch_accepted s mtch Hr) in Ha1. cbn [snd] in Ha1.
  eexists. eexists. split; [now apply addJournalMatch_accepted|].
  rewrite (split_plus_single mtch [] Hp) in *. cbn [app] in *.
  split.
  { apply delJournalMatch_found; [exact Ha1|].
    cbn. apply elem_of_app. right. apply list_elem_of_here. }
  cbn [matches rebuilt set_filters set_journal set_matches push_filters].
  pose proof (remove_first_appended mtch (matches s) Hn) as Hrm.
  split; [exact Hrm|].
  rewrite (mirrors_structure s Hmir), filter_structure_rebuilt.
  cbn [matches set_matches]. now rewrite Hrm.
Qed.

(** X4.  On such a filter, deleting a stored group succeeds, removes its
    first occurrence only, keeps the order of the others, flushes the
    store once and leaves it with the structure of the groups that
    remain. *)
Theorem delJournalMatch_removes_first_occurrence s mtch :
  reachable s -> mtch ∈ matches s ->
  exists pre post s',
    matches s = pre ++ mtch :: post /\ (mtch ∉ pre) /\
    delJournalMatch mtch s = (Ok tt, s') /\
    matches s' = pre ++ post /\
    j_flushes (journal s') = S (j_flushes (journal s)) /\
    filter_structure (journal s') = List.filter is_nonempty (pre ++ post).
Proof.
  intros Hreach Hin.
  destruct (reachable_sync s Hreach) as [Hmir Ha].
  destruct (remove_first_split mtch (matches s) Hin)
    as (pre & post & E & Hpre & Hr).
  exists pre, post. eexists.
  split; [exact E|]. split; [exact Hpre|].
  split; [now apply delJournalMatch_found|].
  split; [cbn; now rewrite Hr|]. split; [reflexivity|].
  rewrite filter_structure_rebuilt. cbn [matches set_matches].
  now rewrite Hr.
Qed.

(** X5.  When a group in memory holds a token the store rejects,
    [resetJournalMatches] raises the [ValueError] of [add_match] and the
    in-memory sequence is left empty: the groups are lost. *)
Theorem resetJournalMatches_failure_empties_matches s :
  accepted s = false ->
  exists s',
    resetJournalMatches s = (Raise (ValueError "Invalid match"), s') /\
    matches s' = [] /\
    matches s <> [] /\
    j_flushes (journal s') = S (j_flushes (journal s)).
Proof.
  intros Ha. unfold resetJournalMatches.
  erewrite bind_ok; [|reflexivity].
  erewrite bind_ok; [|reflexivity].
  erewrite bind_ok; [|reflexivity].
  unfold flush_matches, modify. cbn [snd].
  match goal with
  | |- exists s', _addJournalMatches ?ms ?s0 = _ /\ _ =>
      destruct (_addJournalMatches_invalid ms s0) as [ops E]
  end.
  { exact Ha. }
  eexists. split; [exact E|]. cbn.
  repeat split. intros Hm. unfold accepted in Ha. rewrite Hm in Ha.
  discriminate.
Qed.

(** X6.  On a filter reached from a fresh one, [resetJournalMatches]
    succeeds, keeps the in-memory sequence and the filter structure of the
    store, and flushes the store once. *)
Theorem resetJournalMatches_keeps_structure s :
  reachable s ->
  exists s',
    resetJournalMatches s = (Ok tt, s') /\
    matches s' = matches s /\
    filter_structure (journal s') = filter_structure (journal s) /\
    j_flushes (journal s') = S (j_flushes (journal s)).
Proof.
  intros Hreach. destruct (reachable_sync s Hreach) as [Hmir Ha].
  exists (rebuilt s). split; [now apply resetJournalMatches_accepted|].
  split; [reflexivity|]. split; [|reflexivity].
  now rewrite filter_structure_rebuilt, mirrors_structure.
Qed.

(** X7.  On such a filter, a successful add never flushes the store: the
    calls the store had received are kept, new ones come after them, and
    the filter structure grows by the groups of the split that have a
    token (an empty group is kept in memory but adds nothing to the
    store). *)
Theorem addJournalMatch_only_appends s mtch :
  reachable s -> rejects mtch = false ->
  exists s' more,
    addJournalMatch mtch s = (Ok tt, s') /\
    j_flushes (journal s') = j_flushes (journal s) /\
    j_filters (journal s') = j_filters (journal s) ++ more /\
    filter_structure (journal s')
    = filter_structure (journal s)
      ++ List.filter is_nonempty (split_plus [] mtch).
Proof.
  intros Hreach Hr. destruct (reachable_sync s Hreach) as [Hmir Ha].
  eexists. eexists. split; [now apply addJournalMatch_accepted|].
  cbn. split; [reflexivity|]. split; [reflexivity|].
  pose proof (mirrors_appended s (split_plus [] mtch) Hmir) as Hm'.
  apply mirrors_structure in Hm'. cbn in Hm'.
  unfold filter_structure in *. cbn. rewrite Hm'.
  rewrite List.filter_app. f_equal.
  rewrite <- (app_nil_r (j_filters (journal s))), Hmir. cbn.
  now rewrite app_nil_r.
Qed.

Lemma concat_app_nonempty sep (a b : list string) :
  a <> [] -> b <> [] ->
  String.concat sep (a ++ b)
  = String.concat sep a +:+ sep +:+ String.concat sep b.
Proof.
  intros Ha Hb. induction a as [|x a IH]; [contradiction|].
  destruct a as [|y a].
  - cbn [app]. now rewrite concat_cons_nonempty.
  - cbn [app] in *.
    rewrite (concat_cons_nonempty sep x (y :: a ++ b)) by easy.
    rewrite IH by easy.
    rewrite (concat_cons_nonempty sep x (y :: a)) by easy.
    rewrite !string_app_assoc. reflexivity.
Qed.

Lemma split_plus_not_nil l cur : split_plus cur l <> [].
Proof.
  revert cur. induction l as [|t l IH]; intros cur; cbn; [easy|].
  destruct (String.eqb t "+"); [easy | apply IH].
Qed.

(** The groups joined by [" + "], their tokens by [" "], read as the
    tokens of the specification joined by [" "]. *)
Lemma render_split l : forall cur,
  forallb is_nonempty (split_plus cur l) = true ->
  String.concat " + " (map (String.concat " ") (split_plus cur l))
  = String.concat " " (cur ++ l).
Proof.
  induction l as [|t l IH]; intros cur Hg; cbn [split_plus] in *.
  - now rewrite app_nil_r.
  - destruct (String.eqb t "+") eqn:Et.
    + apply String.eqb_eq in Et. subst t.
      cbn [forallb map] in *. apply andb_prop in Hg as [Hc Hl].
      assert (Hcur : cur <> []) by now destruct cur.
      assert (Hl' : l <> []) by (intros ->; discriminate).
      rewrite concat_cons_nonempty.
      2:{ intros H. apply map_eq_nil in H. now apply split_plus_not_nil in H. }
      rewrite (IH [] Hl). cbn [app].
      rewrite concat_app_nonempty by easy.
      rewrite (concat_cons_nonempty " " "+" l Hl').
      reflexivity.
    + rewrite (IH (cur ++ [t]) Hg), <- app_assoc. reflexivity.
Qed.

(** X8.  On a fresh filter, after a successful add of a specification
    whose groups all have a token, the status string is the specification
    as it was given, its tokens joined by single spaces. *)
Theorem status_echoes_specification s0 mtch ret :
  fresh s0 -> rejects mtch = false -> well_grouped mtch = true ->
  exists s1,
    addJournalMatch mtch s0 = (Ok tt, s1) /\
    status ret s1 = ret ++ [("Journal matches", [String.concat " " mtch])].
Proof.
  intros [Hm _] Hr Hg. eexists.
  split; [now apply addJournalMatch_accepted|].
  unfold status. cbn [matches set_matches]. rewrite Hm. cbn [app].
  now rewrite (render_split mtch [] Hg).
Qed.

(** ** formatJournalEntry *)

(** A computation whose result and effect do not depend on the filter: it
    yields [r] and leaves the filter as it is. *)
Lemma constant_bind {A B} (m : M A) (k : A -> M B) :
  (exists r, forall s, m s = (r, s)) ->
  (forall a, exists r, forall s, k a s = (r, s)) ->
  exists r, forall s, bind m k s = (r, s).
Proof.
  intros [[a|x|] Hm] Hk.
  - destruct (Hk a) as [r Hr]. exists r. intros s. unfold bind.
    now rewrite Hm.
  - exists (Raise x). intros s. unfold bind. now rewrite Hm.
  - exists OutOfFuel. intros s. unfold bind. now rewrite Hm.
Qed.

Ltac constant_step :=
  first
    [ apply constant_bind; [|intros ?]
    | match goal with
      | |- exists r, forall s, (match ?x with _ => _ end) s = (r, s) =>
          destruct x
      | |- exists r, forall s, ret ?a s = (r, s) =>
          exists (Ok a); reflexivity
      | |- exists r, forall s, raise ?e s = (r, s) =>
          exists (Raise e); reflexivity
      end ].

Lemma formatJournalEntry_constant e :
  exists r, forall s, formatJournalEntry e s = (r, s).
Proof.
  unfold formatJournalEntry, log_elements, host_element, rendered_identifier,
    kernel_stamp, message_element, uni_decode, format_pid, subscript0,
    total_seconds.
  repeat constant_step.
Qed.

(** X9.  An entry with neither [_SOURCE_REALTIME_TIMESTAMP] nor
    [__REALTIME_TIMESTAMP] is never formatted: [formatJournalEntry]
    raises, with [AttributeError] when the line itself could be built. *)
Theorem formatJournalEntry_without_realtime_raises e s :
  e !! "_SOURCE_REALTIME_TIMESTAMP" = None ->
  e !! "__REALTIME_TIMESTAMP" = None ->
  (exists x, formatJournalEntry e s = (Raise x, s)) /\
  (forall elems, log_elements e s = (Ok elems, s) ->
                 formatJournalEntry e s = (Raise AttributeError, s)).
Proof.
  intros H1 H2.
  assert (Hr : realtime_field e = None).
  { unfold realtime_field. now rewrite H1. }
  assert (Hok : forall elems, log_elements e s = (Ok elems, s) ->
                  formatJournalEntry e s = (Raise AttributeError, s)).
  { intros elems He. unfold formatJournalEntry.
    erewrite bind_ok; [|exact He]. now rewrite Hr. }
  split; [|exact Hok].
  pose proof (pure_log_elements e s) as Hp.
  pose proof (total_formatJournalEntry e s) as Ht.
  destruct (log_elements e s) as [[elems|x|] s1] eqn:He; cbn in Hp; subst s1.
  - eexists. now apply (Hok elems).
  - exists x. unfold formatJournalEntry. now apply bind_raise.
  - unfold formatJournalEntry, bind in Ht. rewrite He in Ht. now destruct Ht.
Qed.

Lemma bracket_colon_not_kernel (x : string) : x +:+ "]:" <> "kernel:".
Proof.
  intros H.
  do 8 (destruct x as [|? x]; [discriminate H|];
        simpl in H; injection H as _ H || discriminate H).
Qed.

(** X10.  An identifier rendered with a pid is never ["kernel:"]: an entry
    whose identifier is text and whose pid is a non-zero integer is
    formatted as host, [name[pid]:] and message, without any look at the
    monotonic fields, also when the name is [kernel] and those fields are
    missing. *)
Theorem formatJournalEntry_with_pid_skips_monotonic
    e s name n host msg d :
  get_or e "SYSLOG_IDENTIFIER" "_COMM" = Some (PStr name) -> name <> "" ->
  get_or e "SYSLOG_PID" "_PID" = Some (PInt n) -> n <> 0 ->
  host_element e s = (Ok host, s) ->
  message_element e s = (Ok msg, s) ->
  realtime_of e d ->
  formatJournalEntry e s
  = (Ok (("", isoformat d,
          line_prefix host
          +:+ (decode name +:+ "[" +:+ string_of_Z n +:+ "]" +:+ ":")
          +:+ " " +:+ msg),
         epoch_stamp d), s).
Proof.
  intros Hid Hname Hpid Hn Hh Hmsg Hd.
  apply realtime_field_precedence in Hd.
  set (i := (decode name +:+ "[" +:+ string_of_Z n +:+ "]") +:+ ":").
  assert (Hri : rendered_identifier e s = (Ok (Some i), s)).
  { unfold rendered_identifier. rewrite Hid, Hpid. cbn [truthy].
    apply String.eqb_neq in Hname. rewrite Hname.
    apply Z.eqb_neq in Hn. rewrite Hn. reflexivity. }
  assert (Hk : String.eqb i "kernel:" = false).
  { apply String.eqb_neq. unfold i. rewrite !string_app_assoc.
    intros H.
    apply (bracket_colon_not_kernel (decode name +:+ "[" +:+ string_of_Z n)).
    now rewrite !string_app_assoc. }
  unfold formatJournalEntry.
  erewrite bind_ok.
  2:{ unfold log_elements.
      erewrite bind_ok; [|exact Hh].
      erewrite bind_ok; [|exact Hri].
      cbv beta iota. rewrite Hk.
      erewrite bind_ok; [|reflexivity].
      erewrite bind_ok; [|exact Hmsg].
      reflexivity. }
  rewrite Hd.
  rewrite line_of_elements by easy.
  change (String.concat " " ([i] ++ [msg])) with (i +:+ " " +:+ msg).
  unfold i. rewrite !string_app_assoc. reflexivity.
Qed.

(** X11.  An entry with no host and no identifier (absent or empty) is
    formatted as its message alone, with no separator in front and no
    look at the pid or monotonic fields. *)
Theorem formatJournalEntry_bare_message e s msg d :
  is_true (e !! "_HOSTNAME") = false ->
  is_true (get_or e "SYSLOG_IDENTIFIER" "_COMM") = false ->
  message_element e s = (Ok msg, s) ->
  realtime_of e d ->
  formatJournalEntry e s = (Ok (("", isoformat d, msg), epoch_stamp d), s).
Proof.
  intros Hh Hid Hmsg Hd.
  apply realtime_field_precedence in Hd.
  assert (Hhost : host_element e s = (Ok [], s)).
  { unfold host_element. destruct (e !! "_HOSTNAME") as [v|]; [|reflexivity].
    cbn in Hh. now rewrite Hh. }
  assert (Hri : rendered_identifier e s = (Ok None, s)).
  { unfold rendered_identifier.
    destruct (get_or e "SYSLOG_IDENTIFIER" "_COMM") as [v|]; [|reflexivity].
    cbn in Hid. now rewrite Hid. }
  unfold formatJournalEntry.
  erewrite bind_ok.
  2:{ unfold log_elements.
      erewrite bind_ok; [|exact Hhost].
      erewrite bind_ok; [|exact Hri].
      erewrite bind_ok; [|reflexivity].
      erewrite bind_ok; [|exact Hmsg].
      reflexivity. }
  rewrite Hd. reflexivity.
Qed.
(** ** What the main loop leaves alone *)

Lemma steps_modify R f : (forall s, R s (f s)) -> steps R (modify f).
Proof. intros H s. apply H. Qed.

Lemma steps_raise R {A} (e : exn) : (forall s, R s s) -> steps R (@raise A e).
Proof. intros Hr s. apply Hr. Qed.

Lemma steps_pure R {A} (m : M A) :
  (forall s, R s s) -> pure m -> steps R m.
Proof. intros Hr Hp s. rewrite Hp. apply Hr. Qed.

Lemma steps_while_active R body :
  (forall s, R s s) -> (forall s1 s2 s3, R s1 s2 -> R s2 s3 -> R s1 s3) ->
  steps R read_active -> steps R body -> steps R (while_active body).
Proof.
  intros Hr Ht Hc Hb s. unfold while_active.
  exact (steps_while R Hr Ht read_active body Hc Hb _ s).
Qed.

Lemma steps_forward_tickets R :
  (forall s, R s s) -> (forall s1 s2 s3, R s1 s2 -> R s2 s3 -> R s1 s3) ->
  steps R toBan -> (forall t, steps R (putFailTicket t)) ->
  steps R cleanup -> steps R forward_tickets.
Proof.
  intros Hr Ht Hb Hp Hc. unfold forward_tickets.
  apply (steps_try_except R Ht); [|intros _; exact Hc].
  intros s. apply (steps_while R Hr Ht); [apply (steps_ret R Hr)|].
  unfold ticket_turn. apply (steps_bind R Ht); [exact Hb|]. intros t.
  apply (steps_bind R Ht); [apply Hp|]. intros _. apply (steps_ret R Hr).
Qed.

Ltac steps_step Hr Ht :=
  lazymatch goal with
  | |- steps _ (ret _) => apply (steps_ret _ Hr)
  | |- steps _ (gets _) => apply (steps_gets _ Hr)
  | |- steps _ (raise _) => apply (steps_raise _ _ Hr)
  | |- steps _ (bind _ _) => apply (steps_bind _ Ht); [|intros ?]
  | |- steps _ (try_except _ _ _) =>
      apply (steps_try_except _ Ht); [|intros ?]
  | |- steps _ (while_active _) => apply (steps_while_active _ _ Hr Ht)
  | |- steps _ (match ?x with _ => _ end) => destruct x
  end.

Lemma same_match_set_refl s : same_match_set s s.
Proof. now repeat split. Qed.

Lemma same_match_set_trans s1 s2 s3 :
  same_match_set s1 s2 -> same_match_set s2 s3 -> same_match_set s1 s3.
Proof.
  intros (A1 & A2 & A3) (B1 & B2 & B3).
  repeat split; congruence.
Qed.

Lemma take_fault_fields j :
  j_filters (snd (take_fault j)) = j_filters j /\
  j_flushes (snd (take_fault j)) = j_flushes j /\
  j_records (snd (take_fault j)) = j_records j /\
  j_loc (snd (take_fault j)) = j_loc j /\
  j_incoming (snd (take_fault j)) = j_incoming j /\
  j_faults (snd (take_fault j)) = tl (j_faults j) /\
  fst (take_fault j) = hd false (j_faults j).
Proof.
  unfold take_fault. destruct j as [f n rs l inc [|b fl]]; cbn;
    now repeat split.
Qed.

Lemma get_next_same_match_set : steps same_match_set get_next.
Proof.
  intros s. unfold get_next.
  destruct (take_fault_fields (journal s)) as (H1 & H2 & _).
  destruct (take_fault (journal s)) as [[|] j]; cbn in H1, H2;
    [now repeat split|].
  destruct (j_records j !! next_index j); now repeat split.
Qed.

Lemma get_previous_same_match_set : steps same_match_set get_previous.
Proof.
  intros s. unfold get_previous.
  destruct (take_fault_fields (journal s)) as (H1 & H2 & _).
  destruct (take_fault (journal s)) as [[|] j]; cbn in H1, H2;
    [now repeat split|].
  destruct (previous_index j) as [i|]; [|now repeat split].
  destruct (j_records j !! i); now repeat split.
Qed.

Lemma read_active_same_match_set : steps same_match_set read_active.
Proof.
  intros s. unfold read_active. destruct (active s); now repeat split.
Qed.

Lemma run_same_match_set : steps same_match_set run.
Proof.
  pose proof same_match_set_refl as Hr.
  pose proof same_match_set_trans as Ht.
  unfold run, startup, getJournalMatch, timedelta, minus_seconds, seekToTime,
    seek_realtime, wait_cycle, drain, drain_body, read_entry, journal_wait,
    sleep, processLineAndAdd.
  repeat first
    [ steps_step Hr Ht
    | apply get_next_same_match_set
    | apply get_previous_same_match_set
    | apply read_active_same_match_set
    | apply (steps_pure _ _ Hr), pure_formatJournalEntry
    | apply (steps_forward_tickets _ Hr Ht)
    | apply steps_modify; intros s; now repeat split ].
  - apply steps_modify. intros s. unfold same_match_set. cbn.
    destruct (journal s) as [f n rs l [|b inc] fl]; cbn; now repeat split.
  - intros s. unfold read_idle. destruct (idle s); now repeat split.
  - intros s. unfold toBan. destruct (failManager s); now repeat split.
  - intros t. unfold putFailTicket. apply steps_modify. intros s.
    now repeat split.
Qed.

(** X12.  [run] never touches the match set: the stored groups, the calls
    the store received for them and the count of its flushes are at the
    end what they were at the start, whatever the journal held and however
    the run ended; so [status] renders the same before and after. *)
Theorem run_keeps_match_set s ret :
  matches (snd (run s)) = matches s /\
  j_filters (journal (snd (run s))) = j_filters (journal s) /\
  j_flushes (journal (snd (run s))) = j_flushes (journal s) /\
  filter_structure (journal (snd (run s))) = filter_structure (journal s) /\
  status ret (snd (run s)) = status ret s.
Proof.
  destruct (run_same_match_set s) as (H1 & H2 & H3).
  repeat split; try assumption.
  - unfold filter_structure. now rewrite H2.
  - unfold status, bind, getJournalMatch, gets. cbn. now rewrite H1.
Qed.

(** ** The tickets *)

Lemma detected_app n2 n1 : detected (n2 ++ n1) = detected n1 ++ detected n2.
Proof. unfold detected. now rewrite rev_app_distr, flat_map_app. Qed.

Lemma conserved_refl s : conserved s s.
Proof. exists [], []. cbn. now rewrite !app_nil_r. Qed.

Lemma conserved_trans s1 s2 s3 :
  conserved s1 s2 -> conserved s2 s3 -> conserved s1 s3.
Proof.
  intros (n1 & b1 & T1 & J1 & Q1) (n2 & b2 & T2 & J2 & Q2).
  exists (n2 ++ n1), (b1 ++ b2). repeat split.
  - now rewrite T2, T1, app_assoc.
  - now rewrite J2, J1, app_assoc.
  - rewrite detected_app, app_assoc, <- Q1, <- !app_assoc. now rewrite Q2.
Qed.

(** A step that hands out and makes ready no ticket. *)
Lemma conserved_quiet s s' new :
  trace s' = new ++ trace s -> jail s' = jail s ->
  failManager s' = failManager s -> detected new = [] ->
  conserved s s'.
Proof.
  intros T J Q D. exists new, []. rewrite D, J, Q, !app_nil_r.
  now repeat split.
Qed.

Lemma get_next_conserved : steps conserved get_next.
Proof.
  intros s. destruct (get_next_eq s) as (r & j & -> & _).
  now apply (conserved_quiet _ _ []).
Qed.

Lemma get_previous_eq s :
  exists r j, get_previous s = (r, set_journal (fun _ => j) s).
Proof.
  unfold get_previous. destruct (take_fault (journal s)) as [[|] j];
    [now eexists; eexists|].
  destruct (previous_index j) as [i|]; [|now eexists; eexists].
  destruct (j_records j !! i); now eexists; eexists.
Qed.

Lemma get_previous_conserved : steps conserved get_previous.
Proof.
  intros s. destruct (get_previous_eq s) as (r & j & ->).
  now apply (conserved_quiet _ _ []).
Qed.

Lemma read_active_conserved : steps conserved read_active.
Proof.
  intros s. rewrite read_active_eq.
  now apply (conserved_quiet _ _ [EvActive (hd false (active s))]).
Qed.

Lemma read_idle_conserved : steps conserved read_idle.
Proof.
  intros s. unfold read_idle.
  destruct (idle s); now apply (conserved_quiet _ _ []).
Qed.

Lemma detected_bans q : detected (rev (map EvBan q)) = [].
Proof.
  unfold detected. rewrite rev_involutive.
  induction q as [|t q IH]; [reflexivity | exact IH].
Qed.

Lemma forward_tickets_conserved : steps conserved forward_tickets.
Proof.
  intros s. rewrite forward_tickets_eq.
  destruct (forward_all_fields (failManager s) s eq_refl)
    as (H1 & H2 & H3 & _).
  exists (EvCleanup :: rev (map EvBan (failManager s))), (failManager s).
  cbn [snd emit trace jail failManager]. rewrite H1, H2, H3.
  repeat split.
  change (EvCleanup :: rev (map EvBan (failManager s)))
    with ([EvCleanup] ++ rev (map EvBan (failManager s))).
  rewrite detected_app, detected_bans. now rewrite !app_nil_r.
Qed.

(** X13.  Over a run no ticket is lost, doubled or reordered: the jail
    keeps the tickets it had and gets further ones after them, and these
    followed by the tickets left in the queue are the tickets queued at
    the start followed by those the detection engine made ready at the
    entries processed since, in the order they were processed. *)
Theorem run_conserves_tickets s :
  exists new banned,
    trace (snd (run s)) = new ++ trace s /\
    jail (snd (run s)) = jail s ++ banned /\
    banned ++ failManager (snd (run s)) = failManager s ++ detected new.
Proof.
  change (conserved s (snd (run s))). revert s.
  change (steps conserved run).
  pose proof conserved_refl as Hr.
  pose proof conserved_trans as Ht.
  unfold run, startup, getJournalMatch, timedelta, minus_seconds, seekToTime,
    seek_realtime, wait_cycle, drain, drain_body, read_entry, journal_wait,
    sleep, processLineAndAdd.
  repeat first
    [ steps_step Hr Ht
    | apply get_next_conserved
    | apply get_previous_conserved
    | apply read_active_conserved
    | apply read_idle_conserved
    | apply forward_tickets_conserved
    | apply (steps_pure _ _ Hr), pure_formatJournalEntry
    | apply steps_modify; intros s; now apply (conserved_quiet _ _ [])
    | apply steps_modify; intros s;
      match goal with
      | |- conserved _ (emit ?e _) => now apply (conserved_quiet _ _ [e])
      end ].
  apply steps_modify. intros s.
  match goal with
  | |- context [EvProcess ?l ?st] => exists [EvProcess l st], []
  end.
  cbn. unfold detected. cbn. now rewrite !app_nil_r.
Qed.

(** ** The tick counter *)

Lemma count_app p n2 n1 : count p (n2 ++ n1) = (count p n2 + count p n1)%nat.
Proof. unfold count. now rewrite List.filter_app, length_app. Qed.

Lemma ticked_refl s : ticked s s.
Proof. exists []. cbn. split; [reflexivity | lia]. Qed.

Lemma ticked_trans s1 s2 s3 : ticked s1 s2 -> ticked s2 s3 -> ticked s1 s3.
Proof.
  intros (n1 & T1 & K1) (n2 & T2 & K2). exists (n2 ++ n1). split.
  - now rewrite T2, T1, app_assoc.
  - rewrite count_app. lia.
Qed.

(** A step that neither reads the journal nor counts. *)
Lemma ticked_quiet s s' new :
  trace s' = new ++ trace s -> ticks s' = ticks s -> count is_read new = O ->
  ticked s s'.
Proof. intros T K C. exists new. rewrite C, K. split; [exact T | lia]. Qed.

Lemma drain_body_ticked : steps ticked drain_body.
Proof.
  intros s. destruct (drain_body_cases s) as (r & j & H). cbv zeta in H.
  destruct H as [[_ ->]|[[_ [x ->]]|[_ (l & st & ->)]]].
  - exists [EvRead (outcome_of r)]. split; [reflexivity|]. cbn. lia.
  - exists [EvRead (outcome_of r)]. split; [reflexivity|]. cbn. lia.
  - exists [EvProcess l st; EvRead (outcome_of r)].
    split; [reflexivity|]. cbn. lia.
Qed.

Lemma read_active_ticked : steps ticked read_active.
Proof.
  intros s. rewrite read_active_eq.
  now apply (ticked_quiet _ _ [EvActive (hd false (active s))]).
Qed.

(** X14.  [ticks] counts the reads of the journal: over a run, however it
    ends, the counter goes up by exactly the number of [get_next] calls
    made (those that yielded an entry, those that yielded none and those
    that faulted alike); the step back of the startup and the waits do
    not count. *)
Theorem run_ticks_count_reads s :
  exists new,
    trace (snd (run s)) = new ++ trace s /\
    ticks (snd (run s)) = ticks s + Z.of_nat (count is_read new).
Proof.
  change (ticked s (snd (run s))). revert s.
  change (steps ticked run).
  pose proof ticked_refl as Hr.
  pose proof ticked_trans as Ht.
  unfold run, startup, getJournalMatch, timedelta, minus_seconds, seekToTime,
    seek_realtime, wait_cycle, drain, journal_wait, sleep.
  repeat first
    [ steps_step Hr Ht
    | apply drain_body_ticked
    | apply read_active_ticked
    | apply (steps_forward_tickets _ Hr Ht)
    | apply steps_modify; intros s; now apply (ticked_quiet _ _ [])
    | apply steps_modify; intros s;
      match goal with
      | |- ticked _ (emit ?e _) => now apply (ticked_quiet _ _ [e])
      end ].
  - intros s. destruct (get_previous_eq s) as (r & j & ->).
    now apply (ticked_quiet _ _ []).
  - intros s. unfold read_idle.
    destruct (idle s); now apply (ticked_quiet _ _ []).
  - intros s. unfold toBan.
    destruct (failManager s); now apply (ticked_quiet _ _ []).
  - intros t. apply steps_modify. intros s.
    now apply (ticked_quiet _ _ [EvBan t]).
Qed.
(** ** The cursor over a drain *)

(** The three ways a forward read can go, and where each leaves the
    cursor. *)
Lemma get_next_cursor s :
  exists j,
    snd (get_next s) = set_journal (fun _ => j) s /\
    j_records j = j_records (journal s) /\
    ((hd false (j_faults (journal s)) = true /\
      fst (get_next s) = Raise OSError /\
      next_index j = next_index (journal s))
     \/ (hd false (j_faults (journal s)) = false /\
         j_records (journal s) !! next_index (journal s) = None /\
         fst (get_next s) = Ok ∅ /\
         next_index j = next_index (journal s))
     \/ (hd false (j_faults (journal s)) = false /\
         exists r,
           j_records (journal s) !! next_index (journal s) = Some r /\
           fst (get_next s) = Ok (snd r) /\
           next_index j = S (next_index (journal s)))).
Proof.
  unfold get_next.
  destruct (take_fault_fields (journal s)) as (_ & _ & Hr & Hl & _ & _ & Hf).
  assert (Hn : next_index (snd (take_fault (journal s)))
               = next_index (journal s)).
  { unfold next_index. now rewrite Hl, Hr. }
  destruct (take_fault (journal s)) as [fault j]. cbn in Hr, Hl, Hf, Hn.
  subst fault. destruct (hd false (j_faults (journal s))).
  - exists j. cbn. split; [reflexivity|]. split; [exact Hr|].
    left. now repeat split.
  - rewrite Hn, Hr.
    destruct (j_records (journal s) !! next_index (journal s)) as [r|] eqn:E.
    + eexists. cbn. split; [reflexivity|]. split; [exact Hr|].
      right. right. split; [reflexivity|]. exists r. now repeat split.
    + exists j. cbn. split; [reflexivity|]. split; [exact Hr|].
      right. left. now repeat split.
Qed.

Lemma read_entry_cursor s :
  exists r j,
    read_entry s
    = (Ok r, emit (EvRead (outcome_of r)) (set_journal (fun _ => j) s)) /\
    j_records j = j_records (journal s) /\
    ((hd false (j_faults (journal s)) = true /\ r = None /\
      next_index j = next_index (journal s))
     \/ (hd false (j_faults (journal s)) = false /\
         j_records (journal s) !! next_index (journal s) = None /\
         r = Some ∅ /\
         next_index j = next_index (journal s))
     \/ (hd false (j_faults (journal s)) = false /\
         exists rec,
           j_records (journal s) !! next_index (journal s) = Some rec /\
           r = Some (snd rec) /\
           next_index j = S (next_index (journal s)))).
Proof.
  destruct (get_next_cursor s) as (j & Hs & Hr & H).
  unfold read_entry, try_except, bind, modify, ret.
  destruct (get_next s) as [res s1]. cbn in Hs, H. subst s1.
  destruct H as [(Hf & -> & Hn)|[(Hf & Hnone & -> & Hn)|(Hf & rec & Hrec & -> & Hn)]].
  - exists None, j. split; [reflexivity|]. split; [exact Hr|]. now left.
  - exists (Some ∅), j. split; [reflexivity|]. split; [exact Hr|].
    right. now left.
  - exists (Some (snd rec)), j. split; [reflexivity|]. split; [exact Hr|].
    right. right. split; [exact Hf|]. now exists rec.
Qed.

(** A turn of the drain, from what its read yielded. *)
Lemma drain_body_from_read s r j :
  read_entry s
  = (Ok r, emit (EvRead (outcome_of r)) (set_journal (fun _ => j) s)) ->
  let s2 := set_ticks (ticks s + 1)
              (emit (EvRead (outcome_of r)) (set_journal (fun _ => j) s)) in
  (outcome_of r <> GotEntry /\ drain_body s = (Ok Break, s2))
  \/ (exists e x,
        r = Some e /\ e <> ∅ /\
        formatJournalEntry e s2 = (Raise x, s2) /\
        drain_body s = (Raise x, s2))
  \/ (exists e line stamp,
        r = Some e /\ e <> ∅ /\
        formatJournalEntry e s2 = (Ok (line, stamp), s2) /\
        drain_body s
        = (Ok (if 100 <=? modified s + 1 then Break else Next),
           set_modified (modified s + 1)
             (emit (EvProcess line stamp)
                (set_failManager (failManager s ++ detect line stamp)
                   s2)))).
Proof.
  intros E. cbv zeta. unfold drain_body.
  erewrite bind_ok; [|exact E].
  erewrite bind_ok; [|reflexivity].
  destruct r as [e|]; [|left; split; [easy | reflexivity]].
  unfold outcome_of.
  destruct (decide (e = ∅)) as [He|He]; [left; split; [easy | reflexivity]|].
  right. cbn [ticks emit set_journal].
  set (s2 := set_ticks _ _).
  pose proof (pure_formatJournalEntry e s2) as Hp.
  pose proof (total_formatJournalEntry e s2) as Ht.
  destruct (formatJournalEntry e s2) as [[[line stamp]|x|] s3] eqn:Ef;
    cbn in Hp, Ht; subst s3; [| |easy].
  - right. exists e, line, stamp.
    split; [reflexivity|]. split; [exact He|]. split; [exact Ef|].
    erewrite bind_ok; [|exact Ef].
    unfold bind, processLineAndAdd, modify, gets. subst s2. cbn.
    destruct (100 <=? modified s + 1); reflexivity.
  - left. exists e, x.
    split; [reflexivity|]. split; [exact He|]. split; [exact Ef|].
    now apply bind_raise.
Qed.

Lemma outcome_of_entry e : e <> ∅ -> outcome_of (Some e) = GotEntry.
Proof. intros H. unfold outcome_of. now destruct (decide (e = ∅)). Qed.

(** X16.  An entry that cannot be formatted stops the drain at once: when
    the flag reads as set, the read does not fault and the next record is
    a non-empty entry on which [formatJournalEntry] raises [x], [drain]
    raises [x].  The entry is read and counted by [ticks] but not
    processed, the cursor has moved past it, and the tickets queued stay
    queued: none reaches the jail. *)
Theorem drain_raises_on_unformattable_entry s rest rec x :
  active s = true :: rest ->
  hd false (j_faults (journal s)) = false ->
  j_records (journal s) !! next_index (journal s) = Some rec ->
  snd rec <> ∅ ->
  fst (formatJournalEntry (snd rec) s) = Raise x ->
  exists s',
    drain s = (Raise x, s') /\
    trace s' = EvRead GotEntry :: EvActive true :: trace s /\
    modified s' = 0 /\
    ticks s' = ticks s + 1 /\
    next_index (journal s') = S (next_index (journal s)) /\
    failManager s' = failManager s /\
    jail s' = jail s.
Proof.
  intros Ha Hf Hrec Hne Hx.
  unfold drain. erewrite bind_ok; [|reflexivity].
  unfold while_active. cbn [active set_modified length while].
  rewrite Ha. cbn [length while].
  erewrite bind_ok; [|unfold read_active; cbn; rewrite Ha; reflexivity].
  cbv beta iota.
  set (s1 := emit (EvActive true) (set_active rest (set_modified 0 s))).
  destruct (read_entry_cursor s1) as (r & j & E & Hr & H).
  change (journal s1) with (journal s) in H, Hr.
  destruct H as [(Hf' & _)|[(_ & Hn & _)|(_ & rec' & Hrec' & -> & Hn)]];
    [congruence | congruence |].
  assert (rec' = rec) by congruence. subst rec'.
  destruct (drain_body_from_read s1 _ j E) as [[Ho _]|[H|H]].
  - now rewrite outcome_of_entry in Ho.
  - destruct H as (e & x' & He & _ & Hfm & Hd). injection He as <-.
    destruct (formatJournalEntry_constant (snd rec)) as (res & Hc).
    rewrite Hc in Hx, Hfm. cbn in Hx. subst res. injection Hfm as <-.
    erewrite bind_raise; [|exact Hd].
    eexists. split; [reflexivity|].
    rewrite outcome_of_entry by exact Hne. cbn. now repeat split.
  - destruct H as (e & line & stamp & He & _ & Hfm & _). injection He as <-.
    destruct (formatJournalEntry_constant (snd rec)) as (res & Hc).
    rewrite Hc in Hx, Hfm. cbn in Hx. subst res. discriminate.
Qed.

Lemma drain_body_cursor s0 :
  hoare
    (fun s => no_empty_record s0 /\
              j_records (journal s) = j_records (journal s0) /\
              0 <= modified s /\
              Z.of_nat (next_index (journal s))
              = Z.of_nat (next_index (journal s0)) + modified s)
    drain_body
    (fun _ s => no_empty_record s0 /\
                j_records (journal s) = j_records (journal s0) /\
                0 <= modified s /\
                Z.of_nat (next_index (journal s))
                = Z.of_nat (next_index (journal s0)) + modified s)
    (fun _ => True).
Proof.
  intros s (Hne & Hrec & Hm & Hn).
  destruct (read_entry_cursor s) as (r & j & E & Hr & H).
  destruct (drain_body_from_read s r j E) as [[Ho ->]|[H'|H']].
  - repeat split; cbn; try assumption; [congruence|].
    destruct H as [(_ & _ & ->)|[(_ & _ & _ & ->)|(_ & rec & Hin & -> & _)]];
      try exact Hn.
    exfalso. apply Ho, outcome_of_entry.
    rewrite Hrec in Hin. apply list_elem_of_lookup_2 in Hin.
    unfold no_empty_record in Hne. rewrite List.Forall_forall in Hne.
    apply Hne. now apply list_elem_of_In.
  - destruct H' as (e & x & _ & _ & _ & ->). exact I.
  - destruct H' as (e & line & stamp & -> & He & _ & ->).
    destruct H as [(_ & Hnone & _)|[(_ & _ & Hemp & _)|(_ & rec & _ & _ & Hs)]];
      [discriminate | injection Hemp as ->; now elim He |].
    assert (Hgoal : no_empty_record s0 /\
              j_records j = j_records (journal s0) /\
              0 <= modified s + 1 /\
              Z.of_nat (next_index j)
              = Z.of_nat (next_index (journal s0)) + (modified s + 1)).
    { repeat split; [exact Hne | congruence | lia | lia]. }
    destruct (100 <=? modified s + 1); exact Hgoal.
Qed.

(** X17.  Over a drain that ends normally the cursor moves by exactly the
    entries processed: with no empty record in the journal, as many
    records lie between the cursor before and the cursor after as the
    counter of the cycle says, and the records themselves are untouched;
    no entry is skipped and none is read twice. *)
Theorem drain_cursor_follows_counter s s' :
  no_empty_record s ->
  drain s = (Ok tt, s') ->
  j_records (journal s') = j_records (journal s) /\
  0 <= modified s' <= 100 /\
  Z.of_nat (next_index (journal s'))
  = Z.of_nat (next_index (journal s)) + modified s'.
Proof.
  intros Hne Hd.
  set (I := fun s1 : FilterSystemd =>
              no_empty_record s /\
              j_records (journal s1) = j_records (journal s) /\
              0 <= modified s1 /\
              Z.of_nat (next_index (journal s1))
              = Z.of_nat (next_index (journal s)) + modified s1).
  assert (H : hoare (fun s1 => s1 = s) drain (fun _ s1 => I s1)
                (fun _ => True)).
  { unfold drain. apply hoare_bind with (R := fun _ s1 => I s1).
    - apply hoare_modify_from. intros s1 ->. unfold I. cbn.
      repeat split; [exact Hne | lia | lia].
    - intros _. apply hoare_while_active with (I := I) (C := I).
      + intros s1 HI. rewrite read_active_eq.
        destruct (hd false (active s1)); exact HI.
      + eapply hoare_conseq; [apply (drain_body_cursor s) | auto | | auto].
        intros [|] s1 HI; exact HI.
      + auto. }
  specialize (H s eq_refl). rewrite Hd in H.
  destruct H as (_ & H1 & H2 & H3).
  split; [exact H1|]. split; [|exact H3].
  split; [exact H2|].
  pose proof (drain_counts s) as Hc. rewrite Hd in Hc. lia.
Qed.
(** ** A run on a stopped filter *)

Lemma startup_eq s :
  start_time_defined s = true ->
  exists j,
    startup s = (Ok tt, set_journal (fun _ => j) (seeked s)) /\
    j_records j = j_records (journal s) /\
    j_filters j = j_filters (journal s).
Proof.
  intros Hd. rewrite startup_unfold by exact Hd.
  unfold try_except, bind, get_previous.
  destruct (take_fault_fields (journal (seeked s))) as (Hf & _ & Hr & _).
  assert (Hs : j_records (journal (seeked s)) = j_records (journal s) /\
               j_filters (journal (seeked s)) = j_filters (journal s)).
  { unfold seeked, noticed. now destruct (is_nonempty (matches s)). }
  destruct Hs as [Hs1 Hs2]. rewrite Hs1 in Hr. rewrite Hs2 in Hf.
  destruct (take_fault (journal (seeked s))) as [[|] j]; cbn in Hr, Hf.
  - exists j. now repeat split.
  - destruct (previous_index j) as [i|]; [|exists j; now repeat split].
    destruct (j_records j !! i); eexists; (split; [reflexivity|]);
      now split.
Qed.

(** X18.  Started on a filter whose [active] flag is already cleared,
    [run] does the startup and stops.  When the start time is a
    [datetime], it returns [True] at once: the only events are the notice
    (when no match is set) and the one read of the flag; there is no wait
    and no read of the journal, the counters and the tickets are left as
    they were.  When it is not (a [findtime] beyond what a [timedelta] or
    the range of [datetime] takes), the [OverflowError] leaves [run] right
    after the notice, the flag not read and the store not called. *)
Theorem run_on_stopped_filter s :
  hd false (active s) = false ->
  (start_time_defined s = true ->
   fst (run s) = Ok true /\
   trace (snd (run s))
   = EvActive false
       :: (if is_nonempty (matches s) then [] else [EvNotice]) ++ trace s /\
   ticks (snd (run s)) = ticks s /\
   modified (snd (run s)) = modified s /\
   jail (snd (run s)) = jail s /\
   failManager (snd (run s)) = failManager s /\
   j_records (journal (snd (run s))) = j_records (journal s)) /\
  (start_time_defined s = false ->
   run s = (Raise OverflowError, noticed s)).
Proof.
  intros Ha. split.
  - intros Hd. destruct (startup_eq s Hd) as (j & Es & Hr & _).
    unfold run. erewrite bind_ok; [|exact Es].
    set (s1 := set_journal (fun _ => j) (seeked s)).
    assert (Ha1 : hd false (active s1) = false).
    { unfold s1, seeked, noticed. now destruct (is_nonempty (matches s)). }
    assert (Ew : while_active wait_cycle s1 = (Ok tt, polled_state s1)).
    { unfold while_active. cbn [while].
      erewrite bind_ok; [|apply read_active_eq].
      rewrite Ha1. reflexivity. }
    erewrite bind_ok; [|exact Ew].
    unfold polled_state. rewrite Ha1. unfold s1, seeked, noticed.
    destruct (is_nonempty (matches s)); cbn; now repeat split.
  - intros Hd. unfold run. apply bind_raise. now apply startup_overflow.
Qed.

(** ** One wait cycle *)

(** X19.  An idle cycle only waits and sleeps: when [idle] reads as set,
    the cycle reads no entry and reads the [active] flag not at all; it
    leaves the cursor, the counters, the queue and the jail alone (the
    counter of the cycle before is not even reset), and the records that
    arrived during the wait stay unread in the store. *)
Theorem wait_cycle_idle_only_sleeps s :
  hd false (idle s) = true ->
  exists s',
    wait_cycle s = (Ok Next, s') /\
    trace s' = EvSleep :: EvWait :: trace s /\
    j_records (journal s')
    = j_records (journal s) ++ hd [] (j_incoming (journal s)) /\
    j_loc (journal s') = j_loc (journal s) /\
    active s' = active s /\
    ticks s' = ticks s /\
    modified s' = modified s /\
    failManager s' = failManager s /\
    jail s' = jail s.
Proof.
  intros Hi. unfold wait_cycle.
  erewrite bind_ok; [|reflexivity].
  unfold read_idle at 1. unfold bind at 1. cbn [idle emit set_journal].
  destruct (idle s) as [|b rest] eqn:Ei; [discriminate|].
  cbn in Hi. subst b. cbv beta iota.
  eexists. split; [reflexivity|]. cbn.
  destruct (journal s) as [f n rs l [|batch inc] fl]; cbn;
    rewrite ?app_nil_r; now repeat split.
Qed.

Lemma wait_cycle_next s c s' : wait_cycle s = (Ok c, s') -> c = Next.
Proof.
  unfold wait_cycle. erewrite bind_ok; [|reflexivity].
  set (s1 := emit EvWait _).
  unfold bind at 1. destruct (read_idle s1) as [[[|]|x|] s2];
    [| |discriminate|discriminate].
  - cbn. intros H. now injection H as <-.
  - unfold bind at 1. destruct (drain s2) as [[[]|x|] s3];
      [|discriminate|discriminate].
    erewrite bind_ok; [|reflexivity].
    destruct (modified s3 =? 0).
    + cbn. intros H. now injection H as <-.
    + erewrite bind_ok; [|apply forward_tickets_eq].
      cbn. intros H. now injection H as <-.
Qed.

(** X20.  [run] returns only [True], and only right after a read of the
    [active] flag that found it cleared: no [break] leaves the outer loop
    and no other event follows that read. *)
Theorem run_returns_after_cleared_flag s b s' :
  run s = (Ok b, s') ->
  b = true /\ exists rest, trace s' = EvActive false :: rest.
Proof.
  intros H.
  assert (Hh : hoare (fun _ => True) run
                 (fun b s1 => b = true /\ just_cleared s1) (fun _ => True)).
  { unfold run.
    apply hoare_bind with (R := fun _ _ => True);
      [intros s0 _; now destruct (startup s0) as [[|x|] ?]|].
    intros _.
    apply hoare_bind with (R := fun _ s1 => just_cleared s1);
      [|intros _; now apply hoare_ret_from].
    apply hoare_while_active with (I := fun _ => True) (C := fun _ => True);
      [| |auto].
    - intros s0 _. rewrite read_active_eq. unfold polled_state.
      destruct (hd false (active s0)); [exact I|]. now eexists.
    - intros s0 _. destruct (wait_cycle s0) as [[c|x|] s1] eqn:E;
        [|exact I|exact I].
      now rewrite (wait_cycle_next s0 c s1 E). }
  specialize (Hh s I). rewrite H in Hh. exact Hh.
Qed.

(** ** The tickets of one cycle *)

Lemma queued_refl s : queued s s.
Proof. exists []. cbn. now rewrite app_nil_r. Qed.

Lemma queued_trans s1 s2 s3 : queued s1 s2 -> queued s2 s3 -> queued s1 s3.
Proof.
  intros (n1 & T1 & J1 & Q1) (n2 & T2 & J2 & Q2). exists (n2 ++ n1).
  repeat split.
  - now rewrite T2, T1, app_assoc.
  - congruence.
  - now rewrite Q2, Q1, detected_app, app_assoc.
Qed.

Lemma queued_quiet s s' new :
  trace s' = new ++ trace s -> jail s' = jail s ->
  failManager s' = failManager s -> detected new = [] ->
  queued s s'.
Proof.
  intros T J Q D. exists new. rewrite D, J, Q, app_nil_r. now repeat split.
Qed.

Lemma drain_queued : steps queued drain.
Proof.
  pose proof queued_refl as Hr.
  pose proof queued_trans as Ht.
  unfold drain, drain_body, read_entry, processLineAndAdd.
  repeat first
    [ steps_step Hr Ht
    | apply (steps_pure _ _ Hr), pure_formatJournalEntry
    | apply steps_modify; intros s; now apply (queued_quiet _ _ [])
    | apply steps_modify; intros s;
      match goal with
      | |- queued _ (emit (EvRead ?o) _) =>
          now apply (queued_quiet _ _ [EvRead o])
      end ].
  - intros s. rewrite read_active_eq.
    now apply (queued_quiet _ _ [EvActive (hd false (active s))]).
  - intros s. destruct (get_next_eq s) as (r & j & -> & _).
    now apply (queued_quiet _ _ []).
  - apply steps_modify. intros s.
    match goal with
    | |- context [EvProcess ?l ?st] => exists [EvProcess l st]
    end.
    cbn. unfold detected. cbn. now rewrite !app_nil_r.
Qed.

Lemma detected_none new : count is_process new = O -> detected new = [].
Proof.
  unfold detected. induction new as [|e new IH]; [reflexivity|].
  rewrite count_cons. cbn [rev]. rewrite flat_map_app. cbn.
  rewrite app_nil_r. destruct e; cbn; try discriminate;
    intros H; now rewrite IH.
Qed.

Lemma detected_cleanup_bans q :
  detected (EvCleanup :: rev (map EvBan q)) = [].
Proof.
  change (EvCleanup :: rev (map EvBan q))
    with ([EvCleanup] ++ rev (map EvBan q)).
  now rewrite detected_app, detected_bans.
Qed.

(** X21.  The tickets of a cycle that is not idle.  When the cycle
    processed an entry, it empties the queue: every ticket goes to the
    jail, in order, those queued before the cycle first and then those
    made ready at its entries.  When it processed none, queue and jail
    are left as they were: tickets queued meanwhile are not handed over
    by such a cycle. *)
Theorem wait_cycle_forwards_when_modified s c s' :
  hd false (idle s) = false ->
  wait_cycle s = (Ok c, s') ->
  exists new,
    trace s' = new ++ trace s /\
    if modified s' =? 0
    then jail s' = jail s /\ failManager s' = failManager s
    else failManager s' = [] /\
         jail s' = jail s ++ failManager s ++ detected new.
Proof.
  intros Hi. unfold wait_cycle.
  erewrite bind_ok; [|reflexivity].
  set (s1 := emit EvWait _).
  assert (Hs1 : trace s1 = EvWait :: trace s /\ jail s1 = jail s /\
                failManager s1 = failManager s /\ idle s1 = idle s)
    by now repeat split.
  destruct Hs1 as (T1 & J1 & Q1 & I1).
  unfold bind at 1. unfold read_idle. rewrite I1.
  set (s2 := match idle s with [] => s1 | _ :: rest => set_idle rest s1 end).
  assert (Hs2 : trace s2 = EvWait :: trace s /\ jail s2 = jail s /\
                failManager s2 = failManager s).
  { unfold s2. destruct (idle s); now repeat split. }
  destruct Hs2 as (T2 & J2 & Q2).
  assert (E2 : (match idle s with
                | [] => (Ok false, s1)
                | b :: rest => (Ok b, set_idle rest s1)
                end) = (Ok false, s2)).
  { unfold s2. destruct (idle s) as [|b rest]; [reflexivity|].
    cbn in Hi. now subst b. }
  rewrite E2. cbv beta iota.
  destruct (drain_queued s2) as (new & T3 & J3 & Q3).
  pose proof (drain_counts s2) as Hc.
  unfold bind at 1. destruct (drain s2) as [[[]|x|] s3] eqn:Ed;
    [|discriminate|discriminate].
  cbn [snd] in T3, J3, Q3. destruct Hc as ((new' & T3' & Hn) & _ & _).
  assert (new' = new).
  { rewrite T3 in T3'. now apply app_inv_tail in T3'. }
  subst new'.
  erewrite bind_ok; [|reflexivity].
  destruct (modified s3 =? 0) eqn:Em.
  - cbn. intros H. injection H as _ <-. rewrite Em.
    exists (new ++ [EvWait]). split.
    + rewrite T3, T2, <- app_assoc. reflexivity.
    + apply Z.eqb_eq in Em. rewrite Em in Hn.
      rewrite detected_none in Q3 by lia. rewrite app_nil_r in Q3.
      split; congruence.
  - erewrite bind_ok; [|apply forward_tickets_eq].
    cbn. intros H. injection H as _ <-.
    destruct (forward_all_fields (failManager s3) s3 eq_refl)
      as (F1 & F2 & F3 & _ & F5 & _).
    cbn [modified emit]. rewrite F5, Em. cbn [trace failManager jail emit].
    exists ((EvCleanup :: rev (map EvBan (failManager s3))) ++ new
            ++ [EvWait]).
    split.
    + rewrite F3, T3, T2, <- !app_assoc. reflexivity.
    + split; [exact F1|]. rewrite F2, J3, Q3, J2, Q2.
      rewrite !detected_app, detected_cleanup_bans. cbn.
      now rewrite app_nil_r.
Qed.
(** ** The arguments of the journal reader *)

Lemma elem_of_expand_from ps : forall acc f,
  f ∈ fold_left (fun files p => files ++ glob p) ps acc
  <-> f ∈ acc \/ exists p, p ∈ ps /\ f ∈ glob p.
Proof.
  induction ps as [|p ps IH]; intros acc f; cbn [fold_left].
  - split; [now left|]. intros [H|(p & Hp & _)]; [exact H|].
    now apply not_elem_of_nil in Hp.
  - rewrite IH, elem_of_app. split.
    + intros [[H|H]|(q & Hq & Hf)].
      * now left.
      * right. exists p. split; [apply list_elem_of_here | exact H].
      * right. exists q. split; [now apply list_elem_of_further | exact Hf].
    + intros [H|(q & Hq & Hf)]; [now left; left|].
      apply elem_of_cons in Hq as [->|Hq]; [now left; right|].
      right. now exists q.
Qed.

Lemma elem_of_expand ps f :
  f ∈ expand ps <-> exists p, p ∈ ps /\ f ∈ glob p.
Proof.
  unfold expand. rewrite elem_of_expand_from. split; [|now right].
  intros [H|H]; [now apply not_elem_of_nil in H | exact H].
Qed.


End Filter.

(** ** The theorems at sample inputs *)

Lemma store_mirrors_matches_after_operations_witness :
  exists s,
    perform_all has_equals
      [OpAdd ["_SYSTEMD_UNIT=sshd.service"; "_COMM=sshd"; "+"; "PRIORITY=3"];
       OpDel ["PRIORITY=3"];
       OpAdd ["_UID=0"]]
      empty_filter = Some s /\
    matches s = [["_SYSTEMD_UNIT=sshd.service"; "_COMM=sshd"]; ["_UID=0"]] /\
    filter_structure (journal s) = List.filter is_nonempty (matches s) /\
    filter_structure (journal s) = groups_of [] (replay_ops (matches s)) /\
    mirrors s /\
    accepted has_equals s = true /\
    in_sync has_equals s.
Proof.
  eexists. split; [vm_compute; reflexivity|]. split; [reflexivity|].
  eapply (store_mirrors_matches_after_operations has_equals
            [OpAdd ["_SYSTEMD_UNIT=sshd.service"; "_COMM=sshd"; "+";
                    "PRIORITY=3"];
             OpDel ["PRIORITY=3"];
             OpAdd ["_UID=0"]]
            empty_filter).
  - split; reflexivity.
  - vm_compute. reflexivity.
Defined.

Lemma addJournalMatch_rejects_whole_spec_or_appends_witness :
  (exists s',
     addJournalMatch has_equals ["_UID=0"; "+"; "bogus"] two_group_filter
     = (Raise (ValueError "Invalid match"), s') /\
     matches s' = matches two_group_filter /\
     filter_structure (journal s')
     = filter_structure (journal two_group_filter)) /\
  (exists s',
     addJournalMatch has_equals ["_UID=0"; "+"; "_UID=1"] two_group_filter
     = (Ok tt, s') /\
     matches s' = matches two_group_filter ++ [["_UID=0"]; ["_UID=1"]]).
Proof.
  assert (Hreach : reachable has_equals two_group_filter).
  { change two_group_filter
      with (snd (perform has_equals (OpAdd ["_COMM=sshd"; "+"; "PRIORITY=3"])
                   empty_filter)).
    apply reach_step, reach_fresh. split; reflexivity. }
  split.
  - destruct (addJournalMatch_rejects_whole_spec_or_appends has_equals
                two_group_filter ["_UID=0"; "+"; "bogus"] Hreach)
      as [H _].
    destruct (H eq_refl) as (s' & E & Hm & _ & _ & _ & Hs).
    exists s'. split; [exact E | split; [exact Hm | exact Hs]].
  - destruct (addJournalMatch_rejects_whole_spec_or_appends has_equals
                two_group_filter ["_UID=0"; "+"; "_UID=1"] Hreach)
      as [_ H].
    destruct (H eq_refl) as (s' & E & Hm).
    exists s'. split; [exact E | exact Hm].
Defined.

Lemma delJournalMatch_unknown_group_raises_witness :
  delJournalMatch has_equals ["_COMM=sshd"; "+"; "PRIORITY=3"]
    two_group_filter
  = (Raise (ValueError "Match not found"), two_group_filter).
Proof.
  apply delJournalMatch_unknown_group_raises.
  cbn. intros H.
  apply elem_of_cons in H as [H|H]; [discriminate|].
  apply elem_of_cons in H as [H|H]; [discriminate|].
  now apply not_elem_of_nil in H.
Defined.

Lemma add_delete_status_rendering_witness :
  exists s1 s2,
    addJournalMatch has_equals
      ["_SYSTEMD_UNIT=sshd.service"; "_COMM=sshd"; "+"; "PRIORITY=3"]
      empty_filter = (Ok tt, s1) /\
    status [] s1
    = [("Journal matches",
        ["_SYSTEMD_UNIT=sshd.service _COMM=sshd + PRIORITY=3"])] /\
    delJournalMatch has_equals ["_SYSTEMD_UNIT=sshd.service"; "_COMM=sshd"] s1
    = (Ok tt, s2) /\
    status [] s2 = [("Journal matches", ["PRIORITY=3"])] /\
    matches s2 = [["PRIORITY=3"]] /\
    j_filters (journal s2) = [JMatch "PRIORITY=3"; JOr] /\
    j_flushes (journal s2) = 1%nat.
Proof.
  apply (add_delete_status_rendering has_equals
           "_SYSTEMD_UNIT=sshd.service" "_COMM=sshd" "PRIORITY=3"
           empty_filter []);
    try reflexivity; try discriminate.
  split; reflexivity.
Defined.


Lemma formatJournalEntry_kernel_monotonic_stamp_witness :
  (exists pad,
     formatJournalEntry (fun x => x) sample_isoformat kernel_entry
       empty_filter
     = (Ok (("", sample_isoformat (mkDatetime 1700000002 0),
             kernel_line ["gate"] pad 1234567 "eth0: link up"),
            epoch_stamp (mkDatetime 1700000002 0)), empty_filter) /\
     six_decimals pad 1234567) /\
  (exists host msg us pad,
     monotonic_of kernel_entry us /\
     "gate kernel: [    1.234567] eth0: link up"
     = kernel_line host pad us msg /\
     six_decimals pad us).
Proof.
  destruct (formatJournalEntry_kernel_monotonic_stamp (fun x => x)
              sample_isoformat kernel_entry empty_filter) as [HA HB].
  { vm_compute. reflexivity. }
  split.
  - apply (HA ["gate"] "eth0: link up" (mkDatetime 1700000002 0) 1234567).
    + vm_compute. reflexivity.
    + vm_compute. reflexivity.
    + right. split; vm_compute; reflexivity.
    + right. split; [vm_compute; reflexivity|].
      exists "b0". vm_compute. reflexivity.
  - apply (HB "" "1700000002" "gate kernel: [    1.234567] eth0: link up"
              (epoch_stamp (mkDatetime 1700000002 0)) empty_filter).
    vm_compute. reflexivity.
Defined.

Lemma formatJournalEntry_kernel_without_monotonic_raises_witness :
  formatJournalEntry (fun x => x) sample_isoformat kernel_entry_no_monotonic
    empty_filter
  = (Raise TypeError, empty_filter).
Proof.
  apply formatJournalEntry_kernel_without_monotonic_raises.
  - vm_compute. reflexivity.
  - vm_compute. reflexivity.
  - vm_compute. reflexivity.
Defined.


Lemma run_polls_active_twice_per_cycle_witness :
  fst (run (fun x => x) sample_isoformat utc utc sample_fromtimestamp
      sample_detect busy_filter)
  <> OutOfFuel /\
  polled (trace (snd (run (fun x => x) sample_isoformat utc utc sample_fromtimestamp
      sample_detect
                        busy_filter))) = true /\
  latency 100 (trace (snd (run (fun x => x) sample_isoformat utc utc sample_fromtimestamp
      sample_detect
                             busy_filter))).
Proof.
  destruct (run_polls_active_twice_per_cycle (fun x => x) sample_isoformat
              utc utc sample_fromtimestamp sample_detect busy_filter eq_refl)
    as (H1 & H2 & H3 & _).
  split; [exact H1 | split; [exact H2 | exact H3]].
Defined.


(** C5, as stated, fails: with the flag cleared and two tickets waiting,
    the ticket loop hands both to the jail without a read of the flag. *)
Lemma ticket_loop_does_not_poll_active :
  cleared stopped_filter /\
  jail (snd (forward_tickets stopped_filter)) = ["192.0.2.1"; "192.0.2.7"] /\
  count is_poll (added forward_tickets stopped_filter) = O /\
  ~ ticket_loop_polls stopped_filter.
Proof.
  split; [constructor|]. split; [reflexivity|]. split; [reflexivity|].
  unfold ticket_loop_polls. vm_compute. lia.
Qed.

(** C4, as stated, fails: with the flag cleared after two reads of it, the
    drain ends after two entries, the counter at 2 and the next record of
    the journal ready to be read. *)
Lemma drain_stops_on_cleared_flag :
  let r := drain (fun x => x) sample_isoformat sample_detect brief_filter in
  fst r = Ok tt /\
  modified (snd r) = 2 /\
  fst (get_next (snd r)) = Ok (snd (sample_record 2)) /\
  snd (sample_record 2) <> ∅ /\
  ~ stops_at_cap_or_no_entry (fun x => x) sample_isoformat sample_detect
      brief_filter.
Proof.
  cbv zeta. split; [vm_compute; reflexivity|].
  split; [vm_compute; reflexivity|].
  split; [vm_compute; reflexivity|].
  split.
  { intros H.
    assert (E : snd (sample_record 2) !! "MESSAGE" = (∅ : logentry) !! "MESSAGE")
      by now rewrite H.
    vm_compute in E. discriminate. }
  unfold stops_at_cap_or_no_entry. intros H.
  destruct (H ltac:(vm_compute; reflexivity)) as [H1|H1].
  - vm_compute in H1. discriminate.
  - vm_compute in H1. exact H1.
Qed.

(** A drain stops at the cap with entries left to read: of the 150
    records of the journal, read from its head, it processes 100. *)
Example drain_leaves_entries_unread :
  let s := snd (drain (fun x => x) sample_isoformat sample_detect
                  busy_filter) in
  modified s = 100 /\ j_loc (journal s) = LocAt 99 /\
  length (j_records (journal s)) = 150%nat /\
  count is_process (trace s) = 100%nat.
Proof. vm_compute. repeat split; reflexivity. Qed.

(** ** The further theorems at sample inputs *)

Ltac two_group_reachable :=
  change two_group_filter
    with (snd (perform has_equals (OpAdd ["_COMM=sshd"; "+"; "PRIORITY=3"])
                 empty_filter));
  apply reach_step, reach_fresh; split; reflexivity.

Ltac by_decide := apply (bool_decide_unpack _); vm_compute; exact I.

Lemma sentinel_never_stored_witness :
  (forall g, g ∈ matches two_group_filter -> "+" ∉ g) /\
  JMatch "+" ∉ j_filters (journal two_group_filter).
Proof.
  apply (sentinel_never_stored has_equals). two_group_reachable.
Defined.

Lemma delJournalMatch_with_sentinel_raises_witness :
  delJournalMatch has_equals ["PRIORITY=3"; "+"] two_group_filter
  = (Raise (ValueError "Match not found"), two_group_filter).
Proof.
  apply delJournalMatch_with_sentinel_raises.
  - two_group_reachable.
  - by_decide.
Defined.

Lemma add_then_delete_restores_witness :
  exists s1 s2,
    addJournalMatch has_equals ["_UID=0"] two_group_filter = (Ok tt, s1) /\
    delJournalMatch has_equals ["_UID=0"] s1 = (Ok tt, s2) /\
    matches s2 = matches two_group_filter /\
    filter_structure (journal s2)
    = filter_structure (journal two_group_filter).
Proof.
  apply add_then_delete_restores.
  - two_group_reachable.
  - reflexivity.
  - by_decide.
  - by_decide.
Defined.

Lemma delJournalMatch_removes_first_occurrence_witness :
  exists pre post s',
    matches two_group_filter = pre ++ ["PRIORITY=3"] :: post /\
    (["PRIORITY=3"] ∉ pre) /\
    delJournalMatch has_equals ["PRIORITY=3"] two_group_filter
    = (Ok tt, s') /\
    matches s' = pre ++ post /\
    j_flushes (journal s') = S (j_flushes (journal two_group_filter)) /\
    filter_structure (journal s') = List.filter is_nonempty (pre ++ post).
Proof.
  apply delJournalMatch_removes_first_occurrence.
  - two_group_reachable.
  - by_decide.
Defined.

Lemma resetJournalMatches_failure_empties_matches_witness :
  exists s',
    resetJournalMatches has_equals tainted_filter
    = (Raise (ValueError "Invalid match"), s') /\
    matches s' = [] /\
    matches tainted_filter <> [] /\
    j_flushes (journal s') = S (j_flushes (journal tainted_filter)).
Proof.
  apply resetJournalMatches_failure_empties_matches. reflexivity.
Defined.

Lemma resetJournalMatches_keeps_structure_witness :
  exists s',
    resetJournalMatches has_equals two_group_filter = (Ok tt, s') /\
    matches s' = matches two_group_filter /\
    filter_structure (journal s')
    = filter_structure (journal two_group_filter) /\
    j_flushes (journal s') = S (j_flushes (journal two_group_filter)).
Proof.
  apply resetJournalMatches_keeps_structure. two_group_reachable.
Defined.

Lemma addJournalMatch_only_appends_witness :
  exists s' more,
    addJournalMatch has_equals ["_UID=0"; "+"; "+"; "_UID=1"]
      two_group_filter = (Ok tt, s') /\
    j_flushes (journal s') = j_flushes (journal two_group_filter) /\
    j_filters (journal s') = j_filters (journal two_group_filter) ++ more /\
    filter_structure (journal s')
    = filter_structure (journal two_group_filter)
      ++ [["_UID=0"]; ["_UID=1"]].
Proof.
  apply (addJournalMatch_only_appends has_equals two_group_filter
           ["_UID=0"; "+"; "+"; "_UID=1"]).
  - two_group_reachable.
  - reflexivity.
Defined.

Lemma status_echoes_specification_witness :
  exists s1,
    addJournalMatch has_equals ["_COMM=sshd"; "+"; "PRIORITY=3"] empty_filter
    = (Ok tt, s1) /\
    status [("Currently failed", ["0"])] s1
    = [("Currently failed", ["0"]);
       ("Journal matches", ["_COMM=sshd + PRIORITY=3"])].
Proof.
  apply (status_echoes_specification has_equals empty_filter
           ["_COMM=sshd"; "+"; "PRIORITY=3"] [("Currently failed", ["0"])]).
  - split; reflexivity.
  - reflexivity.
  - reflexivity.
Defined.

Lemma formatJournalEntry_without_realtime_raises_witness :
  formatJournalEntry (fun x => x) sample_isoformat undated_entry empty_filter
  = (Raise AttributeError, empty_filter).
Proof.
  destruct (formatJournalEntry_without_realtime_raises (fun x => x)
              sample_isoformat undated_entry empty_filter)
    as [_ H]; [reflexivity | reflexivity |].
  apply (H ["gate"; "no date"]). vm_compute. reflexivity.
Defined.

Lemma formatJournalEntry_with_pid_skips_monotonic_witness :
  formatJournalEntry (fun x => x) sample_isoformat kernel_pid_entry
    empty_filter
  = (Ok (("", sample_isoformat (mkDatetime 1700000004 0),
          "gate kernel[1]: audit: enabled"),
         epoch_stamp (mkDatetime 1700000004 0)), empty_filter).
Proof.
  apply (formatJournalEntry_with_pid_skips_monotonic (fun x => x)
           sample_isoformat kernel_pid_entry empty_filter "kernel" 1
           ["gate"] "audit: enabled" (mkDatetime 1700000004 0)).
  - vm_compute. reflexivity.
  - discriminate.
  - vm_compute. reflexivity.
  - lia.
  - vm_compute. reflexivity.
  - vm_compute. reflexivity.
  - right. split; vm_compute; reflexivity.
Defined.

Lemma formatJournalEntry_bare_message_witness :
  formatJournalEntry (fun x => x) sample_isoformat (snd (sample_record 50))
    empty_filter
  = (Ok (("", sample_isoformat (mkDatetime 50 0), "fail"),
         epoch_stamp (mkDatetime 50 0)), empty_filter).
Proof.
  apply (formatJournalEntry_bare_message (fun x => x) sample_isoformat
           (snd (sample_record 50)) empty_filter "fail" (mkDatetime 50 0)).
  - vm_compute. reflexivity.
  - vm_compute. reflexivity.
  - vm_compute. reflexivity.
  - right. split; vm_compute; reflexivity.
Defined.

Lemma drain_raises_on_unformattable_entry_witness :
  exists s',
    drain (fun x => x) sample_isoformat sample_detect faulty_filter
    = (Raise TypeError, s') /\
    trace s' = EvRead GotEntry :: EvActive true :: trace faulty_filter /\
    modified s' = 0 /\
    ticks s' = ticks faulty_filter + 1 /\
    next_index (journal s') = S (next_index (journal faulty_filter)) /\
    failManager s' = failManager faulty_filter /\
    jail s' = jail faulty_filter.
Proof.
  apply (drain_raises_on_unformattable_entry (fun x => x) sample_isoformat
           sample_detect faulty_filter [true]
           (1700000003000000, kernel_entry_no_monotonic) TypeError).
  - reflexivity.
  - reflexivity.
  - vm_compute. reflexivity.
  - by_decide.
  - vm_compute. reflexivity.
Defined.

Lemma drain_cursor_follows_counter_witness :
  let s' := snd (drain (fun x => x) sample_isoformat sample_detect
                   brief_filter) in
  j_records (journal s') = j_records (journal brief_filter) /\
  0 <= modified s' <= 100 /\
  Z.of_nat (next_index (journal s'))
  = Z.of_nat (next_index (journal brief_filter)) + modified s'.
Proof.
  apply (drain_cursor_follows_counter (fun x => x) sample_isoformat
           sample_detect brief_filter).
  - by_decide.
  - vm_compute. reflexivity.
Defined.

Lemma run_on_stopped_filter_witness :
  (let r := run (fun x => x) sample_isoformat utc utc sample_fromtimestamp
              sample_detect stopped_filter in
   fst r = Ok true /\
   trace (snd r) = [EvActive false; EvNotice] /\
   ticks (snd r) = ticks stopped_filter /\
   modified (snd r) = modified stopped_filter /\
   jail (snd r) = jail stopped_filter /\
   failManager (snd r) = failManager stopped_filter /\
   j_records (journal (snd r)) = j_records (journal stopped_filter)) /\
  run (fun x => x) sample_isoformat utc utc sample_fromtimestamp
    sample_detect far_filter
  = (Raise OverflowError, noticed far_filter).
Proof.
  split.
  - apply (run_on_stopped_filter (fun x => x) sample_isoformat utc utc
             sample_fromtimestamp sample_detect stopped_filter);
      reflexivity.
  - apply (run_on_stopped_filter (fun x => x) sample_isoformat utc utc
             sample_fromtimestamp sample_detect far_filter);
      reflexivity.
Defined.

Lemma wait_cycle_idle_only_sleeps_witness :
  exists s',
    wait_cycle (fun x => x) sample_isoformat sample_detect idle_filter
    = (Ok Next, s') /\
    trace s' = EvSleep :: EvWait :: trace idle_filter /\
    j_records (journal s')
    = j_records (journal idle_filter)
      ++ hd [] (j_incoming (journal idle_filter)) /\
    j_loc (journal s') = j_loc (journal idle_filter) /\
    active s' = active idle_filter /\
    ticks s' = ticks idle_filter /\
    modified s' = modified idle_filter /\
    failManager s' = failManager idle_filter /\
    jail s' = jail idle_filter.
Proof.
  apply (wait_cycle_idle_only_sleeps (fun x => x) sample_isoformat
           sample_detect idle_filter).
  reflexivity.
Defined.

Lemma run_returns_after_cleared_flag_witness :
  fst (run (fun x => x) sample_isoformat utc utc sample_fromtimestamp
         sample_detect brief_filter)
  = Ok true /\
  exists rest,
    trace (snd (run (fun x => x) sample_isoformat utc utc
                  sample_fromtimestamp sample_detect brief_filter))
    = EvActive false :: rest.
Proof.
  split; [vm_compute; reflexivity|].
  apply (run_returns_after_cleared_flag (fun x => x) sample_isoformat
           utc utc sample_fromtimestamp sample_detect brief_filter true
           (snd (run (fun x => x) sample_isoformat utc utc
                   sample_fromtimestamp sample_detect brief_filter))).
  vm_compute. reflexivity.
Defined.

Lemma wait_cycle_forwards_when_modified_witness :
  let s' := snd (wait_cycle (fun x => x) sample_isoformat sample_detect
                   brief_filter) in
  exists new,
    trace s' = new ++ trace brief_filter /\
    if modified s' =? 0
    then jail s' = jail brief_filter /\
         failManager s' = failManager brief_filter
    else failManager s' = [] /\
         jail s' = jail brief_filter ++ failManager brief_filter
                   ++ detected sample_detect new.
Proof.
  apply (wait_cycle_forwards_when_modified (fun x => x) sample_isoformat
           sample_detect brief_filter Next).
  - reflexivity.
  - vm_compute. reflexivity.
Defined.


